(** * The Lottery+ ticket ledger

    A shallow embedding of the two classes of [src/main.py] that make up the
    lottery core: [DB] (the SQLite tables and the queries run on them) and
    [LotteryCore] (reservation, payment activation and the prize draw).

    - The SQLite tables become finite maps and lists: [tickets] is keyed by
      its INTEGER PRIMARY KEY [ticket_number]; [payments] and [draws] are
      AUTOINCREMENT tables that are only ever appended to, so a row's [id]
      is its position in the list plus one.  The [created_at] columns are
      never read by the core and are left out.
    - Python [float]s (SQLite REAL) become rationals.  Every amount the
      core computes is a multiple of [TICKET_PRICE = 0.5], on which the
      double arithmetic of the source is exact.
    - Methods that write become computations in a state-and-exception
      monad: a raised exception still returns the state reached so far, so
      that "nothing was written" is a statement to prove.  The state is the
      database as the one connection of the process sees it: rows written
      by statements that ran before an exception stay in the connection's
      open transaction, every later query of the core reads them, and the
      next [commit] makes them permanent.
    - A Python [int] bound to a [?] of a statement must fit a 64-bit SQLite
      INTEGER; the [sqlite3] module raises [OverflowError] otherwise.
    - [random.sample] is driven by an explicit stream of random draws. *)

From Stdlib Require Import ZArith QArith Qround Ascii.
From stdpp Require Import base numbers strings list sorting gmap pretty.

Open Scope Z_scope.

(** ** Exceptions and the state monad *)

(** The exceptions the core can raise.  The first four are the
    [ValueError]s of [reserve_tickets] and the [RuntimeError]s of
    [draw_winners], in source order; the others are what the Python
    runtime raises on [tickets[0]] / [PRIZES[i]] out of range, on
    [random.sample] with a sample larger than the population, and on
    binding an [int] outside the 64-bit range to a statement. *)
Inductive error : Set :=
  | InvalidQuantity
  | InsufficientCapacity
  | NotReady
  | InsufficientPool
  | IndexError
  | SampleLargerThanPopulation
  | OverflowError.

Inductive result (A : Type) : Type :=
  | Ok (a : A)
  | Raise (e : error).
Arguments Ok {A} a.
Arguments Raise {A} e.

Definition M (S A : Type) : Type := S → S * result A.

Global Instance M_ret {S} : MRet (M S) := λ A a s, (s, Ok a).

Global Instance M_bind {S} : MBind (M S) := λ A B k m s,
  match m s with
  | (s', Ok a) => k a s'
  | (s', Raise e) => (s', Raise e)
  end.

Definition raise {S A} (e : error) : M S A := λ s, (s, Raise e).
Definition gets {S A} (f : S → A) : M S A := λ s, (s, Ok (f s)).
Definition modify {S} (f : S → S) : M S unit := λ s, (f s, Ok tt).

(** ** Binding integers to SQLite statements *)

(** The range of a SQLite INTEGER. *)
Definition SQLITE_MIN : Z := -9223372036854775808.
Definition SQLITE_MAX : Z := 9223372036854775807.

Definition fits_sqlite (n : Z) : bool :=
  bool_decide (SQLITE_MIN ≤ n ≤ SQLITE_MAX).

(** [cur.execute(sql, (..., n, ...))] with a Python [int] [n]: the
    statement runs only if [n] fits. *)
Definition bind_int {S} (n : Z) : M S unit :=
  if fits_sqlite n then mret () else raise OverflowError.

(** ** Rounding *)

(** Python 3 [round(x)]: to the nearest integer, ties to the even one. *)
Definition py_round (x : Q) : Z :=
  let f := Qfloor x in
  match (x - inject_Z f ?= 1 # 2)%Q with
  | Lt => f
  | Gt => f + 1
  | Eq => if Z.even f then f else f + 1
  end.

(** Python 3 [round(x, 6)]; the result is kept in lowest terms. *)
Definition round6 (x : Q) : Q :=
  Qred (inject_Z (py_round (x * inject_Z 1000000)) / inject_Z 1000000).

(** ** Configuration constants *)

Definition TICKET_PRICE : Q := 1 # 2.
Definition PRIZES : list Q := [inject_Z 2500; inject_Z 1500; inject_Z 500].
Definition BOT_FEE : Q := inject_Z 500.

(** ** Tables *)

Record ticket_row : Type := TicketRow {
  t_telegram_id : string;
  active : bool
}.

Record payment_row : Type := PaymentRow {
  p_telegram_id : string;
  invoice_id : string;
  amount : Q;
  tx_hash : string;
  confirmed : bool
}.

Record draw_row : Type := DrawRow {
  d_winners : list Z;
  d_prizes : list Q
}.

Record DB : Type := MkDB {
  users : gset string;
  tickets : gmap Z ticket_row;
  payments : list payment_row;
  draws : list draw_row
}.

(** [DB._init] on a fresh file: four empty tables. *)
Definition empty_db : DB := MkDB ∅ ∅ [] [].

Definition set_users (f : gset string → gset string) (d : DB) : DB :=
  MkDB (f (users d)) (tickets d) (payments d) (draws d).
Definition set_tickets (f : gmap Z ticket_row → gmap Z ticket_row) (d : DB) : DB :=
  MkDB (users d) (f (tickets d)) (payments d) (draws d).
Definition set_payments (f : list payment_row → list payment_row) (d : DB) : DB :=
  MkDB (users d) (tickets d) (f (payments d)) (draws d).
Definition set_draws (f : list draw_row → list draw_row) (d : DB) : DB :=
  MkDB (users d) (tickets d) (payments d) (f (draws d)).

(** ** [DB] methods *)

(** [WHERE active = 1] *)
Definition is_active (kv : Z * ticket_row) : Prop := active kv.2 = true.
(** [WHERE telegram_id = ? AND active = 0] *)
Definition is_pending_of (owner : string) (kv : Z * ticket_row) : Prop :=
  t_telegram_id kv.2 = owner ∧ active kv.2 = false.

(** [ORDER BY ticket_number DESC] compares with this relation. *)
Definition Zdesc (a b : Z) : Prop := b ≤ a.
Global Instance Zdesc_dec : RelDecision Zdesc := λ a b, decide (b ≤ a).
Global Instance Zdesc_total : Total Zdesc.
Proof. intros a b. unfold Zdesc. lia. Qed.
Global Instance Zdesc_trans : Transitive Zdesc.
Proof. intros a b c. unfold Zdesc. lia. Qed.

(** SQLite [LIMIT n]: a negative [n] means no limit. *)
Definition sql_limit {A} (n : Z) (rows : list A) : list A :=
  if bool_decide (n < 0) then rows else take (Z.to_nat n) rows.

Definition ensure_user (telegram_id : string) : M DB unit :=
  modify (set_users (λ u, if bool_decide (telegram_id ∈ u) then u
                          else {[telegram_id]} ∪ u)).

(** [INSERT OR REPLACE ... VALUES (t, telegram_id, 0)] for each [t], in
    the order of the list; the loop ends at the first number that cannot
    be bound. *)
Fixpoint add_tickets (telegram_id : string) (ticket_numbers : list Z) : M DB unit :=
  match ticket_numbers with
  | [] => mret ()
  | t :: rest =>
      bind_int t;;
      modify (set_tickets <[t := TicketRow telegram_id false]>);;
      add_tickets telegram_id rest
  end.

(** [UPDATE tickets SET active = 1 WHERE ticket_number = t] for each [t]. *)
Definition activate_row (r : ticket_row) : ticket_row :=
  TicketRow (t_telegram_id r) true.
Fixpoint activate_tickets (ticket_numbers : list Z) : M DB unit :=
  match ticket_numbers with
  | [] => mret ()
  | t :: rest =>
      bind_int t;;
      modify (set_tickets (alter activate_row t));;
      activate_tickets rest
  end.

(** [SELECT ticket_number FROM tickets WHERE P], in no particular order. *)
Definition select_ticket_numbers (P : Z * ticket_row → Prop)
    `{!∀ kv, Decision (P kv)} (m : gmap Z ticket_row) : list Z :=
  (map_to_list (filter P m)).*1.

Definition count_sold_tickets (d : DB) : Z :=
  Z.of_nat (size (filter is_active (tickets d))).

Definition get_all_active_tickets (d : DB) : list Z :=
  merge_sort Z.le (select_ticket_numbers is_active (tickets d)).

(** The core asks for the owner of numbers it has read from the table,
    which are SQLite INTEGERs. *)
Definition get_ticket_owner (d : DB) (ticket_number : Z) : option string :=
  t_telegram_id <$> tickets d !! ticket_number.

(** The rows of [WHERE telegram_id = owner AND active = 0
    ORDER BY ticket_number DESC LIMIT limit]. *)
Definition pending_desc (d : DB) (owner : string) (limit : Z) : list Z :=
  sql_limit limit
    (merge_sort Zdesc (select_ticket_numbers (is_pending_of owner) (tickets d))).

(** The query of [activate_payment]:
    [SELECT ticket_number FROM tickets WHERE telegram_id = ? AND active = 0
     ORDER BY ticket_number DESC LIMIT ?], with the quantity bound to the
    [LIMIT]. *)
Definition select_pending_desc (owner : string) (limit : Z) : M DB (list Z) :=
  bind_int limit;;
  gets (λ d, pending_desc d owner limit).

(** [SELECT MAX(ticket_number) FROM tickets]; [None] is SQL NULL. *)
Definition max_ticket_number (d : DB) : option Z :=
  map_fold (λ k _ acc, Some (from_option (Z.max k) k acc)) None (tickets d).

Definition record_payment (telegram_id invoice : string) (amt : Q)
    (tx : option string) (conf : bool) : M DB unit :=
  modify (set_payments (λ ps,
    ps ++ [PaymentRow telegram_id invoice amt (default "" tx) conf])).

(** [WHERE invoice_id = ? AND confirmed = 0] *)
Definition is_open (invoice : string) (p : payment_row) : bool :=
  bool_decide (invoice_id p = invoice) && negb (confirmed p).

(** [... ORDER BY id DESC LIMIT 1]: the matching row of greatest id, with
    its position; [i] is the position of the head of [ps]. *)
Fixpoint last_open (invoice : string) (i : nat) (ps : list payment_row)
    : option (nat * payment_row) :=
  match ps with
  | [] => None
  | p :: ps' =>
      match last_open invoice (S i) ps' with
      | Some r => Some r
      | None => if is_open invoice p then Some (i, p) else None
      end
  end.

(** The dictionary returned by [confirm_payment_by_invoice]. *)
Record payment_info : Type := PaymentInfo {
  i_telegram_id : string;
  i_amount : Q;
  i_invoice_id : string;
  i_payment_id : Z
}.

Definition confirm_row (tx : string) (p : payment_row) : payment_row :=
  PaymentRow (p_telegram_id p) (invoice_id p) (amount p) tx true.

Definition confirm_payment_by_invoice (invoice tx : string)
    : M DB (option payment_info) :=
  row ← gets (λ d, last_open invoice 0 (payments d));
  match row with
  | None => mret None
  | Some (i, p) =>
      modify (set_payments (λ ps, <[i := confirm_row tx p]> ps));;
      mret (Some (PaymentInfo (p_telegram_id p) (amount p) invoice
                              (Z.of_nat i + 1)))
  end.

Definition save_draw (ws : list Z) (ps : list Q) : M DB unit :=
  modify (set_draws (λ ds, ds ++ [DrawRow ws ps])).

(** ** [random.sample]

    The library function returns the members at [k] distinct positions of
    the population, in the order drawn.  It is modelled by its pool
    algorithm: [rng i] is the raw value behind the [i]-th call of
    [randbelow]; each round takes [pool[j]] and moves the last live entry of
    the pool into slot [j].  (On large populations CPython draws positions
    by rejection instead; the lists it can return are the same, and all of
    them arise here, see [sample_loop_complete].) *)
Fixpoint sample_loop (rng : nat → nat) (i k : nat) (pool : list Z) : list Z :=
  match k with
  | O => []
  | S k' =>
      let j := (rng i `mod` length pool)%nat in
      match pool !! j, last pool with
      | Some x, Some y =>
          x :: sample_loop rng (S i) k' (removelast (<[j := y]> pool))
      | _, _ => []
      end
  end.

Definition random_sample {S} (rng : nat → nat) (population : list Z) (k : nat)
    : M S (list Z) :=
  if bool_decide (length population < k)%nat
  then raise SampleLargerThanPopulation
  else mret (sample_loop rng 0 k population).

(** ** [LotteryCore] *)

Record LotteryCore : Type := MkCore {
  db : DB;
  next_ticket : Z
}.

(** [LotteryCore.__init__]: [(MAX(ticket_number) or 0) + 1]. *)
Definition new_core (d : DB) : LotteryCore :=
  MkCore d (default 0 (max_ticket_number d) + 1).

(** Run a [DB] method on [self.db]. *)
Definition on_db {A} (m : M DB A) : M LotteryCore A := λ c,
  let '(d, r) := m (db c) in (MkCore d (next_ticket c), r).

(** [xs[i]] for [i >= 0] and [xs[-1]]. *)
Definition index {S A} (xs : list A) (i : nat) : M S A :=
  match xs !! i with Some x => mret x | None => raise IndexError end.
Definition index_last {S A} (xs : list A) : M S A :=
  match last xs with Some x => mret x | None => raise IndexError end.

Record reservation : Type := Reservation {
  reserved : list Z;
  total_price : Q;
  r_invoice_id : string
}.

Inductive activation : Type :=
  | NotActivated (reason : string)
  | Activated (activated : list Z) (telegram_id : string) (amt : Q).

Record draw_result : Type := DrawResult {
  winners : list Z;
  payouts : gmap (option string) Q;
  bot_fee : Q
}.

(** The body of [for i, t in enumerate(winners)] in [draw_winners], from
    position [i] on. *)
Fixpoint payout_loop (i : nat) (ws : list Z) (acc : gmap (option string) Q)
    : M LotteryCore (gmap (option string) Q) :=
  match ws with
  | [] => mret acc
  | t :: ws' =>
      owner ← gets (λ c, get_ticket_owner (db c) t);
      prize ← index PRIZES i;
      payout_loop (S i) ws' (<[owner := (default 0 (acc !! owner) + prize)%Q]> acc)
  end.

Section core.

(** [MAX_TICKETS = 10000] in the source; the capacity is kept abstract so
    that what is proved holds for every configured capacity, and is
    instantiated with the source's value in [Main] below. *)
Variable MAX_TICKETS : Z.

Definition available (c : LotteryCore) : Z :=
  Z.max 0 (MAX_TICKETS - count_sold_tickets (db c)).

Definition reserve_tickets (telegram_id : string) (qty : Z)
    : M LotteryCore reservation :=
  if bool_decide (qty < 1 ∨ qty > 100) then raise InvalidQuantity else
  avail ← gets available;
  if bool_decide (qty > avail) then raise InsufficientCapacity else
  next ← gets next_ticket;
  let ticket_numbers := (λ i, next + i) <$> seqZ 0 qty in
  on_db (ensure_user telegram_id);;
  on_db (add_tickets telegram_id ticket_numbers);;
  modify (λ c, MkCore (db c) (next_ticket c + qty));;
  let price := round6 (inject_Z qty * TICKET_PRICE) in
  first ← index ticket_numbers 0;
  final ← index_last ticket_numbers;
  let invoice := telegram_id +:+ "-" +:+ pretty first +:+ "-" +:+ pretty final in
  on_db (record_payment telegram_id invoice price None false);;
  mret (Reservation ticket_numbers price invoice).

Definition activate_payment (invoice tx : string) : M LotteryCore activation :=
  info ← on_db (confirm_payment_by_invoice invoice tx);
  match info with
  | None => mret (NotActivated "invoice_not_found_or_already_confirmed")
  | Some info =>
      let telegram_id := i_telegram_id info in
      let amt := i_amount info in
      let expected_qty := py_round (amt / TICKET_PRICE) in
      ticket_numbers ← on_db (select_pending_desc telegram_id expected_qty);
      (match ticket_numbers with
       | [] => mret ()
       | _ => on_db (activate_tickets ticket_numbers)
       end);;
      mret (Activated ticket_numbers telegram_id amt)
  end.

Definition draw_winners (rng : nat → nat) : M LotteryCore draw_result :=
  sold ← gets (λ c, count_sold_tickets (db c));
  if bool_decide (sold < MAX_TICKETS) then raise NotReady else
  all_tickets ← gets (λ c, get_all_active_tickets (db c));
  if bool_decide (length all_tickets < 3)%nat then raise InsufficientPool else
  ws ← random_sample rng all_tickets 3;
  pay ← payout_loop 0 ws ∅;
  on_db (save_draw ws PRIZES);;
  mret (DrawResult ws pay BOT_FEE).

(** *** The ledger as a transition system *)

Inductive op : Type :=
  | Reserve (telegram_id : string) (qty : Z)
  | Confirm (invoice tx : string)
  | Draw (rng : nat → nat).

Definition step (c : LotteryCore) (o : op) : LotteryCore :=
  match o with
  | Reserve u q => (reserve_tickets u q c).1
  | Confirm i t => (activate_payment i t c).1
  | Draw rng => (draw_winners rng c).1
  end.

Definition run (ops : list op) (c : LotteryCore) : LotteryCore := foldl step c ops.

Definition empty_ledger : LotteryCore := new_core empty_db.

Definition reachable (c : LotteryCore) : Prop := ∃ ops, c = run ops empty_ledger.

End core.

(** The source's configuration. *)
Module Main.
Definition MAX_TICKETS : Z := 10000.
End Main.

(** ** States and values the properties are stated against *)

(** The state a successful reservation leaves behind. *)
Definition reserved_state (c : LotteryCore) (u : string) (q : Z) : LotteryCore :=
  let invoice := u +:+ "-" +:+ pretty (next_ticket c) +:+ "-"
                   +:+ pretty (next_ticket c + q - 1) in
  MkCore
    (MkDB (if bool_decide (u ∈ users (db c)) then users (db c)
           else {[u]} ∪ users (db c))
          (foldl (λ m t, <[t := TicketRow u false]> m) (tickets (db c))
                 (seqZ (next_ticket c) q))
          (payments (db c)
             ++ [PaymentRow u invoice (round6 (inject_Z q * TICKET_PRICE)) "" false])
          (draws (db c)))
    (next_ticket c + q).

(** The numbers a loop that binds one number after the other gets
    through: those before the first that does not fit. *)
Fixpoint bound_prefix (ts : list Z) : list Z :=
  match ts with
  | [] => []
  | t :: rest => if fits_sqlite t then t :: bound_prefix rest else []
  end.

(** The state a reservation leaves behind when [add_tickets] raises
    [OverflowError]: the user is registered, the numbers that could be
    bound are written, the cursor has not moved and no payment is
    recorded. *)
Definition refused_state (c : LotteryCore) (u : string) (q : Z) : LotteryCore :=
  MkCore
    (MkDB (if bool_decide (u ∈ users (db c)) then users (db c)
           else {[u]} ∪ users (db c))
          (foldl (λ m t, <[t := TicketRow u false]> m) (tickets (db c))
                 (bound_prefix (seqZ (next_ticket c) q)))
          (payments (db c))
          (draws (db c)))
    (next_ticket c).

(** A [tickets] table as SQLite holds it: an INTEGER PRIMARY KEY is a
    64-bit integer. *)
Definition sqlite_db (d : DB) : Prop :=
  ∀ t, is_Some (tickets d !! t) → SQLITE_MIN ≤ t ≤ SQLITE_MAX.

(** What [activate_payment] leaves behind when it picks the payment row
    [p] at position [i]. *)
Definition confirmed_state (c : LotteryCore) (i : nat) (p : payment_row)
    (tx : string) : LotteryCore :=
  let ts := pending_desc (db c) (p_telegram_id p)
              (py_round (amount p / TICKET_PRICE)) in
  MkCore
    (MkDB (users (db c))
          (foldl (λ m t, alter activate_row t m) (tickets (db c)) ts)
          (<[i := confirm_row tx p]> (payments (db c)))
          (draws (db c)))
    (next_ticket c).

(** What [activate_payment] leaves behind when it picks the payment row
    [p] at position [i] and the quantity cannot be bound to the [LIMIT]:
    the payment is confirmed and no ticket is touched. *)
Definition paid_state (c : LotteryCore) (i : nat) (p : payment_row)
    (tx : string) : LotteryCore :=
  MkCore (set_payments (λ ps, <[i := confirm_row tx p]> ps) (db c)) (next_ticket c).

(** The number of unconfirmed payment rows filed under an invoice id. *)
Definition open_count (invoice : string) (ps : list payment_row) : nat :=
  length (filter (λ p, is_open invoice p) ps).

(** A string without the character [-]; decimal numerals of non-negative
    integers are such strings. *)
Fixpoint dash_free (s : string) : Prop :=
  match s with
  | EmptyString => True
  | String ch s' => ch ≠ "-"%char ∧ dash_free s'
  end.

(** A payment row whose invoice id was built by [reserve_tickets] for a
    reservation ending below ticket number [n]. *)
Definition filed_below (n : Z) (p : payment_row) : Prop :=
  ∃ (u : string) (a b : Z),
    invoice_id p = u +:+ "-" +:+ pretty a +:+ "-" +:+ pretty b ∧ 0 ≤ b < n.

(** What every ledger reached through the three operations satisfies: the
    cursor is positive, every invoice id ends in a ticket number below the
    cursor, and no two payment rows share an invoice id. *)
Record ledger_inv (c : LotteryCore) : Prop := LedgerInv {
  inv_cursor : 1 ≤ next_ticket c;
  inv_filed : Forall (filed_below (next_ticket c)) (payments (db c));
  inv_unique : NoDup (invoice_id <$> payments (db c))
}.

(** The specification's count of active tickets: the rows of the table
    taken one by one, each row with [active = true] counting one. *)
Definition active_rows (d : DB) : Z :=
  map_fold (λ _ r n, if active r then n + 1 else n) 0 (tickets d).

(** The ledger with every pending (inactive) ticket row deleted. *)
Definition drop_pending (c : LotteryCore) : LotteryCore :=
  MkCore (set_tickets (filter is_active) (db c)) (next_ticket c).

(** ** Sample ledgers *)

(** The ledger after [reserve_tickets("u1", 3)] on a fresh database. *)
Definition one_reservation : LotteryCore :=
  (reserve_tickets Main.MAX_TICKETS "u1" 3 empty_ledger).1.

(** A database in which two pending payment rows carry the same invoice id
    (the schema puts no UNIQUE constraint on [payments.invoice_id]); the
    owner's two tickets are still inactive. *)
Definition twin_invoice_ledger : LotteryCore :=
  MkCore
    (MkDB {["7"]}
          (<[1 := TicketRow "7" false]> (<[2 := TicketRow "7" false]> ∅))
          [PaymentRow "7" "7-1-2" 1 "" false; PaymentRow "7" "7-1-2" 1 "" false]
          [])
    3.

(** A ledger of capacity 5 in use: tickets 1 to 3 of ["u1"] are paid for,
    tickets 4 and 5 of ["u2"] are reserved and not paid. *)
Definition part_paid_ledger : LotteryCore :=
  run 5 [Reserve "u1" 3; Reserve "u2" 2; Confirm "u1-1-3" "0xabc"] empty_ledger.

(** A ledger of capacity 2 on which two users reserved two tickets each
    before either paid, and then both paid. *)
Definition oversold_small : LotteryCore :=
  run 2 [Reserve "a" 2; Reserve "b" 2; Confirm "a-1-2" "0x1"; Confirm "b-3-4" "0x2"]
      empty_ledger.

(** A database with one pending payment whose owner has no ticket rows. *)
Definition orphan_payment_ledger : LotteryCore :=
  MkCore (MkDB {["9"]} ∅ [PaymentRow "9" "9-1-1" (1 # 2) "" false] []) 1.

(** As [orphan_payment_ledger], with an amount of [2^62], which asks for
    [2^63] tickets. *)
Definition huge_payment_ledger : LotteryCore :=
  MkCore
    (MkDB {["9"]} ∅
          [PaymentRow "9" "9-1-1" (inject_Z 4611686018427387904) "" false] [])
    1.

(** As [orphan_payment_ledger], with the pending payment row duplicated. *)
Definition twin_orphan_ledger : LotteryCore :=
  MkCore
    (MkDB {["9"]} ∅
          [PaymentRow "9" "9-1-1" (1 # 2) "" false;
           PaymentRow "9" "9-1-1" (1 # 2) "" false]
          [])
    1.

(** What a successful [draw_winners] leaves behind: one more [draws] row. *)
Definition drawn_state (c : LotteryCore) (ws : list Z) : LotteryCore :=
  MkCore (set_draws (λ ds, ds ++ [DrawRow ws PRIZES]) (db c)) (next_ticket c).

(** The specification's payout of an owner: the sum of [PRIZES[i]] over the
    winning slots [i] whose ticket the owner holds; [i] is the slot of the
    head of [ws]. *)
Fixpoint owner_prizes (d : DB) (o : option string) (i : nat) (ws : list Z) : Q :=
  match ws with
  | [] => 0
  | t :: ws' =>
      ((if bool_decide (get_ticket_owner d t = o) then default 0 (PRIZES !! i) else 0)
       + owner_prizes d o (S i) ws')%Q
  end.

(** A database whose tickets [1..n] are all paid for, odd numbers held by
    user 1001 and even numbers by user 1002; no payment is pending. *)
Definition paid_ledger (n : Z) : LotteryCore :=
  MkCore
    (MkDB {["1001"; "1002"]}
          (list_to_map
             ((λ t, (t, TicketRow (if Z.odd t then "1001" else "1002") true))
                <$> seqZ 1 n))
          [] [])
    (n + 1).

(** The payouts when user 1001 wins slots 0 and 2 and user 1002 slot 1. *)
Definition payouts_1001_twice : gmap (option string) Q :=
  <[Some "1002" := inject_Z 1500]> (<[Some "1001" := inject_Z 3000]> ∅).

(** One hundred and one users reserve one hundred tickets each while
    nothing is paid yet; then every one of the invoices is confirmed. *)
Definition oversell_ops : list op :=
  ((λ i, Reserve (pretty i) 100) <$> seqZ 1 101)
  ++ ((λ i, Confirm (pretty i +:+ "-" +:+ pretty (100 * i - 99) +:+ "-"
                       +:+ pretty (100 * i)) "0xabc") <$> seqZ 1 101).

(** * Further code of [src/main.py] *)

(** ** [DB.get_user_tickets] *)

(** [WHERE telegram_id = ?] *)
Definition is_ticket_of (owner : string) (kv : Z * ticket_row) : Prop :=
  t_telegram_id kv.2 = owner.

Definition is_ticket_of_dec (owner : string) (kv : Z * ticket_row) :
  Decision (is_ticket_of owner kv) := decide (t_telegram_id kv.2 = owner).

Definition get_user_tickets (d : DB) (telegram_id : string) : list Z :=
  merge_sort Z.le
    (@select_ticket_numbers (is_ticket_of telegram_id)
       (is_ticket_of_dec telegram_id) (tickets d)).

(** ** Bookkeeping of a ledger *)

(** [int(round(amount / TICKET_PRICE))], the number of tickets
    [activate_payment] asks for on behalf of a payment row. *)
Definition expected_qty (p : payment_row) : Z := py_round (amount p / TICKET_PRICE).

(** The tickets still owed to an owner: the quantities of the owner's
    unconfirmed payment rows, added up. *)
Fixpoint owed (owner : string) (ps : list payment_row) : Z :=
  match ps with
  | [] => 0
  | p :: ps' =>
      (if bool_decide (p_telegram_id p = owner) && negb (confirmed p)
       then expected_qty p else 0) + owed owner ps'
  end.

(** The tickets paid for: the quantities of the confirmed rows, added up. *)
Fixpoint paid (ps : list payment_row) : Z :=
  match ps with
  | [] => 0
  | p :: ps' => (if confirmed p then expected_qty p else 0) + paid ps'
  end.

(** [1] when the row satisfies the condition of a [WHERE] clause. *)
Definition hits (P : Z * ticket_row → Prop) `{!∀ kv, Decision (P kv)}
    (kv : Z * ticket_row) : nat :=
  if decide (P kv) then 1%nat else 0%nat.

(** What the three operations keep true of a ledger that starts empty,
    as long as its cursor is in range. *)
Record books (c : LotteryCore) : Prop := Books {
  bk_cursor : 1 ≤ next_ticket c;
  bk_dense : ∀ t, is_Some (tickets (db c) !! t) ↔ 1 ≤ t < next_ticket c;
  bk_ticket_users :
    ∀ t r, tickets (db c) !! t = Some r → t_telegram_id r ∈ users (db c);
  bk_payment_users :
    Forall (λ p, p_telegram_id p ∈ users (db c)) (payments (db c));
  bk_amounts :
    Forall (λ p, ∃ q, 1 ≤ q ≤ 100 ∧ Qeq (amount p) (TICKET_PRICE * inject_Z q))
           (payments (db c));
  bk_pending :
    ∀ u, Z.of_nat (size (filter (is_pending_of u) (tickets (db c))))
         = owed u (payments (db c));
  bk_sold : count_sold_tickets (db c) = paid (payments (db c))
}.

(** The greatest cursor from which every reservation of up to 100
    tickets still fits SQLite's INTEGER: [2^63 - 100]. *)
Definition CURSOR_MAX : Z := SQLITE_MAX - 99.

(** A ledger whose cursor has not come that far: no reservation was ever
    refused by [add_tickets], since the cursor never moves back. *)
Definition cursor_in_range (c : LotteryCore) : Prop := next_ticket c ≤ CURSOR_MAX.

(** [WHERE ticket_number < n AND telegram_id = ? AND active = 0] *)
Definition pending_below (n : Z) (owner : string) (kv : Z * ticket_row) : Prop :=
  kv.1 < n ∧ is_pending_of owner kv.

(** What the three operations keep true of a ledger that starts empty,
    wherever the cursor is. *)
Record sound (c : LotteryCore) : Prop := Sound {
  sd_cursor : 1 ≤ next_ticket c;
  sd_keys : ∀ t, is_Some (tickets (db c) !! t) → 1 ≤ t ≤ SQLITE_MAX;
  sd_ticket_users :
    ∀ t r, tickets (db c) !! t = Some r → t_telegram_id r ∈ users (db c);
  sd_payment_users :
    Forall (λ p, p_telegram_id p ∈ users (db c)) (payments (db c));
  sd_amounts :
    Forall (λ p, ∃ q, 1 ≤ q ≤ 100 ∧ Qeq (amount p) (TICKET_PRICE * inject_Z q))
           (payments (db c));
  sd_owed :
    ∀ u, owed u (payments (db c))
         ≤ Z.of_nat (size (filter (pending_below (next_ticket c) u)
                             (tickets (db c))))
}.

(** The money received: the amounts of the confirmed payment rows, added
    up. *)
Fixpoint confirmed_total (ps : list payment_row) : Q :=
  match ps with
  | [] => 0
  | p :: ps' => ((if confirmed p then amount p else 0) + confirmed_total ps')%Q
  end.

(** The operations of a history that are draws. *)
Definition is_draw (o : op) : bool :=
  match o with Draw _ => true | _ => false end.

(** The sum of the values of a payouts dictionary. *)
Definition payout_total (m : gmap (option string) Q) : Q :=
  map_fold (λ _ v s, (v + s)%Q) 0%Q m.

(** [PRIZES[i] + ... + PRIZES[i + n - 1]]. *)
Fixpoint prize_sum (i n : nat) : Q :=
  match n with
  | O => 0
  | S n' => (default 0 (PRIZES !! i) + prize_sum (S i) n')%Q
  end.

(** ** The payment provider's webhook ([crypto_webhook])

    The request is the [X-WEBHOOK-SECRET] header, if sent, and the JSON
    body as [request.get_json(silent=True)] returns it; [None] stands for a
    body that is missing or no JSON.  The JSON object is typed as the
    handler's docstring gives it: [invoice_id], [tx_hash] and [status] are
    strings and [amount] is a number, each present or not; [j_other] tells
    whether the object holds any further key.  The response is the pair of
    [jsonify(...)] and status code the view returns, [abort(403)] included.
    The notification thread the view starts on success sends a chat message
    and touches neither the database nor the response; it is left out. *)

Record webhook_json : Type := WebhookJson {
  j_invoice_id : option string;
  j_tx_hash : option string;
  j_status : option string;
  j_amount : option Q;
  j_other : bool
}.

Record webhook_request : Type := WebhookRequest {
  header_secret : option string;
  body : option webhook_json
}.

Inductive webhook_response : Type :=
  | Forbidden
  | BadRequest (reason : string)
  | Accepted (activated : list Z).

(** [str.lower()] on the ASCII letters.  No other character lower-cases
    to a letter of ["confirmed"], which is all the result is compared
    with. *)
Definition lower_ascii (a : ascii) : ascii :=
  let n := nat_of_ascii a in
  if (65 <=? n)%nat && (n <=? 90)%nat then ascii_of_nat (n + 32) else a.

Fixpoint lower (s : string) : string :=
  match s with
  | EmptyString => EmptyString
  | String a s' => String (lower_ascii a) (lower s')
  end.

(** Python's [not data] for the JSON object: true of [{}] only. *)
Definition empty_json (data : webhook_json) : bool :=
  match j_invoice_id data, j_tx_hash data, j_status data, j_amount data with
  | None, None, None, None => negb (j_other data)
  | _, _, _, _ => false
  end.

(** Python's [not x] for an optional string and an optional number. *)
Definition falsy_str (x : option string) : bool :=
  match x with
  | None => true
  | Some s => bool_decide (s = "")
  end.
Definition falsy_num (x : option Q) : bool :=
  match x with
  | None => true
  | Some q => Qeq_bool q 0
  end.

Section webhook.

(** The shared secret, read from the environment at start-up. *)
Variable CRYPTO_WEBHOOK_SECRET : string.

Definition crypto_webhook (req : webhook_request) : M LotteryCore webhook_response :=
  let secret := default "" (header_secret req) in
  if bool_decide (secret ≠ CRYPTO_WEBHOOK_SECRET) then mret Forbidden else
  match body req with
  | None => mret (BadRequest "no_json")
  | Some data =>
      if empty_json data then mret (BadRequest "no_json") else
      let invoice := j_invoice_id data in
      let tx := j_tx_hash data in
      let status := lower (default "" (j_status data)) in
      let amt := j_amount data in
      if falsy_str invoice || falsy_str tx || falsy_num amt
      then mret (BadRequest "missing_fields") else
      if bool_decide (status ≠ "confirmed") then mret (BadRequest "not_confirmed") else
      res ← activate_payment (default "" invoice) (default "" tx);
      match res with
      | NotActivated reason => mret (BadRequest reason)
      | Activated ts _ _ => mret (Accepted ts)
      end
  end.

End webhook.

(** A request that passes every check of the webhook. *)
Definition well_formed (secret : string) (req : webhook_request)
    (invoice tx : string) : Prop :=
  default "" (header_secret req) = secret
  ∧ ∃ data amt,
      body req = Some data
      ∧ j_invoice_id data = Some invoice ∧ invoice ≠ ""
      ∧ j_tx_hash data = Some tx ∧ tx ≠ ""
      ∧ j_amount data = Some amt ∧ ¬ Qeq amt 0
      ∧ lower (default "" (j_status data)) = "confirmed".

(** What the webhook answers with the outcome of [activate_payment]. *)
Definition relay (out : LotteryCore * result activation)
    : LotteryCore * result webhook_response :=
  (out.1,
   match out.2 with
   | Ok (Activated ts _ _) => Ok (Accepted ts)
   | Ok (NotActivated reason) => Ok (BadRequest reason)
   | Raise e => Raise e
   end).

(** ** Sample histories *)

(** Two buyers: ["u1"] reserves three tickets, ["u2"] reserves two, and the
    payment of ["u1"] is confirmed. *)
Definition two_buyers_ops : list op :=
  [Reserve "u1" 3; Reserve "u2" 2; Confirm "u1-1-3" "0xabc"].

Definition two_buyers_ledger : LotteryCore :=
  run Main.MAX_TICKETS two_buyers_ops empty_ledger.

(** The provider's notification for the invoice of ["u2"]. *)
Definition paid_notification : webhook_request :=
  WebhookRequest (Some "s3cr3t")
    (Some (WebhookJson (Some "u2-4-5") (Some "0xdef") (Some "Confirmed")
             (Some 1%Q) false)).

(** A ledger started on a database whose only ticket is number
    [2^63 - 3]: the cursor is [2^63 - 2], the last number but one of a
    SQLite INTEGER. *)
Definition last_numbers_ledger : LotteryCore :=
  new_core (MkDB ∅ {[SQLITE_MAX - 2 := TicketRow "u0" true]} [] []).

(** A ledger none of whose tickets is paid. *)
Definition all_pending (c : LotteryCore) : Prop :=
  ∀ t r, tickets (db c) !! t = Some r → active r = false.

(** * Properties *)

(** ** Rounding on multiples of the ticket price *)

Lemma py_round_comp (x y : Q) : (x == y)%Q → py_round x = py_round y.
Proof.
  intros Hxy. unfold py_round.
  rewrite (Qfloor_comp x y Hxy).
  assert (Hc : ((x - inject_Z (Qfloor y) ?= 1 # 2)
                = (y - inject_Z (Qfloor y) ?= 1 # 2))%Q).
  { apply Qcompare_comp; [by rewrite Hxy | reflexivity]. }
  by rewrite Hc.
Qed.

Lemma py_round_inject_Z (k : Z) : py_round (inject_Z k) = k.
Proof.
  unfold py_round. rewrite Qfloor_Z.
  assert (Hc : ((inject_Z k - inject_Z k ?= 1 # 2) = Lt)%Q).
  { apply Qlt_alt. assert (H0 : (inject_Z k - inject_Z k == 0)%Q) by ring.
    rewrite H0. reflexivity. }
  by rewrite Hc.
Qed.

(** [int(round(amount / TICKET_PRICE))] recovers [k] from [TICKET_PRICE * k]. *)
Lemma expected_qty_exact (a : Q) (k : Z) :
  (a == TICKET_PRICE * inject_Z k)%Q → py_round (a / TICKET_PRICE) = k.
Proof.
  intros Ha. etrans; [|apply (py_round_inject_Z k)]. apply py_round_comp.
  rewrite Ha. unfold TICKET_PRICE. field.
Qed.

(** [round(qty * TICKET_PRICE, 6)] changes nothing: the product has at most
    one decimal. *)
Lemma round6_price (q : Z) :
  (round6 (inject_Z q * TICKET_PRICE) == inject_Z q * TICKET_PRICE)%Q.
Proof.
  unfold round6. rewrite Qred_correct.
  rewrite (py_round_comp _ (inject_Z (q * 500000))).
  - rewrite py_round_inject_Z. unfold TICKET_PRICE, Qeq. simpl. lia.
  - unfold TICKET_PRICE, Qeq. simpl. lia.
Qed.

(** ** Rows written by [add_tickets] and [activate_tickets] *)

Lemma fits_sqlite_spec (n : Z) :
  fits_sqlite n = true ↔ SQLITE_MIN ≤ n ≤ SQLITE_MAX.
Proof. unfold fits_sqlite. by rewrite bool_decide_eq_true. Qed.

Lemma forallb_fits (ts : list Z) :
  forallb fits_sqlite ts = true ↔ ∀ t, t ∈ ts → SQLITE_MIN ≤ t ≤ SQLITE_MAX.
Proof.
  rewrite forallb_forall. split.
  - intros H t Ht. apply fits_sqlite_spec, H. by apply list_elem_of_In.
  - intros H t Ht. apply fits_sqlite_spec, H. by apply list_elem_of_In.
Qed.

Lemma bound_prefix_all (ts : list Z) :
  forallb fits_sqlite ts = true → bound_prefix ts = ts.
Proof.
  induction ts as [|t ts IH]; [done|]. cbn [forallb bound_prefix].
  intros [Ht Hts]%andb_prop. rewrite Ht. f_equal. by apply IH.
Qed.

Lemma bound_prefix_elem (ts : list Z) (t : Z) :
  t ∈ bound_prefix ts → t ∈ ts ∧ SQLITE_MIN ≤ t ≤ SQLITE_MAX.
Proof.
  induction ts as [|t0 ts IH]; cbn [bound_prefix]; [by intros ?%elem_of_nil|].
  destruct (fits_sqlite t0) eqn:Hfit; [|by intros ?%elem_of_nil].
  intros [->|Hin]%elem_of_cons.
  - split; [left | by apply fits_sqlite_spec].
  - destruct (IH Hin). split; [by right | done].
Qed.

(** Both loops write the numbers they could bind, and raise at the first
    one they could not. *)
Lemma add_tickets_run (u : string) (ts : list Z) (d : DB) :
  add_tickets u ts d
  = (set_tickets
       (λ m, foldl (λ m t, <[t := TicketRow u false]> m) m (bound_prefix ts)) d,
     if forallb fits_sqlite ts then Ok () else Raise OverflowError).
Proof.
  revert d. induction ts as [|t ts IH]; intros d.
  { by destruct d. }
  cbn [add_tickets bound_prefix forallb]. unfold mbind, M_bind, bind_int.
  destruct (fits_sqlite t); cbn [andb foldl].
  - unfold mret, M_ret, modify. rewrite IH. by destruct d.
  - by destruct d.
Qed.

Lemma activate_tickets_run (ts : list Z) (d : DB) :
  activate_tickets ts d
  = (set_tickets
       (λ m, foldl (λ m t, alter activate_row t m) m (bound_prefix ts)) d,
     if forallb fits_sqlite ts then Ok () else Raise OverflowError).
Proof.
  revert d. induction ts as [|t ts IH]; intros d.
  { by destruct d. }
  cbn [activate_tickets bound_prefix forallb]. unfold mbind, M_bind, bind_int.
  destruct (fits_sqlite t); cbn [andb foldl].
  - unfold mret, M_ret, modify. rewrite IH. by destruct d.
  - by destruct d.
Qed.

Lemma add_tickets_lookup (u : string) (ts : list Z) (m : gmap Z ticket_row) (k : Z) :
  foldl (λ m t, <[t := TicketRow u false]> m) m ts !! k
  = if bool_decide (k ∈ ts) then Some (TicketRow u false) else m !! k.
Proof.
  revert m. induction ts as [|t ts IH]; intros m.
  - case_bool_decide; [set_solver | done].
  - cbn [foldl]. rewrite IH. destruct (decide (k = t)) as [->|Hne].
    + rewrite lookup_insert_eq, (bool_decide_eq_true_2 (t ∈ t :: ts)) by set_solver.
      by destruct (bool_decide (t ∈ ts)).
    + rewrite lookup_insert_ne by done.
      by rewrite (bool_decide_ext (k ∈ t :: ts) (k ∈ ts)) by (rewrite elem_of_cons; tauto).
Qed.

Lemma activate_tickets_lookup (ts : list Z) (m : gmap Z ticket_row) (k : Z) :
  foldl (λ m t, alter activate_row t m) m ts !! k
  = if bool_decide (k ∈ ts) then activate_row <$> m !! k else m !! k.
Proof.
  revert m. induction ts as [|t ts IH]; intros m.
  - case_bool_decide; [set_solver | done].
  - cbn [foldl]. rewrite IH. destruct (decide (k = t)) as [->|Hne].
    + rewrite lookup_alter_eq, (bool_decide_eq_true_2 (t ∈ t :: ts)) by set_solver.
      destruct (bool_decide (t ∈ ts)); [|done].
      by destruct (m !! t).
    + rewrite lookup_alter_ne by done.
      by rewrite (bool_decide_ext (k ∈ t :: ts) (k ∈ ts)) by (rewrite elem_of_cons; tauto).
Qed.

(** ** The ticket numbers of a reservation *)

Lemma reserved_range (next qty : Z) :
  (λ i, next + i) <$> seqZ 0 qty = seqZ next qty.
Proof. etrans; [apply (fmap_add_seqZ next 0 qty)|]. by rewrite Z.add_0_r. Qed.

Lemma seqZ_head (m n : Z) : 0 < n → seqZ m n !! 0%nat = Some m.
Proof. intros Hn. rewrite lookup_seqZ_lt by lia. f_equal. lia. Qed.

Lemma seqZ_last (m n : Z) : 0 < n → last (seqZ m n) = Some (m + n - 1).
Proof.
  intros Hn. replace n with (Z.of_nat (S (Z.to_nat (n - 1)))) by lia.
  rewrite seqZ_S, last_snoc. f_equal. lia.
Qed.

(** ** [reserve_tickets] *)

Section reserve.
Variable MAX_TICKETS : Z.
Implicit Types (c : LotteryCore) (u : string) (q : Z).

Lemma reserve_invalid c u q :
  q < 1 ∨ 100 < q →
  reserve_tickets MAX_TICKETS u q c = (c, Raise InvalidQuantity).
Proof.
  intros Hq. unfold reserve_tickets.
  rewrite bool_decide_eq_true_2 by lia. done.
Qed.

Lemma reserve_insufficient c u q :
  1 ≤ q ≤ 100 → available MAX_TICKETS c < q →
  reserve_tickets MAX_TICKETS u q c = (c, Raise InsufficientCapacity).
Proof.
  intros Hq Hav. unfold reserve_tickets.
  rewrite bool_decide_eq_false_2 by lia.
  unfold mbind, M_bind, gets.
  rewrite bool_decide_eq_true_2 by lia. done.
Qed.

Lemma seqZ_fits (next q : Z) :
  SQLITE_MIN ≤ next → next + q - 1 ≤ SQLITE_MAX →
  forallb fits_sqlite (seqZ next q) = true.
Proof. intros Hlo Hhi. apply forallb_fits. intros t Ht%elem_of_seqZ. lia. Qed.

Lemma seqZ_overflows (next q : Z) :
  1 ≤ q → next < SQLITE_MIN ∨ SQLITE_MAX < next + q - 1 →
  forallb fits_sqlite (seqZ next q) = false.
Proof.
  intros Hq Hout. destruct (forallb fits_sqlite (seqZ next q)) eqn:Hall; [|done].
  rewrite forallb_fits in Hall.
  pose proof (Hall next) as Hfirst. pose proof (Hall (next + q - 1)) as Hlast.
  rewrite !elem_of_seqZ in Hfirst, Hlast. lia.
Qed.

(** A valid reservation within the availability whose numbers fit a
    SQLite INTEGER goes through. *)
Lemma reserve_accepted c u q :
  1 ≤ q ≤ 100 → q ≤ available MAX_TICKETS c →
  SQLITE_MIN ≤ next_ticket c → next_ticket c + q - 1 ≤ SQLITE_MAX →
  reserve_tickets MAX_TICKETS u q c
  = (reserved_state c u q,
     Ok (Reservation (seqZ (next_ticket c) q)
           (round6 (inject_Z q * TICKET_PRICE))
           (u +:+ "-" +:+ pretty (next_ticket c) +:+ "-"
              +:+ pretty (next_ticket c + q - 1)))).
Proof.
  intros Hq Hav Hlo Hhi. unfold reserve_tickets.
  rewrite bool_decide_eq_false_2 by lia.
  unfold mbind, M_bind, gets.
  rewrite bool_decide_eq_false_2 by lia.
  rewrite reserved_range.
  unfold on_db at 1 2, ensure_user, modify. cbn [db next_ticket].
  rewrite add_tickets_run, seqZ_fits, bound_prefix_all by (done || by apply seqZ_fits).
  unfold on_db, record_payment, modify, index, index_last, mret, M_ret. cbn.
  rewrite seqZ_head, seqZ_last by lia. done.
Qed.

(** One whose numbers do not all fit is refused by [add_tickets], after
    the user is registered and the numbers that fit are written. *)
Lemma reserve_refused c u q :
  1 ≤ q ≤ 100 → q ≤ available MAX_TICKETS c →
  next_ticket c < SQLITE_MIN ∨ SQLITE_MAX < next_ticket c + q - 1 →
  reserve_tickets MAX_TICKETS u q c = (refused_state c u q, Raise OverflowError).
Proof.
  intros Hq Hav Hout. unfold reserve_tickets.
  rewrite bool_decide_eq_false_2 by lia.
  unfold mbind, M_bind, gets.
  rewrite bool_decide_eq_false_2 by lia.
  rewrite reserved_range.
  unfold on_db at 1 2, ensure_user, modify. cbn [db next_ticket].
  rewrite add_tickets_run, seqZ_overflows by (done || lia). done.
Qed.

(** The three ways a reservation can go. *)
Lemma reserve_cases c u q :
  (q < 1 ∨ 100 < q) ∧ reserve_tickets MAX_TICKETS u q c = (c, Raise InvalidQuantity)
  ∨ (1 ≤ q ≤ 100 ∧ available MAX_TICKETS c < q)
    ∧ reserve_tickets MAX_TICKETS u q c = (c, Raise InsufficientCapacity)
  ∨ (1 ≤ q ≤ 100 ∧ q ≤ available MAX_TICKETS c
     ∧ (next_ticket c < SQLITE_MIN ∨ SQLITE_MAX < next_ticket c + q - 1))
    ∧ reserve_tickets MAX_TICKETS u q c = (refused_state c u q, Raise OverflowError)
  ∨ (1 ≤ q ≤ 100 ∧ q ≤ available MAX_TICKETS c
     ∧ SQLITE_MIN ≤ next_ticket c ∧ next_ticket c + q - 1 ≤ SQLITE_MAX)
    ∧ reserve_tickets MAX_TICKETS u q c
      = (reserved_state c u q,
         Ok (Reservation (seqZ (next_ticket c) q)
               (round6 (inject_Z q * TICKET_PRICE))
               (u +:+ "-" +:+ pretty (next_ticket c) +:+ "-"
                  +:+ pretty (next_ticket c + q - 1)))).
Proof.
  destruct (decide (q < 1 ∨ 100 < q)) as [Hbad|Hgood].
  { left. split; [done | by apply reserve_invalid]. }
  destruct (decide (available MAX_TICKETS c < q)) as [Hfull|Hfree].
  { right. left. split; [lia | apply reserve_insufficient; lia]. }
  destruct (decide (next_ticket c < SQLITE_MIN ∨ SQLITE_MAX < next_ticket c + q - 1))
    as [Hout|Hin].
  { right. right. left. split; [lia | apply reserve_refused; lia]. }
  right. right. right. split; [lia | apply reserve_accepted; lia].
Qed.

(** C2: for a quantity [q] in [1, 100] within the availability, a
    successful reservation returns the [q] consecutive numbers from the
    cursor on, moves the cursor by [q], prices them at
    [round(q * TICKET_PRICE, 6)], which is [q * TICKET_PRICE], names the
    invoice [owner-first-last], appends exactly one pending payment row for
    that price and writes the reserved numbers as inactive rows of the
    owner.  The reservation is successful whenever the numbers to reserve
    fit a SQLite INTEGER. *)
Theorem reserve_tickets_allocates c u q :
  1 ≤ q ≤ 100 → q ≤ available MAX_TICKETS c →
  (SQLITE_MIN ≤ next_ticket c → next_ticket c + q - 1 ≤ SQLITE_MAX →
     ∃ c' r, reserve_tickets MAX_TICKETS u q c = (c', Ok r))
  ∧ ∀ c' r,
      reserve_tickets MAX_TICKETS u q c = (c', Ok r) →
      reserved r = seqZ (next_ticket c) q
      ∧ length (reserved r) = Z.to_nat q
      ∧ (∀ i : nat, Z.of_nat i < q →
           reserved r !! i = Some (next_ticket c + Z.of_nat i))
      ∧ next_ticket c' = next_ticket c + q
      ∧ total_price r = round6 (inject_Z q * TICKET_PRICE)
      ∧ (total_price r == inject_Z q * TICKET_PRICE)%Q
      ∧ r_invoice_id r
        = u +:+ "-" +:+ pretty (next_ticket c) +:+ "-"
            +:+ pretty (next_ticket c + q - 1)
      ∧ payments (db c')
        = payments (db c)
            ++ [PaymentRow u (r_invoice_id r) (total_price r) "" false]
      ∧ (∀ t, tickets (db c') !! t
              = if bool_decide (next_ticket c ≤ t < next_ticket c + q)
                then Some (TicketRow u false) else tickets (db c) !! t)
      ∧ draws (db c') = draws (db c).
Proof.
  intros Hq Hav. split.
  { intros Hlo Hhi. eexists _, _. by apply reserve_accepted. }
  intros c' r Hrun.
  destruct (reserve_cases c u q)
    as [[_ Hr]|[[_ Hr]|[[_ Hr]|[_ Hr]]]]; rewrite Hr in Hrun; try discriminate.
  injection Hrun as <- <-.
  cbn [reserved total_price r_invoice_id reserved_state db next_ticket
       payments tickets draws].
  repeat split.
  - apply length_seqZ.
  - intros i Hi. by apply lookup_seqZ_lt.
  - apply round6_price.
  - intros t. rewrite add_tickets_lookup.
    by rewrite (bool_decide_ext _ _ (elem_of_seqZ (next_ticket c) q t)).
Qed.

(** C7: a quantity outside [1, 100] is rejected with [InvalidQuantity], a
    valid quantity above the availability with [InsufficientCapacity], and
    on either rejection the ledger (tables and cursor) is the one the call
    started from.  The one other way [reserve_tickets] can fail is the
    [OverflowError] of [add_tickets], which is no rejection of the
    request and leaves [refused_state]. *)
Theorem reserve_tickets_rejects c u q :
  (q < 1 ∨ 100 < q →
     reserve_tickets MAX_TICKETS u q c = (c, Raise InvalidQuantity))
  ∧ (1 ≤ q ≤ 100 → available MAX_TICKETS c < q →
     reserve_tickets MAX_TICKETS u q c = (c, Raise InsufficientCapacity))
  ∧ (∀ c' e, reserve_tickets MAX_TICKETS u q c = (c', Raise e) →
       (e = InvalidQuantity ∨ e = InsufficientCapacity) ∧ c' = c
       ∨ e = OverflowError ∧ c' = refused_state c u q).
Proof.
  split; [apply reserve_invalid|]. split; [apply reserve_insufficient|].
  intros c' e Hrun.
  destruct (reserve_cases c u q)
    as [[_ Hr]|[[_ Hr]|[[_ Hr]|[_ Hr]]]]; rewrite Hr in Hrun;
    try discriminate; injection Hrun as <- <-; auto.
Qed.

(** The source's count of active rows is the row-by-row count. *)
Lemma count_sold_active_rows (d : DB) : count_sold_tickets d = active_rows d.
Proof.
  unfold count_sold_tickets, active_rows.
  apply (map_fold_weak_ind
           (λ (n : Z) (m : gmap Z ticket_row),
              Z.of_nat (size (filter is_active m)) = n)).
  { by rewrite map_filter_empty, map_size_empty. }
  intros t r m n Hfresh IH. rewrite map_filter_insert.
  destruct (decide (is_active (t, r))) as [Hact|Hact]; unfold is_active in Hact;
    cbn [snd] in Hact.
  - rewrite Hact, map_size_insert_None; [lia|].
    apply map_lookup_filter_None. by left.
  - rewrite delete_id by done. by destruct (active r).
Qed.

(** C8, as the code has it: the availability is the capacity minus the
    number of rows with [active = 1], cut off at zero; rows that are not
    active do not enter it, whatever is inserted or deleted among them;
    and a quantity in [1, 100] is rejected with [InsufficientCapacity]
    exactly when it exceeds that value, which is when it exceeds capacity
    minus active rows. *)
Theorem availability_counts_active_only c u q :
  1 ≤ q ≤ 100 →
  available MAX_TICKETS c = Z.max 0 (MAX_TICKETS - active_rows (db c))
  ∧ (∀ c', filter is_active (tickets (db c')) = filter is_active (tickets (db c)) →
           available MAX_TICKETS c' = available MAX_TICKETS c)
  ∧ available MAX_TICKETS (drop_pending c) = available MAX_TICKETS c
  ∧ (reserve_tickets MAX_TICKETS u q c = (c, Raise InsufficientCapacity)
     ↔ Z.max 0 (MAX_TICKETS - active_rows (db c)) < q)
  ∧ (Z.max 0 (MAX_TICKETS - active_rows (db c)) < q
     ↔ MAX_TICKETS - active_rows (db c) < q).
Proof.
  intros Hq.
  assert (Hav : ∀ c0, available MAX_TICKETS c0
                      = Z.max 0 (MAX_TICKETS - active_rows (db c0))).
  { intros c0. unfold available. by rewrite count_sold_active_rows. }
  assert (Hsame : ∀ c', filter is_active (tickets (db c'))
                        = filter is_active (tickets (db c)) →
                        available MAX_TICKETS c' = available MAX_TICKETS c).
  { intros c' Heq. unfold available, count_sold_tickets. by rewrite Heq. }
  split; [apply Hav|]. split; [exact Hsame|]. split.
  { apply Hsame. unfold drop_pending. cbn [db set_tickets tickets].
    rewrite map_filter_filter. apply map_filter_ext. intros i x _. tauto. }
  rewrite <- Hav. split; [|unfold available; rewrite count_sold_active_rows; lia].
  split.
  - intros Hres.
    destruct (reserve_cases c u q)
      as [[_ Hr]|[[[_ Hlt] _]|[[_ Hr]|[_ Hr]]]]; [| done | |];
      rewrite Hr in Hres; discriminate.
  - intros Hlt. by apply reserve_insufficient.
Qed.

End reserve.

(** ** Queries on the [tickets] table *)

Section queries.
Context (P : Z * ticket_row → Prop) `{!∀ kv, Decision (P kv)}.
Context (R : relation Z) `{!RelDecision R, !Total R, !Transitive R}.
Implicit Types (m : gmap Z ticket_row) (t : Z).

Lemma select_elem m t :
  t ∈ select_ticket_numbers P m ↔ ∃ r, m !! t = Some r ∧ P (t, r).
Proof.
  unfold select_ticket_numbers. rewrite list_elem_of_fmap. split.
  - intros [[t' r] [-> Hin]]. exists r.
    by apply elem_of_map_to_list, map_lookup_filter_Some in Hin.
  - intros [r Hr]. exists (t, r). split; [done|].
    by apply elem_of_map_to_list, map_lookup_filter_Some.
Qed.

Lemma select_NoDup m : NoDup (select_ticket_numbers P m).
Proof. apply NoDup_fst_map_to_list. Qed.

Lemma select_length m : length (select_ticket_numbers P m) = size (filter P m).
Proof. unfold select_ticket_numbers. by rewrite length_fmap, length_map_to_list. Qed.

Lemma ordered_elem m t :
  t ∈ merge_sort R (select_ticket_numbers P m) ↔ ∃ r, m !! t = Some r ∧ P (t, r).
Proof. by rewrite merge_sort_Permutation, select_elem. Qed.

Lemma ordered_NoDup m : NoDup (merge_sort R (select_ticket_numbers P m)).
Proof. rewrite merge_sort_Permutation. apply select_NoDup. Qed.

Lemma ordered_length m :
  length (merge_sort R (select_ticket_numbers P m)) = size (filter P m).
Proof. by rewrite merge_sort_Permutation, select_length. Qed.

Lemma ordered_sorted m : StronglySorted R (merge_sort R (select_ticket_numbers P m)).
Proof. by apply StronglySorted_merge_sort. Qed.

End queries.

Lemma pool_size (d : DB) :
  Z.of_nat (length (get_all_active_tickets d)) = count_sold_tickets d.
Proof. unfold get_all_active_tickets, count_sold_tickets. by rewrite ordered_length. Qed.

Lemma pool_elem (d : DB) (t : Z) :
  t ∈ get_all_active_tickets d ↔ ∃ u, tickets d !! t = Some (TicketRow u true).
Proof.
  unfold get_all_active_tickets. rewrite ordered_elem. split.
  - intros [[u a] [Hr Ha]]. unfold is_active in Ha. simpl in Ha. subst a. by exists u.
  - intros [u Hu]. by exists (TicketRow u true).
Qed.

Lemma pending_row (u : string) (t : Z) (r : ticket_row) :
  is_pending_of u (t, r) ↔ r = TicketRow u false.
Proof.
  unfold is_pending_of. destruct r as [u' a]. simpl. split.
  - by intros [-> ->].
  - by intros [= -> ->].
Qed.

(** ** The payment picked by [confirm_payment_by_invoice] *)

Lemma confirm_row_closed (invoice tx : string) (p : payment_row) :
  is_open invoice (confirm_row tx p) = false.
Proof. unfold is_open, confirm_row. simpl. by rewrite andb_false_r. Qed.

Lemma open_count_cons (invoice : string) (p : payment_row) (ps : list payment_row) :
  open_count invoice (p :: ps)
  = ((if is_open invoice p then 1 else 0) + open_count invoice ps)%nat.
Proof.
  unfold open_count. rewrite filter_cons.
  destruct (is_open invoice p); by case_decide.
Qed.

Lemma open_count_0 (invoice : string) (ps : list payment_row) (k : nat) (p : payment_row) :
  open_count invoice ps = 0%nat → ps !! k = Some p → is_open invoice p = false.
Proof.
  intros H0 Hk. apply nil_length_inv in H0.
  destruct (is_open invoice p) eqn:Hp; [|done].
  exfalso. eapply (filter_nil_not_elem_of _ _ p H0).
  - by rewrite Hp.
  - by eapply list_elem_of_lookup_2.
Qed.

Lemma last_open_None (invoice : string) (i : nat) (ps : list payment_row) :
  last_open invoice i ps = None ↔ open_count invoice ps = 0%nat.
Proof.
  revert i. induction ps as [|p ps IH]; intros i; [done|].
  rewrite open_count_cons. cbn [last_open].
  destruct (last_open invoice (S i) ps) as [r|] eqn:Hrest.
  - split; [done|]. intros Hz.
    assert (Hnone : (None : option (nat * payment_row)) = Some r).
    { rewrite <- Hrest. symmetry. apply IH. lia. }
    done.
  - apply IH in Hrest. rewrite Hrest.
    destruct (is_open invoice p); split; (done || lia).
Qed.

(** The row found is open, lies at the reported position, no later row is
    open, and confirming it closes exactly one open row. *)
Lemma last_open_Some (invoice tx : string) (i j : nat) (ps : list payment_row)
    (p : payment_row) :
  last_open invoice i ps = Some (j, p) →
  ∃ k, j = (i + k)%nat
       ∧ ps !! k = Some p
       ∧ is_open invoice p = true
       ∧ (∀ k' p', (k < k')%nat → ps !! k' = Some p' → is_open invoice p' = false)
       ∧ open_count invoice (<[k := confirm_row tx p]> ps)
         = pred (open_count invoice ps).
Proof.
  revert i. induction ps as [|p0 ps IH]; intros i; [done|].
  cbn [last_open].
  destruct (last_open invoice (S i) ps) as [r|] eqn:Hrest.
  - intros [= ->]. destruct (IH _ Hrest) as (k & -> & Hk & Hp & Hlater & Hcnt).
    exists (S k). split; [lia|]. split; [done|]. split; [done|]. split.
    + intros [|k'] p' Hlt Hk'; [lia|]. apply (Hlater k' p'); [lia | done].
    + change (<[S k := confirm_row tx p]> (p0 :: ps))
        with (p0 :: <[k := confirm_row tx p]> ps).
      rewrite !open_count_cons, Hcnt.
      assert (open_count invoice ps ≠ 0%nat).
      { intros Hz. apply (last_open_None invoice (S i)) in Hz. congruence. }
      destruct (is_open invoice p0); lia.
  - destruct (is_open invoice p0) eqn:Hp0; [|done].
    intros [= <- <-]. exists 0%nat. split; [lia|]. split; [done|].
    split; [done|]. apply last_open_None in Hrest. split.
    + intros [|k'] p' Hlt Hk'; [lia|]. by apply (open_count_0 invoice ps k').
    + change (<[0%nat := confirm_row tx p0]> (p0 :: ps))
        with (confirm_row tx p0 :: ps).
      rewrite !open_count_cons, Hp0.
      by rewrite confirm_row_closed.
Qed.

(** ** [activate_payment] *)

Section activate.
Implicit Types (c : LotteryCore) (p : payment_row).

Lemma activate_missing c invoice tx :
  last_open invoice 0 (payments (db c)) = None →
  activate_payment invoice tx c
  = (c, Ok (NotActivated "invoice_not_found_or_already_confirmed")).
Proof.
  intros Hnone. unfold activate_payment, confirm_payment_by_invoice, on_db,
    mbind, M_bind, gets, mret, M_ret.
  rewrite Hnone. by destruct c.
Qed.

(** What [activate_payment] does once the lookup has found a payment:
    the payment row is confirmed; then the quantity is bound to the
    [LIMIT], and the tickets selected are activated one by one. *)
Lemma activate_run c invoice tx i p :
  last_open invoice 0 (payments (db c)) = Some (i, p) →
  let k := py_round (amount p / TICKET_PRICE) in
  let ts := pending_desc (db c) (p_telegram_id p) k in
  activate_payment invoice tx c
  = if fits_sqlite k
    then (MkCore
            (MkDB (users (db c))
                  (foldl (λ m t, alter activate_row t m) (tickets (db c))
                         (bound_prefix ts))
                  (<[i := confirm_row tx p]> (payments (db c)))
                  (draws (db c)))
            (next_ticket c),
          if forallb fits_sqlite ts
          then Ok (Activated ts (p_telegram_id p) (amount p))
          else Raise OverflowError)
    else (paid_state c i p tx, Raise OverflowError).
Proof.
  intros Hsome k ts. unfold activate_payment, confirm_payment_by_invoice, on_db,
    mbind, M_bind, gets, mret, M_ret, modify, select_pending_desc, bind_int.
  rewrite Hsome. cbn. fold k.
  destruct (fits_sqlite k); unfold mbind, M_bind, raise, gets, mret, M_ret;
    cbn; [|reflexivity].
  change (pending_desc (set_payments _ (db c)) (p_telegram_id p) k) with ts.
  destruct ts as [|t ts'] eqn:Hts; [reflexivity|].
  rewrite activate_tickets_run. cbn [set_tickets users tickets payments draws].
  by destruct (forallb fits_sqlite (t :: ts')).
Qed.

(** A table whose listed keys all fit is a SQLite table. *)
Lemma sqlite_db_check (d : DB) :
  forallb fits_sqlite (map_to_list (tickets d)).*1 = true → sqlite_db d.
Proof.
  intros Hall t [r Hr]. apply (proj1 (forallb_fits _) Hall).
  apply list_elem_of_fmap. exists (t, r). split; [done|].
  by apply elem_of_map_to_list.
Qed.

Lemma pending_desc_fits (d : DB) (u : string) (k : Z) :
  sqlite_db d → forallb fits_sqlite (pending_desc d u k) = true.
Proof.
  intros Hdb. apply forallb_fits. intros t Ht. apply Hdb.
  unfold pending_desc, sql_limit in Ht.
  assert (Hall : t ∈ merge_sort Zdesc
                   (select_ticket_numbers (is_pending_of u) (tickets d))).
  { case_bool_decide; [done|]. by eapply subseteq_take. }
  apply ordered_elem in Hall as [r [Hr _]]. by eexists.
Qed.

(** The confirmation goes through when the quantity fits a SQLite
    INTEGER. *)
Lemma activate_found c invoice tx i p :
  last_open invoice 0 (payments (db c)) = Some (i, p) →
  SQLITE_MIN ≤ py_round (amount p / TICKET_PRICE) ≤ SQLITE_MAX →
  sqlite_db (db c) →
  activate_payment invoice tx c
  = (confirmed_state c i p tx,
     Ok (Activated
           (pending_desc (db c) (p_telegram_id p)
              (py_round (amount p / TICKET_PRICE)))
           (p_telegram_id p) (amount p))).
Proof.
  intros Hsome Hk Hdb. rewrite (activate_run _ _ _ _ _ Hsome). cbn zeta.
  apply fits_sqlite_spec in Hk. rewrite Hk.
  rewrite (pending_desc_fits _ _ _ Hdb).
  by rewrite bound_prefix_all by by apply pending_desc_fits.
Qed.

(** It raises [OverflowError], with the payment already confirmed, when
    the quantity does not fit. *)
Lemma activate_overflow c invoice tx i p :
  last_open invoice 0 (payments (db c)) = Some (i, p) →
  py_round (amount p / TICKET_PRICE) < SQLITE_MIN
  ∨ SQLITE_MAX < py_round (amount p / TICKET_PRICE) →
  activate_payment invoice tx c = (paid_state c i p tx, Raise OverflowError).
Proof.
  intros Hsome Hk. rewrite (activate_run _ _ _ _ _ Hsome). cbn zeta.
  destruct (fits_sqlite _) eqn:Hfit; [|done].
  apply fits_sqlite_spec in Hfit. lia.
Qed.

(** Whenever it returns, it has done the whole work. *)
Lemma activate_found_inv c invoice tx i p c' r :
  last_open invoice 0 (payments (db c)) = Some (i, p) →
  activate_payment invoice tx c = (c', Ok r) →
  c' = confirmed_state c i p tx
  ∧ r = Activated (pending_desc (db c) (p_telegram_id p)
                     (py_round (amount p / TICKET_PRICE)))
          (p_telegram_id p) (amount p)
  ∧ SQLITE_MIN ≤ py_round (amount p / TICKET_PRICE) ≤ SQLITE_MAX.
Proof.
  intros Hsome. rewrite (activate_run _ _ _ _ _ Hsome). cbn zeta.
  destruct (fits_sqlite _) eqn:Hfit; [|done].
  destruct (forallb fits_sqlite _) eqn:Hall; [|done].
  intros [= <- <-]. rewrite (bound_prefix_all _ Hall).
  split; [done|]. split; [done|]. by apply fits_sqlite_spec.
Qed.

(** Found or not, returning or raising, the call writes the [payments]
    table as the lookup decides and leaves users, draws and cursor alone;
    ticket rows keep their owner. *)
Lemma activate_frame c invoice tx :
  let c' := (activate_payment invoice tx c).1 in
  users (db c') = users (db c)
  ∧ draws (db c') = draws (db c)
  ∧ next_ticket c' = next_ticket c
  ∧ payments (db c')
    = match last_open invoice 0 (payments (db c)) with
      | Some (i, p) => <[i := confirm_row tx p]> (payments (db c))
      | None => payments (db c)
      end
  ∧ ∃ ts, tickets (db c')
          = foldl (λ m t, alter activate_row t m) (tickets (db c)) ts
          ∧ ∀ t, t ∈ ts → ∃ u, tickets (db c) !! t = Some (TicketRow u false).
Proof.
  cbn zeta.
  destruct (last_open invoice 0 (payments (db c))) as [[i p]|] eqn:Hfound.
  2:{ rewrite (activate_missing _ _ _ Hfound). cbn [fst].
      repeat split; try done. exists []. split; [done|].
      by intros t ?%elem_of_nil. }
  rewrite (activate_run _ _ _ _ _ Hfound). cbn zeta.
  destruct (fits_sqlite _).
  - cbn [fst db users draws next_ticket payments tickets].
    repeat split; try done. eexists. split; [done|].
    intros t [Ht _]%bound_prefix_elem. exists (p_telegram_id p).
    unfold pending_desc, sql_limit in Ht.
    assert (Hall : t ∈ merge_sort Zdesc
              (select_ticket_numbers (is_pending_of (p_telegram_id p))
                 (tickets (db c)))).
    { case_bool_decide; [done|]. by eapply subseteq_take. }
    apply ordered_elem in Hall as [r [Hr Hp]]. by apply pending_row in Hp as ->.
  - cbn [fst paid_state db set_payments users draws next_ticket payments tickets].
    repeat split; try done. exists []. split; [done|].
    by intros t ?%elem_of_nil.
Qed.

(** The tickets picked for activation: the first [k] of the owner's pending
    numbers in descending order. *)
Lemma pending_desc_take (d : DB) (u : string) (k : Z) :
  0 ≤ k →
  pending_desc d u k
  = take (Z.to_nat k)
      (merge_sort Zdesc (select_ticket_numbers (is_pending_of u) (tickets d))).
Proof.
  intros Hk. unfold pending_desc, sql_limit.
  by rewrite bool_decide_eq_false_2 by lia.
Qed.

Lemma pending_desc_elem (d : DB) (u : string) (k t : Z) :
  t ∈ pending_desc d u k → tickets d !! t = Some (TicketRow u false).
Proof.
  unfold pending_desc, sql_limit. intros Hin.
  assert (Hall : t ∈ merge_sort Zdesc
                   (select_ticket_numbers (is_pending_of u) (tickets d))).
  { case_bool_decide; [done|]. by eapply subseteq_take. }
  apply ordered_elem in Hall as [r [Hr Hp]]. by apply pending_row in Hp as ->.
Qed.

(** C3: when the lookup finds an unconfirmed payment of amount
    [TICKET_PRICE * k], a successful [activate_payment] returns the numbers
    it activated: [min k n] of them, where [n] counts the owner's inactive
    tickets; they are in strictly descending order, each was an inactive
    ticket of the owner, every inactive ticket of the owner left out has a
    smaller number, and exactly the returned tickets were flipped to active.
    The call is successful whenever [k] fits a SQLite INTEGER, also when
    fewer than [k] tickets are available. *)
Theorem activate_payment_activates c invoice tx i p k :
  last_open invoice 0 (payments (db c)) = Some (i, p) →
  (amount p == TICKET_PRICE * inject_Z k)%Q →
  0 ≤ k →
  (k ≤ SQLITE_MAX → sqlite_db (db c) →
     ∃ c' ts, activate_payment invoice tx c
              = (c', Ok (Activated ts (p_telegram_id p) (amount p))))
  ∧ ∀ c' r,
      activate_payment invoice tx c = (c', Ok r) →
      ∃ ts,
        r = Activated ts (p_telegram_id p) (amount p)
        ∧ length ts
          = (Z.to_nat k
             `min` size (filter (is_pending_of (p_telegram_id p))
                           (tickets (db c))))%nat
        ∧ StronglySorted Zdesc ts
        ∧ NoDup ts
        ∧ (∀ t, t ∈ ts →
             tickets (db c) !! t = Some (TicketRow (p_telegram_id p) false))
        ∧ (∀ t t', t ∈ ts → t' ∉ ts →
             tickets (db c) !! t' = Some (TicketRow (p_telegram_id p) false) →
             t' < t)
        ∧ (∀ t, tickets (db c') !! t
                = if bool_decide (t ∈ ts)
                  then Some (TicketRow (p_telegram_id p) true)
                  else tickets (db c) !! t).
Proof.
  intros Hfound Hamt Hk.
  pose proof (expected_qty_exact _ k Hamt) as Hqty. split.
  { intros Hmax Hdb. eexists _, _. apply activate_found; [done | | done].
    rewrite Hqty. unfold SQLITE_MIN. lia. }
  intros c' r Hrun.
  destruct (activate_found_inv _ _ _ _ _ _ _ Hfound Hrun) as (-> & -> & _).
  eexists. split; [done|]. rewrite Hqty.
  set (u := p_telegram_id p).
  set (all := merge_sort Zdesc (select_ticket_numbers (is_pending_of u) (tickets (db c)))).
  assert (Hts : pending_desc (db c) u k = take (Z.to_nat k) all)
    by by apply pending_desc_take.
  assert (Hsplit : take (Z.to_nat k) all ++ drop (Z.to_nat k) all = all)
    by apply take_drop.
  assert (Hsorted : StronglySorted Zdesc all) by (apply ordered_sorted; apply _).
  assert (Hnodup : NoDup all) by apply ordered_NoDup.
  split; [|split; [|split; [|split; [|split]]]].
  - rewrite Hts, length_take. unfold all. by rewrite ordered_length.
  - rewrite Hts. rewrite <- Hsplit in Hsorted.
    by apply StronglySorted_app_1_l in Hsorted.
  - rewrite Hts. eapply sublist_NoDup; [exact Hnodup | apply sublist_take].
  - intros t Ht. by eapply pending_desc_elem.
  - intros t t' Ht Ht' Hrow. rewrite Hts in Ht, Ht'.
    assert (Hall : t' ∈ all).
    { apply ordered_elem. exists (TicketRow u false). by rewrite pending_row. }
    rewrite <- Hsplit in Hall, Hsorted.
    apply elem_of_app in Hall as [Hin|Hin]; [done|].
    pose proof (StronglySorted_app_1_elem_of _ _ _ _ _ Hsorted Ht Hin) as Hle.
    unfold Zdesc in Hle. assert (t ≠ t') by congruence. lia.
  - intros t. unfold confirmed_state. cbn [db tickets].
    rewrite Hqty, activate_tickets_lookup.
    fold u.
    destruct (bool_decide_reflect (t ∈ pending_desc (db c) u k)) as [Hin|Hin];
      [|done].
    by rewrite (pending_desc_elem _ _ _ _ Hin).
Qed.

(** Each successful confirmation closes exactly one of the open rows filed
    under the invoice id, and a confirmation fails exactly when none is
    left. *)
Lemma activate_closes_one c invoice tx i p :
  last_open invoice 0 (payments (db c)) = Some (i, p) →
  open_count invoice (payments (db (confirmed_state c i p tx)))
  = pred (open_count invoice (payments (db c))).
Proof.
  intros Hfound.
  destruct (last_open_Some invoice tx _ _ _ _ Hfound) as (k & -> & _ & _ & _ & Hcnt).
  done.
Qed.

(** C10, as the code has it: when the payment found belongs to an owner
    without inactive tickets and its quantity fits a SQLite INTEGER, the
    confirmation succeeds, returns an empty list, touches no ticket row and
    marks the payment confirmed with the transaction hash; if the invoice
    id was filed on that row only, every further confirmation of it is
    rejected and changes nothing. *)
Theorem confirm_without_pending c invoice tx i p :
  last_open invoice 0 (payments (db c)) = Some (i, p) →
  size (filter (is_pending_of (p_telegram_id p)) (tickets (db c))) = 0%nat →
  SQLITE_MIN ≤ py_round (amount p / TICKET_PRICE) ≤ SQLITE_MAX →
  ∃ c',
    activate_payment invoice tx c
    = (c', Ok (Activated [] (p_telegram_id p) (amount p)))
    ∧ tickets (db c') = tickets (db c)
    ∧ payments (db c')
      = <[i := PaymentRow (p_telegram_id p) invoice (amount p) tx true]>
          (payments (db c))
    ∧ payments (db c') !! i
      = Some (PaymentRow (p_telegram_id p) invoice (amount p) tx true)
    ∧ (open_count invoice (payments (db c)) = 1%nat →
       ∀ tx2, activate_payment invoice tx2 c'
              = (c', Ok (NotActivated "invoice_not_found_or_already_confirmed"))).
Proof.
  intros Hfound Hnone Hfit.
  destruct (last_open_Some invoice tx _ _ _ _ Hfound)
    as (k & Hk & Hrow & Hopen & _ & _).
  simpl in Hk. subst k.
  assert (Hinv : invoice_id p = invoice).
  { unfold is_open in Hopen. apply andb_prop in Hopen as [Heq _].
    by apply bool_decide_eq_true in Heq. }
  assert (Hts : pending_desc (db c) (p_telegram_id p)
                  (py_round (amount p / TICKET_PRICE)) = []).
  { unfold pending_desc, sql_limit.
    assert (Hall : merge_sort Zdesc (select_ticket_numbers
                     (is_pending_of (p_telegram_id p)) (tickets (db c))) = []).
    { apply nil_length_inv. by rewrite ordered_length. }
    rewrite Hall. case_bool_decide; [done | by rewrite take_nil]. }
  exists (confirmed_state c i p tx).
  rewrite (activate_run _ _ _ _ _ Hfound). cbn zeta.
  apply fits_sqlite_spec in Hfit. rewrite Hfit, Hts.
  unfold confirmed_state. rewrite Hts. cbn [db tickets payments foldl
    bound_prefix forallb].
  unfold confirm_row. rewrite Hinv.
  split; [done|]. split; [done|]. split; [done|]. split.
  - apply list_lookup_insert_eq. by eapply lookup_lt_Some.
  - intros Hone tx2. apply activate_missing, last_open_None. cbn [db payments].
    pose proof (activate_closes_one c invoice tx i p Hfound) as Hcnt.
    unfold confirmed_state, confirm_row in Hcnt. cbn [db payments] in Hcnt.
    rewrite Hinv in Hcnt. rewrite Hcnt, Hone. done.
Qed.

End activate.

(** ** Worked examples *)

(** The scenario of the specification on the source's capacity:
    [reserve("u1", 3)] on a fresh ledger. *)
Example reserve_u1_3 :
  (reserve_tickets Main.MAX_TICKETS "u1" 3 empty_ledger).2
  = Ok (Reservation [1; 2; 3] (3 # 2) "u1-1-3").
Proof. reflexivity. Qed.

Example confirm_u1_1_3 :
  (activate_payment "u1-1-3" "0xabc" one_reservation).2
  = Ok (Activated [3; 2; 1] "u1" (3 # 2)).
Proof. reflexivity. Qed.

Example reserve_u1_2_after :
  (reserve_tickets Main.MAX_TICKETS "u1" 2
     (activate_payment "u1-1-3" "0xabc" one_reservation).1).2
  = Ok (Reservation [4; 5] 1 "u1-4-5").
Proof. reflexivity. Qed.

Lemma reserve_tickets_allocates_witness :
  ∃ c' r,
    reserve_tickets Main.MAX_TICKETS "u1" 3 empty_ledger = (c', Ok r)
    ∧ reserved r = [1; 2; 3]
    ∧ next_ticket c' = 4
    ∧ total_price r = (3 # 2)%Q
    ∧ r_invoice_id r = "u1-1-3"
    ∧ payments (db c') = [PaymentRow "u1" "u1-1-3" (3 # 2) "" false].
Proof.
  destruct (reserve_tickets_allocates Main.MAX_TICKETS empty_ledger "u1" 3)
    as [Hok Hprops].
  - lia.
  - by vm_compute.
  - destruct Hok as (c' & r & Hrun); [by vm_compute | by vm_compute |].
    destruct (Hprops c' r Hrun)
      as (Hres & _ & _ & Hnext & Hprice & _ & Hinv & Hpay & _).
    exists c', r. rewrite Hpay, Hinv, Hprice, Hres, Hnext. by repeat split.
Defined.

Lemma reserve_tickets_rejects_witness :
  reserve_tickets 10 "u1" 0 empty_ledger = (empty_ledger, Raise InvalidQuantity)
  ∧ reserve_tickets 10 "u1" 101 empty_ledger = (empty_ledger, Raise InvalidQuantity)
  ∧ reserve_tickets 10 "u1" 11 empty_ledger
    = (empty_ledger, Raise InsufficientCapacity).
Proof.
  split; [|split].
  - apply (reserve_tickets_rejects 10 empty_ledger "u1" 0). lia.
  - apply (reserve_tickets_rejects 10 empty_ledger "u1" 101). lia.
  - apply (reserve_tickets_rejects 10 empty_ledger "u1" 11); [lia | by vm_compute].
Defined.

(** On a ledger of capacity 5 with three active and two pending tickets
    two tickets are available: a third user is refused three and gets
    two. *)
Lemma availability_counts_active_only_witness :
  active_rows (db part_paid_ledger) = 3
  ∧ size (tickets (db part_paid_ledger)) = 5%nat
  ∧ available 5 part_paid_ledger = 2
  ∧ available 5 (drop_pending part_paid_ledger) = available 5 part_paid_ledger
  ∧ reserve_tickets 5 "u3" 3 part_paid_ledger
    = (part_paid_ledger, Raise InsufficientCapacity)
  ∧ ∃ c' r, reserve_tickets 5 "u3" 2 part_paid_ledger = (c', Ok r).
Proof.
  destruct (availability_counts_active_only 5 part_paid_ledger "u3" 3)
    as (Hav & _ & Hdrop & Hiff & _); [lia|].
  assert (Hrows : active_rows (db part_paid_ledger) = 3) by reflexivity.
  rewrite Hrows in Hav, Hiff.
  split; [exact Hrows|]. split; [reflexivity|]. split; [exact Hav|].
  split; [exact Hdrop|]. split; [by apply Hiff|].
  eexists _, _. apply reserve_accepted; [lia | by vm_compute ..].
Defined.

(** Against C8 as stated: with two tickets of capacity and four active
    ones the availability is 0, not capacity minus active tickets; and a
    quantity of 101, which exceeds it, is refused as invalid, not for
    lack of capacity. *)
Lemma availability_clamped_counterexample :
  active_rows (db oversold_small) = 4
  ∧ available 2 oversold_small = 0
  ∧ available 2 oversold_small ≠ 2 - active_rows (db oversold_small)
  ∧ reserve_tickets 2 "c" 101 oversold_small = (oversold_small, Raise InvalidQuantity).
Proof.
  split; [reflexivity|]. split; [reflexivity|]. split; [by vm_compute|].
  reflexivity.
Qed.

Lemma activate_payment_activates_witness :
  ∃ c' ts,
    activate_payment "u1-1-3" "0xabc" one_reservation
    = (c', Ok (Activated ts "u1" (3 # 2)))
    ∧ length ts = 3%nat
    ∧ (∀ t, tickets (db c') !! t
            = if bool_decide (t ∈ ts) then Some (TicketRow "u1" true)
              else tickets (db one_reservation) !! t).
Proof.
  destruct (activate_payment_activates one_reservation "u1-1-3" "0xabc" 0
              (PaymentRow "u1" "u1-1-3" (3 # 2) "" false) 3)
    as [Hok Hprops].
  - reflexivity.
  - reflexivity.
  - lia.
  - destruct Hok as (c' & ts & Hrun).
    + by vm_compute.
    + apply sqlite_db_check. reflexivity.
    + destruct (Hprops c' _ Hrun) as (ts' & [= <-] & Hlen & _ & _ & _ & _ & Hrows).
      exists c', ts. split; [exact Hrun|]. split; [exact Hlen | exact Hrows].
Defined.

(** Against C1 as stated: with two pending rows under one invoice id the
    second confirmation succeeds as well, and rewrites the ledger. *)
Lemma confirm_twice_counterexample :
  let c1 := (activate_payment "7-1-2" "0xabc" twin_invoice_ledger).1 in
  activate_payment "7-1-2" "0xabc" twin_invoice_ledger
  = (c1, Ok (Activated [2; 1] "7" 1))
  ∧ (activate_payment "7-1-2" "0xdef" c1).2 = Ok (Activated [] "7" 1)
  ∧ payments (db (activate_payment "7-1-2" "0xdef" c1).1) ≠ payments (db c1).
Proof.
  split; [reflexivity|]. split; [reflexivity|]. vm_compute. discriminate.
Qed.

Lemma confirm_without_pending_witness :
  ∃ c',
    activate_payment "9-1-1" "0xabc" orphan_payment_ledger
    = (c', Ok (Activated [] "9" (1 # 2)))
    ∧ tickets (db c') = ∅
    ∧ payments (db c') = [PaymentRow "9" "9-1-1" (1 # 2) "0xabc" true]
    ∧ (∀ tx2, activate_payment "9-1-1" tx2 c'
              = (c', Ok (NotActivated "invoice_not_found_or_already_confirmed"))).
Proof.
  destruct (confirm_without_pending orphan_payment_ledger "9-1-1" "0xabc" 0
              (PaymentRow "9" "9-1-1" (1 # 2) "" false))
    as (c' & Hrun & Htk & Hpay & _ & Hnext).
  - reflexivity.
  - reflexivity.
  - split; by vm_compute.
  - exists c'. rewrite Htk, Hpay. repeat split; try done. by apply Hnext.
Defined.

(** Against C10 as stated: with the pending row duplicated, the next
    confirmation of the same invoice id succeeds once more; and with an
    amount whose quantity does not fit a SQLite INTEGER the confirmation
    marks the payment confirmed and raises instead of returning. *)
Lemma confirm_without_pending_counterexample :
  let c1 := (activate_payment "9-1-1" "0xabc" twin_orphan_ledger).1 in
  (size (filter (is_pending_of "9") (tickets (db twin_orphan_ledger))) = 0%nat
   ∧ activate_payment "9-1-1" "0xabc" twin_orphan_ledger
     = (c1, Ok (Activated [] "9" (1 # 2)))
   ∧ (activate_payment "9-1-1" "0xdef" c1).2 = Ok (Activated [] "9" (1 # 2)))
  ∧ (size (filter (is_pending_of "9") (tickets (db huge_payment_ledger))) = 0%nat
     ∧ (activate_payment "9-1-1" "0xabc" huge_payment_ledger).2
       = Raise OverflowError
     ∧ payments (db (activate_payment "9-1-1" "0xabc" huge_payment_ledger).1)
       = [PaymentRow "9" "9-1-1" (inject_Z 4611686018427387904) "0xabc" true]).
Proof. repeat split; reflexivity. Qed.

(** ** [random.sample] *)

(** One round of the sampler: taking [pool[j]] and moving the last entry
    into slot [j] leaves the other entries of the pool. *)
Lemma sample_round (pool : list Z) (j : nat) (x y : Z) :
  pool !! j = Some x → last pool = Some y →
  x :: removelast (<[j := y]> pool) ≡ₚ pool.
Proof.
  intros Hj Hlast. apply last_Some in Hlast as [front ->].
  destruct (decide (j < length front)%nat) as [Hlt|Hge].
  - rewrite lookup_app_l in Hj by done.
    rewrite insert_app_l, removelast_last by done.
    rewrite (insert_take_drop front j y Hlt).
    assert (Hmove : x :: take j front ++ y :: drop (S j) front
                    ≡ₚ (take j front ++ x :: drop (S j) front) ++ [y]).
    { rewrite <- app_assoc. cbn [app].
      rewrite <- (Permutation_middle (take j front) (drop (S j) front ++ [y]) x).
      apply Permutation_skip, Permutation_app_head, Permutation_cons_append. }
    etrans; [exact Hmove|]. by rewrite (take_drop_middle front j x Hj).
  - assert (j = length front) as ->.
    { apply lookup_lt_Some in Hj. rewrite length_app in Hj. simpl in Hj. lia. }
    rewrite list_lookup_middle in Hj by done. injection Hj as ->.
    rewrite list_insert_id by (by rewrite list_lookup_middle).
    rewrite removelast_last. by rewrite Permutation_app_comm.
Qed.

Lemma sample_loop_spec (rng : nat → nat) (k i : nat) (pool : list Z) :
  (k ≤ length pool)%nat → NoDup pool →
  length (sample_loop rng i k pool) = k
  ∧ NoDup (sample_loop rng i k pool)
  ∧ sample_loop rng i k pool ⊆ pool.
Proof.
  revert i pool. induction k as [|k IH]; intros i pool Hk Hnd.
  { cbn. split; [done|]. split; [constructor | set_solver]. }
  cbn [sample_loop].
  set (j := (rng i `mod` length pool)%nat).
  assert (Hj : (j < length pool)%nat) by (apply Nat.mod_upper_bound; lia).
  destruct (lookup_lt_is_Some_2 pool j Hj) as [x Hx]. rewrite Hx.
  destruct (last pool) as [y|] eqn:Hy.
  2:{ apply last_None in Hy. subst pool. simpl in Hk. lia. }
  pose proof (sample_round pool j x y Hx Hy) as Hperm.
  set (pool' := removelast (<[j := y]> pool)) in *.
  assert (Hnd' : NoDup (x :: pool')) by by rewrite Hperm.
  apply NoDup_cons in Hnd' as [Hfresh Hnd'].
  assert (Hlen : length pool = S (length pool')).
  { by rewrite <- (Permutation_length Hperm). }
  destruct (IH (S i) pool') as (Hl & Hn & Hsub); [lia | done |].
  split; [by rewrite length_cons, Hl|]. split.
  - apply NoDup_cons. split; [|done]. intros Hin. apply Hfresh. by apply Hsub.
  - intros t Ht. rewrite <- Hperm. apply elem_of_cons in Ht as [->|Ht].
    + by left.
    + right. by apply Hsub.
Qed.

Lemma sample_loop_ext (rng rng' : nat → nat) (k i : nat) (pool : list Z) :
  (∀ n, (i ≤ n)%nat → rng n = rng' n) →
  sample_loop rng i k pool = sample_loop rng' i k pool.
Proof.
  revert i pool. induction k as [|k IH]; intros i pool Hext; [done|].
  cbn [sample_loop]. rewrite (Hext i) by lia.
  destruct (pool !! _) as [x|]; [|done]. destruct (last pool) as [y|]; [|done].
  f_equal. apply IH. intros n Hn. apply Hext. lia.
Qed.

(** The model leaves no outcome of the library function out: every list of
    distinct members of the pool is the sample under some stream of draws. *)
Lemma sample_loop_complete (ws pool : list Z) (i : nat) :
  NoDup ws → ws ⊆ pool → ∃ rng, sample_loop rng i (length ws) pool = ws.
Proof.
  revert pool i. induction ws as [|x ws IH]; intros pool i Hnd Hsub.
  { by exists (λ _, 0%nat). }
  apply NoDup_cons in Hnd as [Hfresh Hnd].
  assert (Hx : x ∈ pool) by (apply Hsub; left).
  apply list_elem_of_lookup_1 in Hx as [j Hj].
  destruct (last pool) as [y|] eqn:Hy.
  2:{ apply last_None in Hy. subst pool. done. }
  pose proof (sample_round pool j x y Hj Hy) as Hperm.
  destruct (IH (removelast (<[j := y]> pool)) (S i) Hnd) as [rng' Hrng'].
  { intros t Ht. assert (Hin : t ∈ x :: removelast (<[j := y]> pool)).
    { rewrite Hperm. apply Hsub. by right. }
    apply elem_of_cons in Hin as [->|Hin]; done. }
  exists (λ n, if decide (n = i) then j else rng' n).
  cbn [length sample_loop]. rewrite decide_True by done.
  rewrite Nat.mod_small by (by eapply lookup_lt_Some).
  rewrite Hj, Hy. f_equal. etrans; [|exact Hrng'].
  apply sample_loop_ext. intros n Hn. by rewrite decide_False by lia.
Qed.

(** ** [draw_winners] *)

Lemma prize_in_range (i : nat) : (i < 3)%nat → is_Some (PRIZES !! i).
Proof. intros Hi. apply lookup_lt_is_Some_2. simpl. lia. Qed.

(** The payout loop never raises on at most three winners, and computes the
    specification's per-owner sums on top of the accumulator. *)
Lemma payout_loop_ok (c : LotteryCore) (ws : list Z) (i : nat)
    (acc : gmap (option string) Q) :
  (i + length ws ≤ 3)%nat →
  ∃ pay,
    payout_loop i ws acc c = (c, Ok pay)
    ∧ (∀ o, (default 0 (pay !! o)
             == default 0 (acc !! o) + owner_prizes (db c) o i ws)%Q)
    ∧ (∀ o, is_Some (pay !! o)
            ↔ is_Some (acc !! o) ∨ ∃ t, t ∈ ws ∧ get_ticket_owner (db c) t = o).
Proof.
  revert i acc. induction ws as [|t ws IH]; intros i acc Hlen.
  - exists acc. split; [done|]. split.
    + intros o. cbn. ring.
    + intros o. split; [by left|]. intros [?|(t & Ht & _)]; [done|].
      by apply elem_of_nil in Ht.
  - cbn [length] in Hlen.
    destruct (prize_in_range i) as [prize Hprize]; [lia|].
    cbn [payout_loop]. unfold mbind, M_bind, gets, index. rewrite Hprize.
    unfold mret at 1, M_ret at 1.
    set (owner := get_ticket_owner (db c) t).
    destruct (IH (S i) (<[owner := (default 0 (acc !! owner) + prize)%Q]> acc))
      as (pay & Hrun & Hsum & Hdom); [lia|].
    exists pay. split; [exact Hrun|]. split.
    + intros o. rewrite Hsum. cbn [owner_prizes]. fold owner. rewrite Hprize.
      destruct (decide (owner = o)) as [<-|Hne].
      * rewrite lookup_insert_eq, bool_decide_eq_true_2 by done.
        cbn [from_option]. unfold id. ring.
      * rewrite lookup_insert_ne, bool_decide_eq_false_2 by done.
        cbn [from_option]. unfold id. ring.
    + intros o. rewrite Hdom.
      destruct (decide (owner = o)) as [<-|Hne].
      * rewrite lookup_insert_eq. split; [|by left].
        intros _. right. exists t. split; [apply list_elem_of_here | done].
      * rewrite lookup_insert_ne by done. split.
        -- intros [?|(t' & Ht' & Ho)]; [by left|]. right. exists t'.
           split; [by apply list_elem_of_further | done].
        -- intros [?|(t' & Ht' & Ho)]; [by left|].
           apply elem_of_cons in Ht' as [->|Ht']; [done|].
           right. by exists t'.
Qed.

Section draw.
Variable MAX_TICKETS : Z.
Implicit Types (c : LotteryCore) (rng : nat → nat).

Lemma draw_not_ready c rng :
  count_sold_tickets (db c) < MAX_TICKETS →
  draw_winners MAX_TICKETS rng c = (c, Raise NotReady).
Proof.
  intros Hsold. unfold draw_winners, mbind, M_bind, gets.
  by rewrite bool_decide_eq_true_2 by done.
Qed.

Lemma draw_small_pool c rng :
  MAX_TICKETS ≤ count_sold_tickets (db c) →
  (length (get_all_active_tickets (db c)) < 3)%nat →
  draw_winners MAX_TICKETS rng c = (c, Raise InsufficientPool).
Proof.
  intros Hsold Hpool. unfold draw_winners, mbind, M_bind, gets.
  rewrite bool_decide_eq_false_2 by lia.
  by rewrite bool_decide_eq_true_2 by done.
Qed.

Lemma draw_accepted c rng :
  MAX_TICKETS ≤ count_sold_tickets (db c) →
  (3 ≤ length (get_all_active_tickets (db c)))%nat →
  let ws := sample_loop rng 0 3 (get_all_active_tickets (db c)) in
  ∃ pay,
    draw_winners MAX_TICKETS rng c
    = (drawn_state c ws, Ok (DrawResult ws pay BOT_FEE))
    ∧ (∀ o, (default 0 (pay !! o) == owner_prizes (db c) o 0 ws)%Q)
    ∧ (∀ o, is_Some (pay !! o) ↔ ∃ t, t ∈ ws ∧ get_ticket_owner (db c) t = o).
Proof.
  intros Hsold Hpool ws.
  assert (Hws : length ws = 3%nat).
  { apply sample_loop_spec; [done|]. apply ordered_NoDup. }
  destruct (payout_loop_ok c ws 0 ∅) as (pay & Hrun & Hsum & Hdom); [lia|].
  exists pay. split; [|split].
  - unfold draw_winners, mbind, M_bind, gets, random_sample.
    rewrite bool_decide_eq_false_2 by lia.
    rewrite bool_decide_eq_false_2 by lia.
    unfold mret at 1, M_ret at 1. fold ws. rewrite Hrun. done.
  - intros o. rewrite Hsum, lookup_empty. cbn. ring.
  - intros o. rewrite Hdom, lookup_empty. split; [|by right].
    intros [[? ?]|?]; done.
Qed.

Lemma draw_success_inv c rng c' r :
  draw_winners MAX_TICKETS rng c = (c', Ok r) →
  MAX_TICKETS ≤ count_sold_tickets (db c)
  ∧ (3 ≤ length (get_all_active_tickets (db c)))%nat.
Proof.
  intros Hrun.
  destruct (decide (count_sold_tickets (db c) < MAX_TICKETS)) as [Hlow|Hsold].
  { rewrite draw_not_ready in Hrun by done. congruence. }
  destruct (decide (length (get_all_active_tickets (db c)) < 3)%nat) as [Hfew|Hpool].
  { rewrite draw_small_pool in Hrun by (done || lia). congruence. }
  lia.
Qed.

(** C4, as the code has it: the draw raises [NotReady] when fewer tickets
    are active than the capacity; otherwise it raises [InsufficientPool]
    when the pool has fewer than three members; it succeeds exactly when the
    active count is at least the capacity (not only when it equals it) and
    the pool has three members; and whenever it raises, the ledger, draw
    records included, is the one it started from. *)
Theorem draw_winners_guards c rng :
  (count_sold_tickets (db c) < MAX_TICKETS →
     draw_winners MAX_TICKETS rng c = (c, Raise NotReady))
  ∧ (MAX_TICKETS ≤ count_sold_tickets (db c) →
     (length (get_all_active_tickets (db c)) < 3)%nat →
     draw_winners MAX_TICKETS rng c = (c, Raise InsufficientPool))
  ∧ ((∃ c' r, draw_winners MAX_TICKETS rng c = (c', Ok r))
     ↔ MAX_TICKETS ≤ count_sold_tickets (db c)
       ∧ (3 ≤ length (get_all_active_tickets (db c)))%nat)
  ∧ (∀ c' e, draw_winners MAX_TICKETS rng c = (c', Raise e) →
       c' = c ∧ (e = NotReady ∨ e = InsufficientPool)).
Proof.
  split; [apply draw_not_ready|]. split; [apply draw_small_pool|]. split.
  - split.
    + intros (c' & r & Hrun). by eapply draw_success_inv.
    + intros [Hsold Hpool].
      destruct (draw_accepted c rng Hsold Hpool) as (pay & Hrun & _).
      eauto.
  - intros c' e Hrun.
    destruct (decide (count_sold_tickets (db c) < MAX_TICKETS)) as [Hlow|Hsold].
    { rewrite draw_not_ready in Hrun by done. injection Hrun as <- <-. auto. }
    destruct (decide (length (get_all_active_tickets (db c)) < 3)%nat) as [Hfew|Hpool].
    { rewrite draw_small_pool in Hrun by (done || lia).
      injection Hrun as <- <-. auto. }
    destruct (draw_accepted c rng) as (pay & Hok & _); [lia | lia |].
    rewrite Hok in Hrun. congruence.
Qed.

(** C5: a successful draw returns three pairwise distinct ticket numbers,
    all of them active tickets of the ledger it ran on; the draw record
    pairs them, in order, with [PRIZES]; and the payouts map holds exactly
    the owners of the winning tickets, each with the sum of [PRIZES[i]] over
    the slots [i] they won. *)
Theorem draw_winners_pays c rng c' r :
  draw_winners MAX_TICKETS rng c = (c', Ok r) →
  length (winners r) = 3%nat
  ∧ NoDup (winners r)
  ∧ (∀ t, t ∈ winners r →
       t ∈ get_all_active_tickets (db c)
       ∧ ∃ u, tickets (db c) !! t = Some (TicketRow u true))
  ∧ draws (db c') = draws (db c) ++ [DrawRow (winners r) PRIZES]
  ∧ (∀ o, (default 0 (payouts r !! o)
           == owner_prizes (db c) o 0 (winners r))%Q)
  ∧ (∀ o, is_Some (payouts r !! o)
          ↔ ∃ t, t ∈ winners r ∧ get_ticket_owner (db c) t = o)
  ∧ bot_fee r = BOT_FEE.
Proof.
  intros Hrun. destruct (draw_success_inv _ _ _ _ Hrun) as [Hsold Hpool].
  destruct (draw_accepted c rng Hsold Hpool) as (pay & Hok & Hsum & Hdom).
  rewrite Hok in Hrun. injection Hrun as <- <-.
  cbn [winners payouts bot_fee].
  destruct (sample_loop_spec rng 3 0 (get_all_active_tickets (db c)))
    as (Hlen & Hnd & Hsub); [done | apply ordered_NoDup |].
  split; [done|]. split; [done|]. split; [|done].
  intros t Ht. apply Hsub in Ht. split; [done|]. by apply pool_elem.
Qed.

(** C9: a successful draw leaves users, tickets, payments and the cursor
    as they were and appends one draw record; a second draw right after it
    succeeds as well, samples from the same pool with whatever its own
    random draws are, and appends a second record. *)
Theorem draw_winners_repeatable c rng rng' c1 r1 :
  draw_winners MAX_TICKETS rng c = (c1, Ok r1) →
  users (db c1) = users (db c)
  ∧ tickets (db c1) = tickets (db c)
  ∧ payments (db c1) = payments (db c)
  ∧ next_ticket c1 = next_ticket c
  ∧ draws (db c1) = draws (db c) ++ [DrawRow (winners r1) PRIZES]
  ∧ ∃ c2 r2,
      draw_winners MAX_TICKETS rng' c1 = (c2, Ok r2)
      ∧ winners r2 = sample_loop rng' 0 3 (get_all_active_tickets (db c))
      ∧ tickets (db c2) = tickets (db c)
      ∧ payments (db c2) = payments (db c)
      ∧ draws (db c2)
        = draws (db c)
            ++ [DrawRow (winners r1) PRIZES; DrawRow (winners r2) PRIZES].
Proof.
  intros Hrun. destruct (draw_success_inv _ _ _ _ Hrun) as [Hsold Hpool].
  destruct (draw_accepted c rng Hsold Hpool) as (pay & Hok & _).
  rewrite Hok in Hrun. injection Hrun as <- <-.
  cbn [winners drawn_state db set_draws users tickets payments draws next_ticket].
  do 5 (split; [done|]).
  set (c1 := drawn_state c (sample_loop rng 0 3 (get_all_active_tickets (db c)))).
  assert (Hsame : get_all_active_tickets (db c1) = get_all_active_tickets (db c)) by done.
  destruct (draw_accepted c1 rng') as (pay' & Hok' & _).
  { done. }
  { by rewrite Hsame. }
  rewrite Hsame in Hok'. eexists _, _. split; [exact Hok'|].
  unfold c1.
  cbn [winners drawn_state db set_draws users tickets payments draws next_ticket].
  by rewrite <- app_assoc.
Qed.

(** With a capacity of three or more the pool check can never fire. *)
Lemma insufficient_pool_unreachable c rng c' :
  3 ≤ MAX_TICKETS →
  draw_winners MAX_TICKETS rng c ≠ (c', Raise InsufficientPool).
Proof.
  intros Hcap Hrun.
  destruct (decide (count_sold_tickets (db c) < MAX_TICKETS)) as [Hlow|Hsold].
  { rewrite draw_not_ready in Hrun by done. congruence. }
  pose proof (pool_size (db c)) as Hsize.
  destruct (draw_accepted c rng) as (pay & Hok & _); [lia | lia |].
  rewrite Hok in Hrun. congruence.
Qed.

End draw.

(** ** Ledgers with every ticket paid *)

Lemma paid_ledger_sold (n : Z) : count_sold_tickets (db (paid_ledger n)) = Z.max 0 n.
Proof.
  unfold count_sold_tickets, paid_ledger. cbn [db tickets].
  rewrite map_filter_id.
  - rewrite map_size_list_to_map.
    + rewrite length_fmap, length_seqZ. lia.
    + rewrite <- list_fmap_compose.
      rewrite (list_fmap_ext _ id (seqZ 1 n)) by done.
      rewrite list_fmap_id. apply NoDup_seqZ.
  - intros t r Hr. apply elem_of_list_to_map_2, list_elem_of_fmap in Hr.
    by destruct Hr as (t' & [= -> ->] & _).
Qed.

Example draw_paid_3 :
  draw_winners 3 (λ i, i) (paid_ledger 3)
  = (drawn_state (paid_ledger 3) [1; 2; 3],
     Ok (DrawResult [1; 2; 3] payouts_1001_twice BOT_FEE)).
Proof. reflexivity. Qed.

(** The specification's example: one owner holding the tickets drawn into
    slots 0 and 2 of prizes (2500, 1500, 500) is paid 3000. *)
Example slots_0_and_2_pay_3000 :
  Qeq (owner_prizes (db (paid_ledger 3)) (Some "1001") 0 [1; 2; 3]) (inject_Z 3000)
  ∧ payouts_1001_twice !! Some "1001" = Some (inject_Z 3000).
Proof. split; reflexivity. Qed.

Lemma draw_winners_guards_witness :
  draw_winners Main.MAX_TICKETS (λ i, i) one_reservation
  = (one_reservation, Raise NotReady)
  ∧ draw_winners 2 (λ i, i) (paid_ledger 2) = (paid_ledger 2, Raise InsufficientPool)
  ∧ ∃ c' r, draw_winners 3 (λ i, i) (paid_ledger 3) = (c', Ok r).
Proof.
  split; [|split].
  - apply (draw_winners_guards Main.MAX_TICKETS one_reservation (λ i, i)).
    by vm_compute.
  - apply (draw_winners_guards 2 (paid_ledger 2) (λ i, i)).
    + by vm_compute.
    + vm_compute. lia.
  - apply (draw_winners_guards 3 (paid_ledger 3) (λ i, i)). split.
    + by vm_compute.
    + vm_compute. lia.
Defined.

(** Against C4 as stated: on the source's capacity of 10000, a ledger with
    10001 active tickets is drawn from although the count is not the
    capacity. *)
Lemma draw_above_capacity_counterexample :
  count_sold_tickets (db (paid_ledger 10001)) = 10001
  ∧ 10001 ≠ Main.MAX_TICKETS
  ∧ ∃ c' r, draw_winners Main.MAX_TICKETS (λ i, i) (paid_ledger 10001) = (c', Ok r).
Proof.
  assert (Hsold : count_sold_tickets (db (paid_ledger 10001)) = 10001).
  { etrans; [apply paid_ledger_sold | reflexivity]. }
  split; [exact Hsold|]. split; [discriminate|].
  destruct (draw_accepted Main.MAX_TICKETS (paid_ledger 10001) (λ i, i))
    as (pay & Hrun & _).
  - rewrite Hsold. discriminate.
  - pose proof (pool_size (db (paid_ledger 10001))) as Hpool.
    rewrite Hsold in Hpool. clear Hsold.
    generalize dependent (length (get_all_active_tickets (db (paid_ledger 10001)))).
    intros n Hn. lia.
  - eauto.
Qed.

Lemma draw_winners_pays_witness :
  length [1; 2; 3] = 3%nat
  ∧ NoDup [1; 2; 3]
  ∧ (∀ t, t ∈ [1; 2; 3] →
       t ∈ get_all_active_tickets (db (paid_ledger 3))
       ∧ ∃ u, tickets (db (paid_ledger 3)) !! t = Some (TicketRow u true))
  ∧ draws (db (drawn_state (paid_ledger 3) [1; 2; 3])) = [DrawRow [1; 2; 3] PRIZES]
  ∧ (∀ o, Qeq (default 0%Q (payouts_1001_twice !! o))
              (owner_prizes (db (paid_ledger 3)) o 0 [1; 2; 3]))
  ∧ (∀ o, is_Some (payouts_1001_twice !! o)
          ↔ ∃ t, t ∈ [1; 2; 3] ∧ get_ticket_owner (db (paid_ledger 3)) t = o)
  ∧ BOT_FEE = BOT_FEE.
Proof.
  apply (draw_winners_pays 3 (paid_ledger 3) (λ i, i)
           (drawn_state (paid_ledger 3) [1; 2; 3])
           (DrawResult [1; 2; 3] payouts_1001_twice BOT_FEE)).
  reflexivity.
Defined.

Lemma draw_winners_repeatable_witness :
  ∃ c2 r2,
    draw_winners 3 (λ i, 2 * i)%nat (drawn_state (paid_ledger 3) [1; 2; 3])
    = (c2, Ok r2)
    ∧ winners r2 = [1; 3; 2]
    ∧ draws (db c2) = [DrawRow [1; 2; 3] PRIZES; DrawRow [1; 3; 2] PRIZES].
Proof.
  destruct (draw_winners_repeatable 3 (paid_ledger 3) (λ i, i) (λ i, 2 * i)%nat
              (drawn_state (paid_ledger 3) [1; 2; 3])
              (DrawResult [1; 2; 3] payouts_1001_twice BOT_FEE))
    as (_ & _ & _ & _ & _ & c2 & r2 & Hrun & Hws & _ & _ & Hdraws).
  - reflexivity.
  - exists c2, r2. split; [exact Hrun|]. split; [exact Hws|].
    rewrite Hdraws, Hws. reflexivity.
Defined.

(** ** The capacity bound *)

(** C6 fails on the code.  [reserve_tickets] checks the capacity against
    the active tickets only and [activate_payment] checks nothing, so
    reservations made while nothing is paid can all be confirmed: on the
    source's capacity of 10000 the operations of [oversell_ops] reach a
    ledger with 10100 active tickets. *)
Lemma oversold_ledger_reachable :
  reachable Main.MAX_TICKETS (run Main.MAX_TICKETS oversell_ops empty_ledger)
  ∧ count_sold_tickets (db (run Main.MAX_TICKETS oversell_ops empty_ledger)) = 10100
  ∧ Main.MAX_TICKETS < 10100.
Proof.
  split; [by exists oversell_ops|]. split; [|done].
  vm_compute. reflexivity.
Qed.

(** ** Invoice ids in reachable ledgers *)

Lemma append_cons (ch : ascii) (s1 s2 : string) :
  String ch s1 +:+ s2 = String ch (s1 +:+ s2).
Proof. reflexivity. Qed.

Lemma append_assoc (s1 s2 s3 : string) : (s1 +:+ s2) +:+ s3 = s1 +:+ s2 +:+ s3.
Proof.
  induction s1 as [|ch s1 IH]; [done|]. by rewrite !append_cons, IH.
Qed.

Lemma dash_free_app_dash (s d : string) : ¬ dash_free (s +:+ String "-" d).
Proof.
  induction s as [|ch s IH].
  - intros [Hne _]. done.
  - rewrite append_cons. intros [_ Hrest]. done.
Qed.

(** The text after the last [-] of a string is determined by the string. *)
Lemma after_last_dash (s1 s2 d1 d2 : string) :
  dash_free d1 → dash_free d2 →
  s1 +:+ String "-" d1 = s2 +:+ String "-" d2 → d1 = d2.
Proof.
  intros Hd1 Hd2. revert s2.
  induction s1 as [|ch s1 IH]; intros [|ch' s2]; rewrite ?append_cons.
  - by intros [= ].
  - change ("" +:+ String "-" d1) with (String "-" d1). intros [= _ ->].
    by destruct (dash_free_app_dash s2 d2).
  - change ("" +:+ String "-" d2) with (String "-" d2). intros [= _ <-].
    by destruct (dash_free_app_dash s1 d1).
  - intros [= _ Heq]. by eapply IH.
Qed.

Lemma pretty_N_char_no_dash (x : N) : pretty_N_char x ≠ "-"%char.
Proof. unfold pretty_N_char. by repeat case_match. Qed.

Lemma pretty_N_go_dash_free (x : N) (s : string) :
  dash_free s → dash_free (pretty_N_go x s).
Proof.
  revert s. induction (N.lt_wf_0 x) as [x _ IH]; intros s Hs.
  assert (x = 0 ∨ 0 < x)%N as [->|Hpos] by lia.
  - by rewrite pretty_N_go_0.
  - rewrite pretty_N_go_step by done. apply IH.
    + by apply N.div_lt.
    + split; [apply pretty_N_char_no_dash | done].
Qed.

Lemma pretty_Z_dash_free (b : Z) : 0 ≤ b → dash_free (pretty b).
Proof.
  intros Hb. destruct b as [|x|x]; [cbn; split; done | | lia].
  unfold pretty, pretty_Z, pretty, pretty_positive, pretty, pretty_N.
  case_decide; [done|]. by apply pretty_N_go_dash_free.
Qed.

(** Two invoice ids built by [reserve_tickets] that agree end in the same
    ticket number. *)
Lemma invoice_last_inj (u u' : string) (a a' b b' : Z) :
  0 ≤ b → 0 ≤ b' →
  u +:+ "-" +:+ pretty a +:+ "-" +:+ pretty b
  = u' +:+ "-" +:+ pretty a' +:+ "-" +:+ pretty b' →
  b = b'.
Proof.
  intros Hb Hb' Heq. apply (inj pretty).
  apply (after_last_dash (u +:+ "-" +:+ pretty a) (u' +:+ "-" +:+ pretty a'));
    [by apply pretty_Z_dash_free | by apply pretty_Z_dash_free |].
  by rewrite !append_assoc.
Qed.

Lemma filed_below_mono (n n' : Z) (p : payment_row) :
  n ≤ n' → filed_below n p → filed_below n' p.
Proof. intros Hle (u & a & b & Hid & Hb). exists u, a, b. split; [done | lia]. Qed.

Lemma open_count_absent (invoice : string) (ps : list payment_row) :
  invoice ∉ invoice_id <$> ps → open_count invoice ps = 0%nat.
Proof.
  induction ps as [|p ps IH]; [done|].
  rewrite fmap_cons, not_elem_of_cons, open_count_cons. intros [Hne Hrest].
  rewrite (IH Hrest). unfold is_open.
  by rewrite bool_decide_eq_false_2 by done.
Qed.

Lemma unique_open_count (invoice : string) (ps : list payment_row) :
  NoDup (invoice_id <$> ps) → (open_count invoice ps ≤ 1)%nat.
Proof.
  induction ps as [|p ps IH]; [cbn; lia|].
  rewrite fmap_cons, NoDup_cons, open_count_cons. intros [Hfresh Hnd].
  destruct (is_open invoice p) eqn:Hp.
  - apply andb_prop in Hp as [Hid _]. apply bool_decide_eq_true in Hid.
    rewrite Hid in Hfresh. rewrite (open_count_absent _ _ Hfresh). lia.
  - specialize (IH Hnd). lia.
Qed.

Section invariant.
Variable MAX_TICKETS : Z.
Implicit Types (c : LotteryCore).

Lemma inv_empty : ledger_inv empty_ledger.
Proof. split; [done | constructor | constructor]. Qed.

Lemma inv_reserve c u q :
  ledger_inv c → ledger_inv (reserve_tickets MAX_TICKETS u q c).1.
Proof.
  intros [Hcur Hfiled Huniq].
  destruct (reserve_cases MAX_TICKETS c u q)
    as [[_ Hr]|[[_ Hr]|[[_ Hr]|[[Hq _] Hr]]]]; rewrite Hr; cbn [fst]; try done.
  split; cbn [reserved_state db next_ticket payments].
  - lia.
  - apply Forall_app. split.
    + eapply Forall_impl; [exact Hfiled|]. intros p. apply filed_below_mono. lia.
    + apply Forall_singleton. exists u, (next_ticket c), (next_ticket c + q - 1).
      split; [done | lia].
  - rewrite fmap_app. apply NoDup_app. split; [done|]. split; [|apply NoDup_singleton].
    intros id Hid Hnew. apply list_elem_of_singleton in Hnew. cbn in Hnew. subst id.
    apply list_elem_of_fmap in Hid as (p & Hp & Hin).
    rewrite Forall_forall in Hfiled.
    destruct (Hfiled p Hin) as (u' & a' & b' & Hid' & Hb').
    rewrite Hid' in Hp. apply invoice_last_inj in Hp; lia.
Qed.

Lemma inv_activate c invoice tx :
  ledger_inv c → ledger_inv (activate_payment invoice tx c).1.
Proof.
  intros [Hcur Hfiled Huniq].
  destruct (activate_frame c invoice tx) as (_ & _ & Hnext & Hpay & _).
  destruct (last_open invoice 0 (payments (db c))) as [[i p]|] eqn:Hfound.
  2:{ by rewrite activate_missing. }
  destruct (last_open_Some invoice tx _ _ _ _ Hfound) as (k & Hk & Hrow & _).
  simpl in Hk. subst k.
  split; rewrite ?Hnext, ?Hpay.
  - done.
  - apply Forall_insert; [done|].
    rewrite Forall_lookup in Hfiled. exact (Hfiled i p Hrow).
  - rewrite list_fmap_insert. cbn [confirm_row invoice_id].
    rewrite list_insert_id; [done|]. by rewrite list_lookup_fmap, Hrow.
Qed.

Lemma inv_draw c rng :
  ledger_inv c → ledger_inv (draw_winners MAX_TICKETS rng c).1.
Proof.
  intros Hinv.
  destruct (decide (count_sold_tickets (db c) < MAX_TICKETS)) as [Hlow|Hsold].
  { by rewrite draw_not_ready. }
  destruct (decide (length (get_all_active_tickets (db c)) < 3)%nat) as [Hfew|Hpool].
  { by rewrite draw_small_pool by (done || lia). }
  destruct (draw_accepted MAX_TICKETS c rng) as (pay & Hrun & _); [lia | lia |].
  rewrite Hrun. by destruct Hinv.
Qed.

Lemma inv_step c o : ledger_inv c → ledger_inv (step MAX_TICKETS c o).
Proof.
  destruct o; [apply inv_reserve | apply inv_activate | apply inv_draw].
Qed.

Lemma reachable_inv c : reachable MAX_TICKETS c → ledger_inv c.
Proof.
  intros [ops ->]. induction ops as [|o ops IH] using rev_ind.
  - apply inv_empty.
  - unfold run. rewrite foldl_snoc. by apply inv_step.
Qed.

(** In a reachable ledger an invoice id is filed on at most one payment
    row, so at most one unconfirmed row carries it. *)
Lemma reachable_open_count c invoice :
  reachable MAX_TICKETS c → (open_count invoice (payments (db c)) ≤ 1)%nat.
Proof. intros Hc. by apply unique_open_count, reachable_inv. Qed.

(** C1, as the code has it: in a ledger reached from the empty one through
    the three operations, or in any ledger where the invoice id is filed on
    at most one unconfirmed payment row, when the first confirmation
    succeeds, a second confirmation of the same id, with any transaction
    hash, returns the not-found / already-confirmed result and leaves the
    ledger exactly as the first call left it; the tickets the first call
    returned are active rows of the owner. *)
Theorem confirm_twice_rejected c c1 invoice tx tx2 ts u a :
  activate_payment invoice tx c = (c1, Ok (Activated ts u a)) →
  reachable MAX_TICKETS c ∨ (open_count invoice (payments (db c)) ≤ 1)%nat →
  activate_payment invoice tx2 c1
  = (c1, Ok (NotActivated "invoice_not_found_or_already_confirmed"))
  ∧ (∀ t, t ∈ ts → tickets (db c1) !! t = Some (TicketRow u true)).
Proof.
  intros Hfirst Hone.
  assert (Hone' : (open_count invoice (payments (db c)) ≤ 1)%nat).
  { destruct Hone as [Hreach|Hone]; [by apply reachable_open_count | done]. }
  destruct (last_open invoice 0 (payments (db c))) as [[i p]|] eqn:Hfound.
  - destruct (activate_found_inv _ _ _ _ _ _ _ Hfound Hfirst) as (-> & Hr & _).
    injection Hr as -> -> ->. split.
    + apply activate_missing, last_open_None.
      rewrite (activate_closes_one _ _ _ _ _ Hfound). lia.
    + intros t Ht. unfold confirmed_state. cbn [db tickets].
      rewrite activate_tickets_lookup, bool_decide_eq_true_2 by done.
      by rewrite (pending_desc_elem _ _ _ _ Ht).
  - rewrite (activate_missing _ _ _ Hfound) in Hfirst. congruence.
Qed.

End invariant.

Lemma confirm_twice_rejected_witness :
  let c1 := (activate_payment "u1-1-3" "0xabc" one_reservation).1 in
  activate_payment "u1-1-3" "0xdef" c1
  = (c1, Ok (NotActivated "invoice_not_found_or_already_confirmed"))
  ∧ (∀ t, t ∈ [3; 2; 1] → tickets (db c1) !! t = Some (TicketRow "u1" true)).
Proof.
  intros c1.
  apply (confirm_twice_rejected Main.MAX_TICKETS one_reservation c1
           "u1-1-3" "0xabc" "0xdef" [3; 2; 1] "u1" (3 # 2)).
  - reflexivity.
  - left. by exists [Reserve "u1" 3].
Defined.


(** * Further properties *)

(** ** Counting rows *)

Section counting.
Context (P : Z * ticket_row → Prop) `{!∀ kv, Decision (P kv)}.
Implicit Types (m : gmap Z ticket_row) (t : Z) (r : ticket_row).

Lemma size_filter_insert_fresh m t r :
  m !! t = None →
  size (filter P (<[t := r]> m)) = (size (filter P m) + hits P (t, r))%nat.
Proof.
  intros Hfresh. unfold hits. rewrite map_filter_insert. case_decide.
  - rewrite map_size_insert_None; [lia|].
    apply map_lookup_filter_None. by left.
  - rewrite delete_id by done. lia.
Qed.

Lemma size_filter_alter m t r (f : ticket_row → ticket_row) :
  m !! t = Some r →
  (size (filter P (alter f t m)) + hits P (t, r)
   = size (filter P m) + hits P (t, f r))%nat.
Proof.
  intros Hrow. rewrite (alter_alt_Some f m t r Hrow). unfold hits.
  rewrite map_filter_insert.
  assert (Hold : filter P m !! t = if decide (P (t, r)) then Some r else None).
  { case_decide.
    - by apply map_lookup_filter_Some.
    - apply map_lookup_filter_None. right. intros r' Hr'. congruence. }
  destruct (decide (P (t, f r))) as [Hnew|Hnew].
  - rewrite map_size_insert, Hold. destruct (decide (P (t, r))); simpl; lia.
  - rewrite map_filter_delete, map_size_delete, Hold.
    destruct (decide (P (t, r))) as [Hp|Hp]; simpl; [|lia].
    assert (size (filter P m) ≠ 0)%nat; [|lia].
    apply (map_size_ne_0_lookup_2 _ t). by rewrite Hold.
Qed.

(** Writing fresh rows that all count alike. *)
Lemma size_filter_add (u : string) (ts : list Z) m (b : nat) :
  NoDup ts → (∀ t, t ∈ ts → m !! t = None) →
  (∀ t, t ∈ ts → hits P (t, TicketRow u false) = b) →
  size (filter P (foldl (λ m t, <[t := TicketRow u false]> m) m ts))
  = (size (filter P m) + length ts * b)%nat.
Proof.
  revert m. induction ts as [|t ts IH]; intros m Hnd Hfresh Hb.
  { cbn. lia. }
  apply NoDup_cons in Hnd as [Ht Hnd]. cbn [foldl length].
  rewrite IH; [| done | |].
  - rewrite size_filter_insert_fresh by (apply Hfresh; left).
    rewrite (Hb t) by left. lia.
  - intros t' Ht'. rewrite lookup_insert_ne by (intros ->; done).
    apply Hfresh. by right.
  - intros t' Ht'. apply Hb. by right.
Qed.

(** Activating rows that all counted alike before, and alike after. *)
Lemma size_filter_activate (ts : list Z) m (a b : nat) :
  NoDup ts →
  (∀ t, t ∈ ts → ∃ r, m !! t = Some r ∧ hits P (t, r) = a
                       ∧ hits P (t, activate_row r) = b) →
  (size (filter P (foldl (λ m t, alter activate_row t m) m ts)) + length ts * a
   = size (filter P m) + length ts * b)%nat.
Proof.
  revert m. induction ts as [|t ts IH]; intros m Hnd Hrows.
  { cbn. lia. }
  apply NoDup_cons in Hnd as [Ht Hnd]. cbn [foldl length].
  destruct (Hrows t) as (r & Hr & Ha & Hb); [left|].
  pose proof (size_filter_alter m t r activate_row Hr) as Hstep.
  rewrite Ha, Hb in Hstep.
  specialize (IH (alter activate_row t m) Hnd). 
  assert (Hrest : (size (filter P (foldl (λ m t, alter activate_row t m)
                                    (alter activate_row t m) ts)) + length ts * a
                   = size (filter P (alter activate_row t m)) + length ts * b)%nat).
  { apply IH. intros t' Ht'. rewrite lookup_alter_ne by (intros ->; done).
    apply Hrows. by right. }
  lia.
Qed.

End counting.

(** ** Quantities owed and paid *)

Lemma expected_qty_confirm_row (tx : string) (p : payment_row) :
  expected_qty (confirm_row tx p) = expected_qty p.
Proof. done. Qed.

Lemma owed_app (u : string) (ps qs : list payment_row) :
  owed u (ps ++ qs) = owed u ps + owed u qs.
Proof. induction ps as [|p ps IH]; cbn [owed app]; lia. Qed.

Lemma paid_app (ps qs : list payment_row) : paid (ps ++ qs) = paid ps + paid qs.
Proof. induction ps as [|p ps IH]; cbn [paid app]; lia. Qed.

Lemma owed_confirm (u tx : string) (ps : list payment_row) (i : nat) (p : payment_row) :
  ps !! i = Some p → confirmed p = false →
  owed u (<[i := confirm_row tx p]> ps)
  = owed u ps - (if bool_decide (p_telegram_id p = u) then expected_qty p else 0).
Proof.
  revert i. induction ps as [|p0 ps IH]; intros [|i] Hrow Hopen; try done.
  - injection Hrow as ->.
    change (<[0%nat := confirm_row tx p]> (p :: ps)) with (confirm_row tx p :: ps).
    cbn [owed confirm_row p_telegram_id confirmed]. rewrite Hopen.
    rewrite andb_false_r. cbn [negb]. rewrite andb_true_r. lia.
  - change (<[S i := confirm_row tx p]> (p0 :: ps))
      with (p0 :: <[i := confirm_row tx p]> ps).
    cbn [owed]. rewrite (IH i) by done. lia.
Qed.

Lemma paid_confirm (tx : string) (ps : list payment_row) (i : nat) (p : payment_row) :
  ps !! i = Some p → confirmed p = false →
  paid (<[i := confirm_row tx p]> ps) = paid ps + expected_qty p.
Proof.
  revert i. induction ps as [|p0 ps IH]; intros [|i] Hrow Hopen; try done.
  - injection Hrow as ->.
    change (<[0%nat := confirm_row tx p]> (p :: ps)) with (confirm_row tx p :: ps).
    cbn [paid confirm_row confirmed]. rewrite Hopen.
    rewrite expected_qty_confirm_row. lia.
  - change (<[S i := confirm_row tx p]> (p0 :: ps))
      with (p0 :: <[i := confirm_row tx p]> ps).
    cbn [paid]. rewrite (IH i) by done. lia.
Qed.

Lemma owed_nonneg (u : string) (ps : list payment_row) :
  Forall (λ p, 0 ≤ expected_qty p) ps → 0 ≤ owed u ps.
Proof.
  induction 1 as [|p ps Hp _ IH]; cbn [owed]; [lia|].
  destruct (_ && _); lia.
Qed.

(** An unconfirmed row's quantity is part of what its owner is owed. *)
Lemma owed_covers (ps : list payment_row) (i : nat) (p : payment_row) :
  Forall (λ p, 0 ≤ expected_qty p) ps →
  ps !! i = Some p → confirmed p = false →
  expected_qty p ≤ owed (p_telegram_id p) ps.
Proof.
  intros Hall. revert i. induction Hall as [|p0 ps Hp0 Hall IH]; intros [|i] Hrow Hopen;
    try done.
  - injection Hrow as ->. cbn [owed]. rewrite Hopen, bool_decide_eq_true_2 by done.
    cbn [negb andb]. pose proof (owed_nonneg (p_telegram_id p) ps Hall). lia.
  - cbn [owed]. specialize (IH i Hrow Hopen). destruct (_ && _); lia.
Qed.

Lemma is_open_unconfirmed (invoice : string) (p : payment_row) :
  is_open invoice p = true → invoice_id p = invoice ∧ confirmed p = false.
Proof.
  unfold is_open. intros [Hid Hc]%andb_prop.
  apply bool_decide_eq_true in Hid. by destruct (confirmed p).
Qed.

Lemma sold_quantity (p : payment_row) (q : Z) :
  Qeq (amount p) (TICKET_PRICE * inject_Z q) → expected_qty p = q.
Proof. apply expected_qty_exact. Qed.

Lemma amounts_nonneg (ps : list payment_row) :
  Forall (λ p, ∃ q, 1 ≤ q ≤ 100 ∧ Qeq (amount p) (TICKET_PRICE * inject_Z q)) ps →
  Forall (λ p, 0 ≤ expected_qty p) ps.
Proof.
  intros Hall. eapply Forall_impl; [exact Hall|].
  intros p (q & Hq & Hamt). rewrite (sold_quantity p q Hamt). lia.
Qed.

(** ** The books of a reachable ledger *)

Section bookkeeping.
Variable MAX_TICKETS : Z.
Implicit Types (c : LotteryCore).

Lemma books_empty : books empty_ledger.
Proof.
  assert (Hn : next_ticket empty_ledger = 1) by reflexivity.
  assert (Htk : tickets (db empty_ledger) = ∅) by reflexivity.
  assert (Hps : payments (db empty_ledger) = []) by reflexivity.
  split; rewrite ?Hn, ?Htk, ?Hps.
  - done.
  - intros t. rewrite lookup_empty. split; [by intros [? ?] | lia].
  - intros t r. by rewrite lookup_empty.
  - constructor.
  - constructor.
  - intros u. by rewrite map_filter_empty, map_size_empty.
  - unfold count_sold_tickets. by rewrite Htk, map_filter_empty, map_size_empty.
Qed.

(** In a ledger that keeps its books, a confirmation finds all the tickets
    it asks for. *)
Lemma books_full_activation c invoice i p :
  books c → last_open invoice 0 (payments (db c)) = Some (i, p) →
  payments (db c) !! i = Some p
  ∧ confirmed p = false
  ∧ 1 ≤ expected_qty p ≤ 100
  ∧ Z.of_nat (length (pending_desc (db c) (p_telegram_id p) (expected_qty p)))
    = expected_qty p.
Proof.
  intros Hb Hfound.
  destruct (last_open_Some invoice "" _ _ _ _ Hfound) as (k & Hk & Hrow & Hopen & _).
  simpl in Hk. subst k.
  apply is_open_unconfirmed in Hopen as [_ Hopen].
  pose proof (bk_amounts c Hb) as Hamt.
  assert (Hq : 1 ≤ expected_qty p ≤ 100).
  { rewrite Forall_lookup in Hamt. destruct (Hamt i p Hrow) as (q & Hq & Ha).
    by rewrite (sold_quantity p q Ha). }
  split; [done|]. split; [done|]. split; [done|].
  rewrite pending_desc_take by lia. rewrite length_take, ordered_length.
  pose proof (bk_pending c Hb (p_telegram_id p)) as Hpend.
  pose proof (owed_covers _ i p (amounts_nonneg _ Hamt) Hrow Hopen). lia.
Qed.

Lemma pending_desc_NoDup (d : DB) (u : string) (k : Z) :
  NoDup (pending_desc d u k).
Proof.
  pose proof (ordered_NoDup (is_pending_of u) Zdesc (tickets d)) as Hall.
  unfold pending_desc, sql_limit. case_bool_decide; [done|].
  eapply sublist_NoDup; [exact Hall | apply sublist_take].
Qed.

Lemma hits_pending (u u' : string) (t : Z) (a : bool) :
  hits (is_pending_of u') (t, TicketRow u a)
  = if bool_decide (u = u') && negb a then 1%nat else 0%nat.
Proof.
  unfold hits.
  destruct (decide (is_pending_of u' (t, TicketRow u a))) as [[Hu Ha]|Hn];
    cbn in *.
  - subst. by rewrite bool_decide_eq_true_2 by done.
  - destruct a; [by rewrite andb_false_r|]. rewrite andb_true_r.
    destruct (bool_decide_reflect (u = u')) as [Heq|Hne]; [|done].
    destruct Hn. by split.
Qed.

Lemma hits_active (u : string) (t : Z) (a : bool) :
  hits is_active (t, TicketRow u a) = if a then 1%nat else 0%nat.
Proof. unfold hits, is_active. cbn. destruct a; case_decide; naive_solver. Qed.

Lemma users_after_ensure (u : string) (us : gset string) :
  let us' := if bool_decide (u ∈ us) then us else {[u]} ∪ us in
  u ∈ us' ∧ us ⊆ us'.
Proof. cbn. case_bool_decide; set_solver. Qed.

(** While the cursor is in range, the table is a SQLite table and every
    reservation the guards let through fits. *)
Lemma books_sqlite_db c : books c → cursor_in_range c → sqlite_db (db c).
Proof.
  intros Hb Hc t Ht. apply (bk_dense c Hb) in Ht.
  unfold cursor_in_range, CURSOR_MAX, SQLITE_MAX, SQLITE_MIN in *. lia.
Qed.

Lemma books_reserve c u q :
  books c → cursor_in_range c → books (reserve_tickets MAX_TICKETS u q c).1.
Proof.
  intros Hb Hc.
  destruct (reserve_cases MAX_TICKETS c u q)
    as [[_ Hr]|[[_ Hr]|[[(Hq & _ & Hout) _]|[[Hq _] Hr]]]].
  1,2: by rewrite Hr.
  { pose proof (bk_cursor c Hb).
    unfold cursor_in_range, CURSOR_MAX, SQLITE_MAX, SQLITE_MIN in *. lia. }
  rewrite Hr. cbn [fst].
  destruct Hb as [Hcur Hdense Htu Hpu Hamt Hpend Hsold].
  destruct (users_after_ensure u (users (db c))) as [Hu Hus].
  assert (Hfresh : ∀ t, t ∈ seqZ (next_ticket c) q → tickets (db c) !! t = None).
  { intros t Ht%elem_of_seqZ. apply eq_None_not_Some. rewrite Hdense. lia. }
  assert (Hnew : expected_qty
            (PaymentRow u (u +:+ "-" +:+ pretty (next_ticket c) +:+ "-"
                             +:+ pretty (next_ticket c + q - 1))
               (round6 (inject_Z q * TICKET_PRICE)) "" false) = q).
  { apply sold_quantity. cbn [amount]. rewrite round6_price. apply Qmult_comm. }
  split; cbn [reserved_state db next_ticket users tickets payments draws].
  - lia.
  - intros t. rewrite add_tickets_lookup.
    rewrite (bool_decide_ext _ _ (elem_of_seqZ (next_ticket c) q t)).
    destruct (bool_decide_reflect (next_ticket c ≤ t < next_ticket c + q)) as [Hin|Hin].
    + split; [lia | by eexists].
    + rewrite Hdense. lia.
  - intros t r. rewrite add_tickets_lookup.
    destruct (bool_decide_reflect (t ∈ seqZ (next_ticket c) q)) as [Hin|Hin].
    + by intros [= <-].
    + intros Hr'. apply Hus. by eapply Htu.
  - apply Forall_app. split.
    + eapply Forall_impl; [exact Hpu|]. intros p Hp. by apply Hus.
    + by apply Forall_singleton.
  - apply Forall_app. split; [done|]. apply Forall_singleton.
    exists q. split; [lia|]. cbn [amount]. rewrite round6_price. apply Qmult_comm.
  - intros u'.
    rewrite (size_filter_add (is_pending_of u') u _ _
               (if bool_decide (u = u') then 1%nat else 0%nat));
      [| apply NoDup_seqZ | exact Hfresh |].
    2:{ intros t _. rewrite hits_pending. by destruct (bool_decide (u = u')). }
    rewrite owed_app, <- Hpend, length_seqZ. cbn [owed p_telegram_id confirmed].
    rewrite Hnew. destruct (bool_decide (u = u')); cbn [andb negb]; lia.
  - unfold count_sold_tickets in *. cbn [db tickets].
    rewrite (size_filter_add is_active u _ _ 0%nat);
      [| apply NoDup_seqZ | exact Hfresh |].
    2:{ intros t _. by rewrite hits_active. }
    rewrite paid_app, <- Hsold. cbn [paid confirmed]. lia.
Qed.

(** In a ledger that keeps its books a confirmation that finds a payment
    goes through. *)
Lemma books_activate_found c invoice tx i p :
  books c → cursor_in_range c →
  last_open invoice 0 (payments (db c)) = Some (i, p) →
  activate_payment invoice tx c
  = (confirmed_state c i p tx,
     Ok (Activated (pending_desc (db c) (p_telegram_id p) (expected_qty p))
           (p_telegram_id p) (amount p))).
Proof.
  intros Hb Hc Hfound.
  destruct (books_full_activation c invoice i p Hb Hfound) as (_ & _ & Hq & _).
  apply activate_found; [done | | by apply books_sqlite_db].
  fold (expected_qty p). unfold SQLITE_MAX, SQLITE_MIN. lia.
Qed.

Lemma books_activate c invoice tx :
  books c → cursor_in_range c → books (activate_payment invoice tx c).1.
Proof.
  intros Hb Hc.
  destruct (last_open invoice 0 (payments (db c))) as [[i p]|] eqn:Hfound.
  2:{ by rewrite activate_missing. }
  rewrite (books_activate_found _ _ tx _ _ Hb Hc Hfound). cbn [fst].
  destruct (books_full_activation c invoice i p Hb Hfound)
    as (Hrow & Hopen & Hq & Hlen).
  destruct Hb as [Hcur Hdense Htu Hpu Hamt Hpend Hsold].
  unfold confirmed_state. fold (expected_qty p).
  set (u := p_telegram_id p) in *.
  set (ts := pending_desc (db c) u (expected_qty p)) in *.
  assert (Hnd : NoDup ts) by apply pending_desc_NoDup.
  assert (Hrows : ∀ t, t ∈ ts → tickets (db c) !! t = Some (TicketRow u false)).
  { intros t Ht. by eapply pending_desc_elem. }
  split; cbn [db next_ticket users tickets payments draws].
  - done.
  - intros t. rewrite activate_tickets_lookup, <- Hdense.
    destruct (bool_decide (t ∈ ts)); [|done]. by rewrite fmap_is_Some.
  - intros t r. rewrite activate_tickets_lookup.
    destruct (bool_decide_reflect (t ∈ ts)) as [Hin|Hin].
    + rewrite (Hrows t Hin). intros [= <-]. by apply (Htu t _ (Hrows t Hin)).
    + apply Htu.
  - apply Forall_insert; [done|].
    rewrite Forall_lookup in Hpu. exact (Hpu i p Hrow).
  - apply Forall_insert; [done|].
    rewrite Forall_lookup in Hamt. exact (Hamt i p Hrow).
  - intros u'.
    pose proof (size_filter_activate (is_pending_of u') ts (tickets (db c))
                  (if bool_decide (u = u') then 1%nat else 0%nat) 0%nat Hnd) as Hsize.
    rewrite (owed_confirm u' tx _ i p Hrow Hopen), <- Hpend. fold u.
    assert (Hs : (size (filter (is_pending_of u')
                     (foldl (λ m t, alter activate_row t m) (tickets (db c)) ts))
                  + length ts * (if bool_decide (u = u') then 1 else 0)
                  = size (filter (is_pending_of u') (tickets (db c)))
                    + length ts * 0)%nat).
    { apply Hsize. intros t Ht. exists (TicketRow u false).
      split; [by apply Hrows|].
      change (activate_row (TicketRow u false)) with (TicketRow u true).
      rewrite !hits_pending. cbn [negb].
      by rewrite andb_false_r, andb_true_r. }
    destruct (bool_decide (u = u')); lia.
  - unfold count_sold_tickets in *. cbn [db tickets].
    pose proof (size_filter_activate is_active ts (tickets (db c)) 0%nat 1%nat Hnd)
      as Hsize.
    rewrite (paid_confirm tx _ i p Hrow Hopen), <- Hsold.
    assert (Hs : (size (filter is_active
                     (foldl (λ m t, alter activate_row t m) (tickets (db c)) ts))
                  + length ts * 0
                  = size (filter is_active (tickets (db c))) + length ts * 1)%nat).
    { apply Hsize. intros t Ht. exists (TicketRow u false).
      split; [by apply Hrows|].
      change (activate_row (TicketRow u false)) with (TicketRow u true).
      by rewrite !hits_active. }
    lia.
Qed.

(** A draw writes the [draws] table only. *)
Lemma draw_frame c rng :
  let c' := (draw_winners MAX_TICKETS rng c).1 in
  users (db c') = users (db c) ∧ tickets (db c') = tickets (db c)
  ∧ payments (db c') = payments (db c) ∧ next_ticket c' = next_ticket c.
Proof.
  cbn zeta.
  destruct (decide (count_sold_tickets (db c) < MAX_TICKETS)) as [Hlow|Hsold].
  { by rewrite draw_not_ready. }
  destruct (decide (length (get_all_active_tickets (db c)) < 3)%nat) as [Hfew|Hpool].
  { by rewrite draw_small_pool by (done || lia). }
  destruct (draw_accepted MAX_TICKETS c rng) as (pay & Hrun & _); [lia | lia |].
  by rewrite Hrun.
Qed.

Lemma books_draw c rng :
  books c → books (draw_winners MAX_TICKETS rng c).1.
Proof.
  intros Hb. destruct (draw_frame c rng) as (Hu & Ht & Hp & Hn).
  destruct Hb as [Hcur Hdense Htu Hpu Hamt Hpend Hsold].
  split; unfold count_sold_tickets in *; rewrite ?Hu, ?Ht, ?Hp, ?Hn; done.
Qed.

Lemma books_step c o :
  books c → cursor_in_range c → books (step MAX_TICKETS c o).
Proof.
  destruct o; cbn [step]; intros Hb Hc;
    [by apply books_reserve | by apply books_activate | by apply books_draw].
Qed.

(** The cursor never moves back. *)
Lemma cursor_step c o : next_ticket c ≤ next_ticket (step MAX_TICKETS c o).
Proof.
  destruct o as [u q|invoice tx|rng]; cbn [step].
  - destruct (reserve_cases MAX_TICKETS c u q)
      as [[_ Hr]|[[_ Hr]|[[_ Hr]|[[Hq _] Hr]]]]; rewrite Hr; cbn; lia.
  - destruct (activate_frame c invoice tx) as (_ & _ & -> & _). lia.
  - destruct (draw_frame c rng) as (_ & _ & _ & ->). lia.
Qed.

Lemma cursor_run c ops : next_ticket c ≤ next_ticket (run MAX_TICKETS ops c).
Proof.
  revert c. induction ops as [|o ops IH]; intros c; [done|].
  cbn [run foldl]. pose proof (cursor_step c o). specialize (IH (step MAX_TICKETS c o)).
  unfold run in IH. lia.
Qed.

Lemma books_run c ops :
  books c → cursor_in_range (run MAX_TICKETS ops c) → books (run MAX_TICKETS ops c).
Proof.
  revert c. induction ops as [|o ops IH]; intros c Hb Hc; [done|].
  cbn [run foldl] in *.
  pose proof (cursor_step c o) as Hstep.
  pose proof (cursor_run (step MAX_TICKETS c o) ops) as Hrun.
  unfold run, cursor_in_range in *.
  apply IH; [|done]. apply books_step; [done|]. unfold cursor_in_range. lia.
Qed.

Lemma reachable_books c :
  reachable MAX_TICKETS c → cursor_in_range c → books c.
Proof. intros [ops ->] Hc. apply books_run; [apply books_empty | done]. Qed.

(** *** Wherever the cursor is *)

Lemma size_filter_dom (P : Z * ticket_row → Prop) `{!∀ kv, Decision (P kv)}
    (m : gmap Z ticket_row) (X : gset Z) :
  (∀ t, t ∈ X ↔ ∃ r, m !! t = Some r ∧ P (t, r)) →
  size (filter P m) = size X.
Proof. intros HX. by rewrite <- (dom_filter_L P m X HX), size_dom. Qed.

(** Rows written at or above [n] do not change what is pending below
    [n]. *)
Lemma pending_below_frame (m : gmap Z ticket_row) (u u' : string) (n : Z)
    (ts : list Z) :
  (∀ t, t ∈ ts → n ≤ t) →
  filter (pending_below n u') (foldl (λ m t, <[t := TicketRow u false]> m) m ts)
  = filter (pending_below n u') m.
Proof.
  intros Hts. apply map_filter_strong_ext. intros t r.
  rewrite add_tickets_lookup. unfold pending_below. cbn [fst].
  destruct (bool_decide_reflect (t ∈ ts)) as [Hin|Hin]; [|done].
  apply Hts in Hin. split; intros [[Hlt _] _]; lia.
Qed.

(** A reservation of [q] tickets from [n] on gives its owner [q] more
    pending tickets below the new cursor, and nobody else any. *)
Lemma pending_below_reserved (m : gmap Z ticket_row) (u u' : string) (n q : Z) :
  0 ≤ q →
  Z.of_nat (size (filter (pending_below (n + q) u')
                    (foldl (λ m t, <[t := TicketRow u false]> m) m (seqZ n q))))
  = Z.of_nat (size (filter (pending_below n u') m))
    + (if bool_decide (u = u') then q else 0).
Proof.
  intros Hq.
  set (new := if bool_decide (u = u') then list_to_set (seqZ n q) else ∅ : gset Z).
  rewrite (size_filter_dom _ _ (dom (filter (pending_below n u') m) ∪ new)).
  - rewrite size_union, size_dom.
    + unfold new. destruct (bool_decide (u = u')).
      * rewrite size_list_to_set by apply NoDup_seqZ. rewrite length_seqZ. lia.
      * rewrite size_empty. lia.
    + intros t Hold Hnew. apply elem_of_dom in Hold as [r Hr].
      apply map_lookup_filter_Some in Hr as [_ [Hlt _]]. cbn [fst] in Hlt.
      unfold new in Hnew. destruct (bool_decide (u = u')); [|set_solver].
      apply elem_of_list_to_set, elem_of_seqZ in Hnew. lia.
  - intros t. rewrite elem_of_union, elem_of_dom, add_tickets_lookup.
    unfold is_Some. setoid_rewrite map_lookup_filter_Some.
    unfold pending_below, new. cbn [fst].
    destruct (bool_decide_reflect (t ∈ seqZ n q)) as [Hin|Hin].
    + pose proof Hin as Hrange%elem_of_seqZ. split.
      * intros [(r & _ & Hlt & _)|Hnew]; [lia|].
        destruct (bool_decide_reflect (u = u')) as [->|Hne]; [|set_solver].
        exists (TicketRow u' false). split; [done|]. split; [lia|]. by split.
      * intros (r & [= <-] & _ & Hu' & _). cbn in Hu'. right.
        rewrite bool_decide_eq_true_2 by done. by apply elem_of_list_to_set.
    + rewrite elem_of_seqZ in Hin. split.
      * intros [(r & Hr & Hlt & Hp)|Hnew].
        -- exists r. split; [done|]. split; [lia | done].
        -- destruct (bool_decide (u = u')); [|set_solver].
           apply elem_of_list_to_set, elem_of_seqZ in Hnew. lia.
      * intros (r & Hr & Hlt & Hp). left. exists r. split; [done|].
        split; [lia | done].
Qed.

(** Activating rows takes at most one pending row away for each. *)
Lemma pending_below_activated (m : gmap Z ticket_row) (u : string) (n : Z)
    (ts : list Z) :
  (size (filter (pending_below n u) m)
   ≤ size (filter (pending_below n u)
             (foldl (λ m t, alter activate_row t m) m ts)) + length ts)%nat.
Proof.
  revert m. induction ts as [|t ts IH]; intros m; cbn [foldl length]; [lia|].
  specialize (IH (alter activate_row t m)).
  assert (Hstep : (size (filter (pending_below n u) m)
                   ≤ size (filter (pending_below n u) (alter activate_row t m)) + 1)%nat);
    [|lia].
  destruct (m !! t) as [r|] eqn:Hr.
  - pose proof (size_filter_alter (pending_below n u) m t r activate_row Hr) as Ha.
    assert (Hz : hits (pending_below n u) (t, activate_row r) = 0%nat).
    { unfold hits. case_decide as Hp; [|done].
      by destruct Hp as [_ [_ Hp]]. }
    assert (Ho : (hits (pending_below n u) (t, r) ≤ 1)%nat).
    { unfold hits. case_decide; lia. }
    lia.
  - rewrite alter_id' by done. lia.
Qed.

(** Rows of other owners are not touched. *)
Lemma pending_below_others (m : gmap Z ticket_row) (u u' : string) (n : Z)
    (ts : list Z) :
  u ≠ u' → (∀ t, t ∈ ts → m !! t = Some (TicketRow u false)) →
  filter (pending_below n u') (foldl (λ m t, alter activate_row t m) m ts)
  = filter (pending_below n u') m.
Proof.
  intros Hne Hrows. apply map_filter_strong_ext. intros t r.
  rewrite activate_tickets_lookup. unfold pending_below, is_pending_of. cbn [fst snd].
  destruct (bool_decide_reflect (t ∈ ts)) as [Hin|Hin]; [|done].
  rewrite (Hrows t Hin). cbn. split.
  - intros [(_ & Hu & _) [= <-]]. cbn in Hu. done.
  - intros [(_ & Hu & _) [= <-]]. cbn in Hu. done.
Qed.

Lemma pending_below_le (m : gmap Z ticket_row) (u : string) (n : Z) :
  (size (filter (pending_below n u) m) ≤ size (filter (is_pending_of u) m))%nat.
Proof.
  apply map_subseteq_size, map_filter_subseteq_ext.
  by intros t r _ [_ Hp].
Qed.

Lemma sound_empty : sound empty_ledger.
Proof.
  assert (Hn : next_ticket empty_ledger = 1) by reflexivity.
  assert (Htk : tickets (db empty_ledger) = ∅) by reflexivity.
  assert (Hps : payments (db empty_ledger) = []) by reflexivity.
  split; rewrite ?Hn, ?Htk, ?Hps.
  - done.
  - intros t. rewrite lookup_empty. by intros [? ?].
  - intros t r. by rewrite lookup_empty.
  - constructor.
  - constructor.
  - intros u. cbn. lia.
Qed.

Lemma sound_sqlite_db c : sound c → sqlite_db (db c).
Proof.
  intros Hs t Ht. apply (sd_keys c Hs) in Ht. unfold SQLITE_MIN. lia.
Qed.

Lemma sound_reserve c u q : sound c → sound (reserve_tickets MAX_TICKETS u q c).1.
Proof.
  intros Hs.
  destruct (reserve_cases MAX_TICKETS c u q)
    as [[_ Hr]|[[_ Hr]|[[(Hq & _ & Hout) Hr]|[(Hq & _ & Hlo & Hhi) Hr]]]];
    rewrite Hr; cbn [fst]; try done.
  - destruct Hs as [Hcur Hkeys Htu Hpu Hamt Howed].
    destruct (users_after_ensure u (users (db c))) as [Hu Hus].
    split; cbn [refused_state db next_ticket users tickets payments draws].
    + done.
    + intros t. rewrite add_tickets_lookup.
      destruct (bool_decide_reflect (t ∈ bound_prefix (seqZ (next_ticket c) q)))
        as [Hin|Hin]; [|apply Hkeys].
      apply bound_prefix_elem in Hin as [Hin%elem_of_seqZ Hfit]. lia.
    + intros t r. rewrite add_tickets_lookup.
      destruct (bool_decide (t ∈ _)).
      * by intros [= <-].
      * intros Hr'. apply Hus. by eapply Htu.
    + eapply Forall_impl; [exact Hpu|]. intros p Hp. by apply Hus.
    + done.
    + intros u'. rewrite pending_below_frame; [apply Howed|].
      intros t [Hin%elem_of_seqZ _]%bound_prefix_elem. lia.
  - destruct Hs as [Hcur Hkeys Htu Hpu Hamt Howed].
    destruct (users_after_ensure u (users (db c))) as [Hu Hus].
    assert (Hnew : expected_qty
              (PaymentRow u (u +:+ "-" +:+ pretty (next_ticket c) +:+ "-"
                               +:+ pretty (next_ticket c + q - 1))
                 (round6 (inject_Z q * TICKET_PRICE)) "" false) = q).
    { apply sold_quantity. cbn [amount]. rewrite round6_price. apply Qmult_comm. }
    split; cbn [reserved_state db next_ticket users tickets payments draws].
    + lia.
    + intros t. rewrite add_tickets_lookup.
      destruct (bool_decide_reflect (t ∈ seqZ (next_ticket c) q)) as [Hin|Hin];
        [|apply Hkeys].
      apply elem_of_seqZ in Hin. lia.
    + intros t r. rewrite add_tickets_lookup.
      destruct (bool_decide (t ∈ _)).
      * by intros [= <-].
      * intros Hr'. apply Hus. by eapply Htu.
    + apply Forall_app. split.
      * eapply Forall_impl; [exact Hpu|]. intros p Hp. by apply Hus.
      * by apply Forall_singleton.
    + apply Forall_app. split; [done|]. apply Forall_singleton.
      exists q. split; [lia|]. cbn [amount]. rewrite round6_price. apply Qmult_comm.
    + intros u'. rewrite pending_below_reserved by lia.
      rewrite owed_app. cbn [owed p_telegram_id confirmed]. rewrite Hnew.
      specialize (Howed u'). destruct (bool_decide (u = u')); cbn [andb negb]; lia.
Qed.

(** In a sound ledger a confirmation that finds a payment goes through and
    finds all the tickets it asks for. *)
Lemma sound_full_activation c invoice tx i p :
  sound c → last_open invoice 0 (payments (db c)) = Some (i, p) →
  payments (db c) !! i = Some p
  ∧ confirmed p = false
  ∧ 1 ≤ expected_qty p ≤ 100
  ∧ Z.of_nat (length (pending_desc (db c) (p_telegram_id p) (expected_qty p)))
    = expected_qty p
  ∧ activate_payment invoice tx c
    = (confirmed_state c i p tx,
       Ok (Activated (pending_desc (db c) (p_telegram_id p) (expected_qty p))
             (p_telegram_id p) (amount p))).
Proof.
  intros Hs Hfound.
  destruct (last_open_Some invoice "" _ _ _ _ Hfound) as (k & Hk & Hrow & Hopen & _).
  simpl in Hk. subst k.
  apply is_open_unconfirmed in Hopen as [_ Hopen].
  pose proof (sd_amounts c Hs) as Hamt.
  assert (Hq : 1 ≤ expected_qty p ≤ 100).
  { rewrite Forall_lookup in Hamt. destruct (Hamt i p Hrow) as (q & Hq & Ha).
    by rewrite (sold_quantity p q Ha). }
  split; [done|]. split; [done|]. split; [done|]. split.
  - rewrite pending_desc_take by lia. rewrite length_take, ordered_length.
    pose proof (sd_owed c Hs (p_telegram_id p)) as Howed.
    pose proof (pending_below_le (tickets (db c)) (p_telegram_id p) (next_ticket c)).
    pose proof (owed_covers _ i p (amounts_nonneg _ Hamt) Hrow Hopen). lia.
  - apply activate_found; [done | | by apply sound_sqlite_db].
    fold (expected_qty p). unfold SQLITE_MAX, SQLITE_MIN. lia.
Qed.

Lemma sound_activate c invoice tx : sound c → sound (activate_payment invoice tx c).1.
Proof.
  intros Hs.
  destruct (last_open invoice 0 (payments (db c))) as [[i p]|] eqn:Hfound.
  2:{ by rewrite activate_missing. }
  destruct (sound_full_activation c invoice tx i p Hs Hfound)
    as (Hrow & Hopen & Hq & Hlen & Hrun).
  rewrite Hrun. cbn [fst].
  destruct Hs as [Hcur Hkeys Htu Hpu Hamt Howed].
  unfold confirmed_state. fold (expected_qty p).
  set (u := p_telegram_id p) in *.
  set (ts := pending_desc (db c) u (expected_qty p)) in *.
  assert (Hrows : ∀ t, t ∈ ts → tickets (db c) !! t = Some (TicketRow u false)).
  { intros t Ht. by eapply pending_desc_elem. }
  split; cbn [db next_ticket users tickets payments draws].
  - done.
  - intros t. rewrite activate_tickets_lookup. intros Ht. apply Hkeys.
    destruct (bool_decide (t ∈ ts)); [|done]. by rewrite fmap_is_Some in Ht.
  - intros t r. rewrite activate_tickets_lookup.
    destruct (bool_decide_reflect (t ∈ ts)) as [Hin|Hin].
    + rewrite (Hrows t Hin). intros [= <-]. by apply (Htu t _ (Hrows t Hin)).
    + apply Htu.
  - apply Forall_insert; [done|].
    rewrite Forall_lookup in Hpu. exact (Hpu i p Hrow).
  - apply Forall_insert; [done|].
    rewrite Forall_lookup in Hamt. exact (Hamt i p Hrow).
  - intros u'. rewrite (owed_confirm u' tx _ i p Hrow Hopen). fold u.
    specialize (Howed u').
    destruct (bool_decide_reflect (u = u')) as [<-|Hne].
    + pose proof (pending_below_activated (tickets (db c)) u (next_ticket c) ts). lia.
    + rewrite (pending_below_others _ u u' _ ts Hne Hrows). lia.
Qed.

Lemma sound_draw c rng : sound c → sound (draw_winners MAX_TICKETS rng c).1.
Proof.
  intros Hs. destruct (draw_frame c rng) as (Hu & Ht & Hp & Hn).
  destruct Hs as [Hcur Hkeys Htu Hpu Hamt Howed].
  split; rewrite ?Hu, ?Ht, ?Hp, ?Hn; done.
Qed.

Lemma sound_step c o : sound c → sound (step MAX_TICKETS c o).
Proof.
  destruct o; [apply sound_reserve | apply sound_activate | apply sound_draw].
Qed.

Lemma reachable_sound c : reachable MAX_TICKETS c → sound c.
Proof.
  intros [ops ->]. induction ops as [|o ops IH] using rev_ind.
  - apply sound_empty.
  - unfold run. rewrite foldl_snoc. by apply sound_step.
Qed.

End bookkeeping.

(** ** [LotteryCore.__init__] *)

Lemma max_ticket_number_spec (d : DB) :
  match max_ticket_number d with
  | None => tickets d = ∅
  | Some mx => is_Some (tickets d !! mx) ∧ ∀ t, is_Some (tickets d !! t) → t ≤ mx
  end.
Proof.
  unfold max_ticket_number.
  apply (map_fold_weak_ind
           (λ (r : option Z) (m : gmap Z ticket_row),
              match r with
              | None => m = ∅
              | Some mx => is_Some (m !! mx) ∧ ∀ t, is_Some (m !! t) → t ≤ mx
              end)); [done|].
  intros i x m [mx|] Hfresh IH; cbn [from_option].
  - destruct IH as [Hmx Hub]. split.
    + destruct (Z.max_spec i mx) as [[_ ->]|[_ ->]].
      * rewrite lookup_insert_ne; [done|]. intros ->. rewrite Hfresh in Hmx.
        by destruct Hmx.
      * rewrite lookup_insert_eq. by eexists.
    + intros t. destruct (decide (i = t)) as [->|Hne].
      * lia.
      * rewrite lookup_insert_ne by done. intros Ht%Hub. lia.
  - subst m. split.
    + rewrite lookup_insert_eq. by eexists.
    + intros t. destruct (decide (i = t)) as [->|Hne]; [lia|].
      rewrite lookup_insert_ne, lookup_empty by done. by intros [? ?].
Qed.

(** X1: whatever database the core is started on, it keeps the database as
    it is and sets its cursor to 1 on an empty [tickets] table and to the
    greatest ticket number plus one on a non-empty one: the number before
    the cursor is a ticket, and every ticket lies below the cursor, so that
    the next reservation overwrites no row. *)
Theorem new_core_above_rows (d : DB) :
  db (new_core d) = d
  ∧ (tickets d = ∅ → next_ticket (new_core d) = 1)
  ∧ (tickets d ≠ ∅ → is_Some (tickets d !! (next_ticket (new_core d) - 1)))
  ∧ (∀ t, is_Some (tickets d !! t) → t < next_ticket (new_core d)).
Proof.
  pose proof (max_ticket_number_spec d) as Hmax.
  unfold new_core. cbn [db next_ticket]. split; [done|]. split; [|split].
  - intros Hempty. destruct (max_ticket_number d) as [mx|]; [|done].
    destruct Hmax as [[r Hr] _]. by rewrite Hempty, lookup_empty in Hr.
  - intros Hrows. destruct (max_ticket_number d) as [mx|]; [|done].
    destruct Hmax as [Hmx _]. cbn [default from_option id].
    by replace (mx + 1 - 1) with mx by lia.
  - intros t Ht. destruct (max_ticket_number d) as [mx|].
    + destruct Hmax as [_ Hub]. specialize (Hub t Ht). cbn. lia.
    + rewrite Hmax, lookup_empty in Ht. by destruct Ht.
Qed.

Section reachable_facts.
Variable MAX_TICKETS : Z.
Implicit Types (c : LotteryCore).

(** X2: in every ledger reached from the empty one whose cursor is in
    range, the ticket rows are exactly the numbers from 1 up to the cursor,
    without a gap, and there are cursor - 1 of them. *)
Theorem reachable_ticket_numbers c :
  reachable MAX_TICKETS c → cursor_in_range c →
  1 ≤ next_ticket c
  ∧ (∀ t, is_Some (tickets (db c) !! t) ↔ 1 ≤ t < next_ticket c)
  ∧ Z.of_nat (size (tickets (db c))) = next_ticket c - 1.
Proof.
  intros Hreach Hc. pose proof (reachable_books _ c Hreach Hc) as Hb.
  destruct Hb as [Hcur Hdense _ _ _ _ _].
  split; [done|]. split; [done|].
  assert (Hdom : dom (tickets (db c))
                 = list_to_set (seqZ 1 (next_ticket c - 1)) :> gset Z).
  { apply set_eq. intros t.
    rewrite elem_of_dom, elem_of_list_to_set, elem_of_seqZ, Hdense. lia. }
  rewrite <- size_dom, Hdom, size_list_to_set by apply NoDup_seqZ.
  rewrite length_seqZ. lia.
Qed.

(** X3: restarting the core on the database of a reachable ledger whose
    cursor is in range gives the same ledger back: the cursor computed from
    [MAX(ticket_number)] is the cursor the running core held. *)
Theorem restart_keeps_cursor c :
  reachable MAX_TICKETS c → cursor_in_range c → new_core (db c) = c.
Proof.
  intros Hreach Hc. pose proof (reachable_books _ c Hreach Hc) as Hb. clear Hc.
  destruct Hb as [Hcur Hdense _ _ _ _ _].
  pose proof (max_ticket_number_spec (db c)) as Hmax.
  destruct c as [d next]. cbn [db next_ticket] in *. unfold new_core. f_equal.
  destruct (max_ticket_number d) as [mx|]; cbn.
  - destruct Hmax as [Hmx Hub]. apply Hdense in Hmx.
    destruct (decide (next = 1)) as [->|Hne]; [lia|].
    assert (Hlast : is_Some (tickets d !! (next - 1))) by (apply Hdense; lia).
    apply Hub in Hlast. lia.
  - destruct (decide (next = 1)) as [->|Hne]; [done|].
    assert (Hone : is_Some (tickets d !! 1)) by (apply Hdense; lia).
    rewrite Hmax, lookup_empty in Hone. by destruct Hone.
Qed.

(** X4: in every reachable ledger the owner of every ticket row and of
    every payment row is a row of the [users] table. *)
Theorem reachable_owners_registered c :
  reachable MAX_TICKETS c →
  (∀ t u, get_ticket_owner (db c) t = Some u → u ∈ users (db c))
  ∧ (∀ p, p ∈ payments (db c) → p_telegram_id p ∈ users (db c)).
Proof.
  intros Hs%reachable_sound. destruct Hs as [_ _ Htu Hpu _ _]. split.
  - intros t u. unfold get_ticket_owner.
    destruct (tickets (db c) !! t) as [r|] eqn:Hr; [|done].
    intros [= <-]. by eapply Htu.
  - by apply Forall_forall.
Qed.

(** X5: in every reachable ledger no two payment rows carry the same
    invoice id, although the schema does not ask for it. *)
Theorem reachable_invoice_ids_distinct c :
  reachable MAX_TICKETS c → NoDup (invoice_id <$> payments (db c)).
Proof. intros Hinv%reachable_inv. by destruct Hinv as [_ _ Hnd]. Qed.

(** X6: in a reachable ledger a confirmation is never partial: when the
    lookup finds an unconfirmed payment, [activate_payment] activates
    exactly the number of tickets the stored amount pays for, between 1
    and 100 of them. *)
Theorem reachable_confirm_is_full c invoice tx i p :
  reachable MAX_TICKETS c →
  last_open invoice 0 (payments (db c)) = Some (i, p) →
  ∃ c' ts,
    activate_payment invoice tx c
    = (c', Ok (Activated ts (p_telegram_id p) (amount p)))
    ∧ 1 ≤ Z.of_nat (length ts) ≤ 100
    ∧ Qeq (amount p) (TICKET_PRICE * inject_Z (Z.of_nat (length ts)))
    ∧ (∀ t, t ∈ ts → tickets (db c') !! t = Some (TicketRow (p_telegram_id p) true)).
Proof.
  intros Hs%reachable_sound Hfound.
  destruct (sound_full_activation c invoice tx i p Hs Hfound)
    as (Hrow & Hopen & Hq & Hlen & Hrun).
  eexists _, _. split; [exact Hrun|].
  rewrite Hlen. split; [done|]. split.
  - pose proof (sd_amounts c Hs) as Hamt. rewrite Forall_lookup in Hamt.
    destruct (Hamt i p Hrow) as (q & _ & Ha). by rewrite (sold_quantity p q Ha).
  - intros t Ht. unfold confirmed_state. cbn [db tickets]. fold (expected_qty p).
    rewrite activate_tickets_lookup, bool_decide_eq_true_2 by done.
    by rewrite (pending_desc_elem _ _ _ _ Ht).
Qed.

Lemma confirmed_total_paid (ps : list payment_row) :
  Forall (λ p, ∃ q, 1 ≤ q ≤ 100 ∧ Qeq (amount p) (TICKET_PRICE * inject_Z q)) ps →
  Qeq (confirmed_total ps) (TICKET_PRICE * inject_Z (paid ps)).
Proof.
  induction 1 as [|p ps (q & _ & Ha) _ IH]; cbn [confirmed_total paid].
  { unfold TICKET_PRICE. reflexivity. }
  rewrite inject_Z_plus, IH. destruct (confirmed p).
  - rewrite (sold_quantity p q Ha), Ha. ring.
  - change (inject_Z 0) with 0%Q. ring.
Qed.

(** X7: in every reachable ledger whose cursor is in range the books
    balance: the active tickets are as many as the confirmed payments paid
    for, the money confirmed is the ticket price times the number of active
    tickets, and every owner has as many inactive tickets as its
    unconfirmed payments ask for. *)
Theorem reachable_books_balance c :
  reachable MAX_TICKETS c → cursor_in_range c →
  count_sold_tickets (db c) = paid (payments (db c))
  ∧ Qeq (confirmed_total (payments (db c)))
        (TICKET_PRICE * inject_Z (count_sold_tickets (db c)))
  ∧ (∀ u, Z.of_nat (size (filter (is_pending_of u) (tickets (db c))))
          = owed u (payments (db c))).
Proof.
  intros Hreach Hc. pose proof (reachable_books _ c Hreach Hc) as Hb.
  destruct Hb as [_ _ _ _ Hamt Hpend Hsold].
  split; [done|]. split; [|done].
  rewrite Hsold. by apply confirmed_total_paid.
Qed.

Lemma paid_step c o :
  books c → cursor_in_range c →
  paid (payments (db c)) ≤ paid (payments (db (step MAX_TICKETS c o))).
Proof.
  intros Hb Hc. destruct o as [u q|invoice tx|rng]; cbn [step].
  - destruct (reserve_cases MAX_TICKETS c u q)
      as [[_ Hr]|[[_ Hr]|[[_ Hr]|[_ Hr]]]]; rewrite Hr;
      cbn [fst reserved_state refused_state db payments]; try done.
    rewrite paid_app. cbn [paid confirmed]. lia.
  - destruct (last_open invoice 0 (payments (db c))) as [[i p]|] eqn:Hfound.
    2:{ by rewrite activate_missing. }
    rewrite (books_activate_found _ _ tx _ _ Hb Hc Hfound).
    cbn [fst confirmed_state db payments].
    destruct (books_full_activation c invoice i p Hb Hfound) as (Hrow & Hopen & Hq & _).
    rewrite (paid_confirm tx _ i p Hrow Hopen). lia.
  - by destruct (draw_frame MAX_TICKETS c rng) as (_ & _ & -> & _).
Qed.

(** X8: from a reachable ledger on, as long as the cursor stays in range,
    the number of active tickets never goes down, whatever operations
    follow. *)
Theorem sold_never_decreases c ops :
  reachable MAX_TICKETS c → cursor_in_range (run MAX_TICKETS ops c) →
  count_sold_tickets (db c) ≤ count_sold_tickets (db (run MAX_TICKETS ops c)).
Proof.
  intros Hreach Hend.
  assert (Hb : books c).
  { apply (reachable_books _ c Hreach). pose proof (cursor_run MAX_TICKETS c ops).
    unfold cursor_in_range in *. lia. }
  clear Hreach. revert c Hb Hend.
  induction ops as [|o ops IH]; intros c Hb Hend; [done|].
  cbn [run foldl] in *.
  pose proof (cursor_step MAX_TICKETS c o) as Hstep.
  pose proof (cursor_run MAX_TICKETS (step MAX_TICKETS c o) ops) as Hrun.
  unfold run in *.
  assert (Hc : cursor_in_range c) by (unfold cursor_in_range in *; lia).
  pose proof (books_step MAX_TICKETS c o Hb Hc) as Hb'.
  specialize (IH _ Hb' Hend).
  pose proof (paid_step c o Hb Hc) as Hpaid.
  rewrite <- (bk_sold _ Hb), <- (bk_sold _ Hb') in Hpaid. lia.
Qed.

End reachable_facts.

(** ** [activate_payment] on any database *)

(** X9: on any database, a successful confirmation raises the number of
    active tickets by exactly the number of tickets it returns, and lowers
    the owner's inactive tickets by the same number. *)
Theorem activate_payment_counts (c c' : LotteryCore) (invoice tx : string)
    (ts : list Z) (u : string) (a : Q) :
  activate_payment invoice tx c = (c', Ok (Activated ts u a)) →
  count_sold_tickets (db c')
  = count_sold_tickets (db c) + Z.of_nat (length ts)
  ∧ Z.of_nat (size (filter (is_pending_of u) (tickets (db c'))))
    = Z.of_nat (size (filter (is_pending_of u) (tickets (db c))))
      - Z.of_nat (length ts).
Proof.
  intros Hrun.
  destruct (last_open invoice 0 (payments (db c))) as [[i p]|] eqn:Hfound.
  2:{ by rewrite (activate_missing _ _ _ Hfound) in Hrun. }
  destruct (activate_found_inv _ _ _ _ _ _ _ Hfound Hrun) as (-> & [= -> -> ->] & _).
  clear Hrun.
  set (u := p_telegram_id p).
  set (ts := pending_desc (db c) u (py_round (amount p / TICKET_PRICE))).
  assert (Hnd : NoDup ts) by apply pending_desc_NoDup.
  assert (Hrows : ∀ t, t ∈ ts → tickets (db c) !! t = Some (TicketRow u false)).
  { intros t Ht. by eapply pending_desc_elem. }
  unfold confirmed_state, count_sold_tickets. cbn [db tickets]. fold u ts.
  pose proof (size_filter_activate is_active ts (tickets (db c)) 0%nat 1%nat Hnd)
    as Hact.
  pose proof (size_filter_activate (is_pending_of u) ts (tickets (db c))
                1%nat 0%nat Hnd) as Hpend.
  split.
  - assert (Hs : (size (filter is_active
                     (foldl (λ m t, alter activate_row t m) (tickets (db c)) ts))
                  + length ts * 0
                  = size (filter is_active (tickets (db c))) + length ts * 1)%nat).
    { apply Hact. intros t Ht. exists (TicketRow u false).
      split; [by apply Hrows|].
      change (activate_row (TicketRow u false)) with (TicketRow u true).
      by rewrite !hits_active. }
    lia.
  - assert (Hs : (size (filter (is_pending_of u)
                     (foldl (λ m t, alter activate_row t m) (tickets (db c)) ts))
                  + length ts * 1
                  = size (filter (is_pending_of u) (tickets (db c)))
                    + length ts * 0)%nat).
    { apply Hpend. intros t Ht. exists (TicketRow u false).
      split; [by apply Hrows|].
      change (activate_row (TicketRow u false)) with (TicketRow u true).
      rewrite !hits_pending. cbn [negb].
      by rewrite andb_false_r, andb_true_r, bool_decide_eq_true_2. }
    lia.
Qed.

(** X10: on any database, an invoice id can be confirmed exactly as often
    as unconfirmed payment rows carry it: [activate_payment] is rejected,
    and changes nothing, exactly when no such row exists; otherwise it
    confirms one of them and deletes or adds none, and then either returns
    the tickets it activated or raises [OverflowError] binding the
    quantity or a ticket number. *)
Theorem confirmations_count_open_rows (c : LotteryCore) (invoice tx : string) :
  let n := open_count invoice (payments (db c)) in
  let c' := (activate_payment invoice tx c).1 in
  (n = 0%nat →
     activate_payment invoice tx c
     = (c, Ok (NotActivated "invoice_not_found_or_already_confirmed")))
  ∧ (n ≠ 0%nat →
     open_count invoice (payments (db c')) = pred n
     ∧ length (payments (db c')) = length (payments (db c))
     ∧ ((∃ ts u a, (activate_payment invoice tx c).2 = Ok (Activated ts u a))
        ∨ (activate_payment invoice tx c).2 = Raise OverflowError)).
Proof.
  cbn zeta. split.
  - intros Hzero. by apply activate_missing, last_open_None.
  - intros Hpos.
    destruct (activate_frame c invoice tx) as (_ & _ & _ & Hpay & _).
    destruct (last_open invoice 0 (payments (db c))) as [[i p]|] eqn:Hfound.
    2:{ by apply last_open_None in Hfound. }
    rewrite Hpay. split; [|split].
    + apply (activate_closes_one c invoice tx i p Hfound).
    + apply length_insert.
    + rewrite (activate_run _ _ _ _ _ Hfound). cbn zeta.
      destruct (fits_sqlite _); [|by right].
      destruct (forallb fits_sqlite _); cbn [snd]; [left; eauto | by right].
Qed.

(** ** What a history never undoes *)

Section history.
Variable MAX_TICKETS : Z.
Implicit Types (c : LotteryCore) (o : op).

(** A row below the cursor is out of reach of every later write of
    [add_tickets], and [activate_tickets] only sets its flag. *)
Lemma ticket_kept_step c o t r :
  t < next_ticket c → tickets (db c) !! t = Some r →
  ∃ r', tickets (db (step MAX_TICKETS c o)) !! t = Some r'
        ∧ t_telegram_id r' = t_telegram_id r
        ∧ (active r = true → active r' = true).
Proof.
  intros Hlt Hr. destruct o as [u q|invoice tx|rng]; cbn [step].
  - destruct (reserve_cases MAX_TICKETS c u q)
      as [[_ Hrun]|[[_ Hrun]|[[_ Hrun]|[_ Hrun]]]]; rewrite Hrun;
      cbn [fst reserved_state refused_state db tickets]; eauto.
    + rewrite add_tickets_lookup, bool_decide_eq_false_2; [eauto|].
      intros [Hin%elem_of_seqZ _]%bound_prefix_elem. lia.
    + rewrite add_tickets_lookup, bool_decide_eq_false_2; [eauto|].
      rewrite elem_of_seqZ. lia.
  - destruct (activate_frame c invoice tx) as (_ & _ & _ & _ & ts & -> & _).
    rewrite activate_tickets_lookup, Hr. destruct (bool_decide _); eauto.
  - destruct (draw_frame MAX_TICKETS c rng) as (_ & -> & _). eauto.
Qed.

Lemma ticket_kept_run c ops t r :
  t < next_ticket c → tickets (db c) !! t = Some r →
  ∃ r', tickets (db (run MAX_TICKETS ops c)) !! t = Some r'
        ∧ t_telegram_id r' = t_telegram_id r
        ∧ (active r = true → active r' = true).
Proof.
  revert c r. induction ops as [|o ops IH]; intros c r Hlt Hr; [eauto|].
  cbn [run foldl].
  destruct (ticket_kept_step c o t r Hlt Hr) as (r1 & Hr1 & Hown1 & Hact1).
  assert (Hlt1 : t < next_ticket (step MAX_TICKETS c o)).
  { pose proof (cursor_step MAX_TICKETS c o). lia. }
  destruct (IH _ r1 Hlt1 Hr1) as (r' & Hr' & Hown & Hact).
  exists r'. split; [exact Hr'|]. split; [congruence | auto].
Qed.

(** X11: a ticket below the cursor, which is every ticket of a reachable
    ledger whose cursor is in range, keeps its owner for ever, and once
    active it stays active: no later reservation, confirmation or draw
    reassigns, deactivates or deletes it. *)
Theorem tickets_are_permanent c ops t r :
  reachable MAX_TICKETS c ∧ cursor_in_range c ∨ t < next_ticket c →
  tickets (db c) !! t = Some r →
  ∃ r', tickets (db (run MAX_TICKETS ops c)) !! t = Some r'
        ∧ t_telegram_id r' = t_telegram_id r
        ∧ (active r = true → active r' = true).
Proof.
  intros Hc Hr. apply ticket_kept_run; [|done].
  destruct Hc as [[Hreach Hc]|Hlt]; [|done].
  pose proof (reachable_books _ c Hreach Hc) as Hb.
  assert (Ht : is_Some (tickets (db c) !! t)) by eauto.
  apply (bk_dense c Hb) in Ht. lia.
Qed.

Lemma payment_kept_step c o i p :
  payments (db c) !! i = Some p →
  ∃ p', payments (db (step MAX_TICKETS c o)) !! i = Some p'
        ∧ (p' = p ∨ confirmed p = false ∧ ∃ tx, p' = confirm_row tx p).
Proof.
  intros Hp. destruct o as [u q|invoice tx|rng]; cbn [step].
  - destruct (reserve_cases MAX_TICKETS c u q)
      as [[_ Hrun]|[[_ Hrun]|[[_ Hrun]|[_ Hrun]]]]; rewrite Hrun;
      cbn [fst reserved_state refused_state db payments]; eauto.
    exists p. split; [|by left]. apply lookup_app_l_Some. done.
  - destruct (activate_frame c invoice tx) as (_ & _ & _ & -> & _).
    destruct (last_open invoice 0 (payments (db c))) as [[j pj]|] eqn:Hfound;
      [|eauto].
    destruct (last_open_Some invoice tx _ _ _ _ Hfound) as (k & Hk & Hrow & Hopen & _).
    simpl in Hk. subst k. apply is_open_unconfirmed in Hopen as [_ Hopen].
    destruct (decide (j = i)) as [->|Hne].
    + rewrite list_lookup_insert_eq by (by eapply lookup_lt_Some).
      assert (pj = p) as -> by congruence.
      exists (confirm_row tx p). split; [done|]. right. split; [done|]. by exists tx.
    + rewrite list_lookup_insert_ne by done. eauto.
  - destruct (draw_frame MAX_TICKETS c rng) as (_ & _ & -> & _). eauto.
Qed.

(** X12: on any database and through any history, a payment row stays at
    its id with its owner, invoice id and amount; the only change it can
    undergo is the one from unconfirmed to confirmed, and a confirmed row,
    transaction hash included, is never written again. *)
Theorem payments_are_settled_once c ops i p :
  payments (db c) !! i = Some p →
  ∃ p', payments (db (run MAX_TICKETS ops c)) !! i = Some p'
        ∧ p_telegram_id p' = p_telegram_id p
        ∧ invoice_id p' = invoice_id p
        ∧ amount p' = amount p
        ∧ (confirmed p = true → p' = p)
        ∧ (confirmed p' = false → p' = p).
Proof.
  revert c p. induction ops as [|o ops IH]; intros c p Hp.
  { exists p. by repeat split. }
  cbn [run foldl].
  destruct (payment_kept_step c o i p Hp) as (p1 & Hp1 & Hstep).
  destruct (IH _ p1 Hp1) as (p' & Hp' & Hown & Hinv & Hamt & Hconf & Hopen).
  exists p'. split; [exact Hp'|].
  destruct Hstep as [->|(Hfalse & tx & ->)]; [by repeat split|].
  cbn [confirm_row p_telegram_id invoice_id amount confirmed] in *.
  specialize (Hconf eq_refl). subst p'.
  cbn [confirm_row p_telegram_id invoice_id amount confirmed].
  repeat split; congruence.
Qed.

Lemma draws_step c o :
  ∃ rows, draws (db (step MAX_TICKETS c o)) = draws (db c) ++ rows
          ∧ (length rows ≤ if is_draw o then 1 else 0)%nat.
Proof.
  destruct o as [u q|invoice tx|rng]; cbn [step is_draw].
  - exists []. rewrite app_nil_r. split; [|done].
    by destruct (reserve_cases MAX_TICKETS c u q)
      as [[_ Hrun]|[[_ Hrun]|[[_ Hrun]|[_ Hrun]]]]; rewrite Hrun.
  - exists []. rewrite app_nil_r. split; [|done].
    by destruct (activate_frame c invoice tx) as (_ & -> & _).
  - destruct (decide (count_sold_tickets (db c) < MAX_TICKETS)) as [Hlow|Hsold].
    { rewrite draw_not_ready by done. exists []. rewrite app_nil_r.
      split; [done | cbn; lia]. }
    destruct (decide (length (get_all_active_tickets (db c)) < 3)%nat) as [Hfew|Hpool].
    { rewrite draw_small_pool by (done || lia). exists []. rewrite app_nil_r.
      split; [done | cbn; lia]. }
    destruct (draw_accepted MAX_TICKETS c rng) as (pay & Hrun & _); [lia | lia |].
    rewrite Hrun. cbn [fst drawn_state db set_draws draws].
    eexists. split; [done|]. cbn. lia.
Qed.

(** X13: the draw records are a log: any history only appends to them, at
    most one row per draw operation, and reservations and confirmations
    append none. *)
Theorem draws_are_a_log c ops :
  ∃ rows, draws (db (run MAX_TICKETS ops c)) = draws (db c) ++ rows
          ∧ (length rows ≤ length (filter (λ o, is_draw o) ops))%nat.
Proof.
  revert c. induction ops as [|o ops IH]; intros c.
  { exists []. by rewrite app_nil_r. }
  cbn [run foldl].
  destruct (draws_step c o) as (rows1 & Hrows1 & Hlen1).
  destruct (IH (step MAX_TICKETS c o)) as (rows & Hrows & Hlen).
  exists (rows1 ++ rows). unfold run in Hrows. rewrite Hrows, Hrows1, app_assoc.
  split; [done|]. rewrite length_app, filter_cons.
  destruct (is_draw o); case_decide; cbn [length]; naive_solver lia.
Qed.

End history.

(** ** Reserving and then paying *)

Lemma last_open_snoc (invoice : string) (i : nat) (ps : list payment_row)
    (p : payment_row) :
  is_open invoice p = true →
  last_open invoice i (ps ++ [p]) = Some ((i + length ps)%nat, p).
Proof.
  intros Hopen. revert i. induction ps as [|p0 ps IH]; intros i.
  - cbn. rewrite Hopen. do 2 f_equal. lia.
  - cbn [app last_open length]. rewrite IH. do 2 f_equal. lia.
Qed.

Lemma Zdesc_antisymm : AntiSymm eq Zdesc.
Proof. intros a b. unfold Zdesc. lia. Qed.

Lemma sorted_ext (R : relation Z) (l1 l2 : list Z) :
  AntiSymm eq R →
  StronglySorted R l1 → StronglySorted R l2 → NoDup l1 → NoDup l2 →
  (∀ x, x ∈ l1 ↔ x ∈ l2) → l1 = l2.
Proof.
  intros Hanti Hs1 Hs2 Hn1 Hn2 Hel.
  apply (StronglySorted_unique R); [done | done |]. by apply NoDup_Permutation.
Qed.

Lemma seqZ_sorted (m : Z) (n : nat) : StronglySorted Z.le (seqZ m (Z.of_nat n)).
Proof.
  induction n as [|n IH]; [constructor|].
  rewrite seqZ_S. apply StronglySorted_app_2; [| done | repeat constructor].
  intros x y Hx%elem_of_seqZ Hy%list_elem_of_singleton. lia.
Qed.

Lemma seqZ_reverse_sorted (m : Z) (n : nat) :
  StronglySorted Zdesc (reverse (seqZ m (Z.of_nat n))).
Proof.
  induction n as [|n IH]; [constructor|].
  rewrite seqZ_S, reverse_snoc. constructor; [done|].
  apply Forall_forall. intros x Hx%elem_of_reverse%elem_of_seqZ. unfold Zdesc. lia.
Qed.

(** After a reservation the owner's newest pending tickets are the
    reserved ones. *)
Lemma pending_after_reserve (c : LotteryCore) (u : string) (q : Z) :
  books c → 0 ≤ q →
  pending_desc (db (reserved_state c u q)) u q
  = reverse (seqZ (next_ticket c) q).
Proof.
  intros Hb Hq. rewrite pending_desc_take by done.
  cbn [reserved_state db tickets].
  set (m1 := foldl _ _ _).
  set (old := merge_sort Zdesc (select_ticket_numbers (is_pending_of u) (tickets (db c)))).
  assert (Hold : ∀ t, t ∈ old → t < next_ticket c).
  { intros t Ht. apply ordered_elem in Ht as (r & Hr & _).
    assert (Hs : is_Some (tickets (db c) !! t)) by eauto.
    apply (bk_dense c Hb) in Hs. lia. }
  assert (Hall : merge_sort Zdesc (select_ticket_numbers (is_pending_of u) m1)
                 = reverse (seqZ (next_ticket c) q) ++ old).
  { apply (sorted_ext Zdesc); [apply Zdesc_antisymm | | | | |].
    - apply ordered_sorted; apply _.
    - apply StronglySorted_app_2.
      + intros x y Hx%elem_of_reverse%elem_of_seqZ Hy%Hold. unfold Zdesc. lia.
      + rewrite <- (Z2Nat.id q) by done. apply seqZ_reverse_sorted.
      + apply ordered_sorted; apply _.
    - apply ordered_NoDup.
    - apply NoDup_app. split; [|split].
      + rewrite reverse_Permutation. apply NoDup_seqZ.
      + intros x Hx%elem_of_reverse%elem_of_seqZ Hy%Hold. lia.
      + apply ordered_NoDup.
    - intros t. unfold old. rewrite elem_of_app, elem_of_reverse, !ordered_elem.
      unfold m1. setoid_rewrite add_tickets_lookup.
      destruct (bool_decide_reflect (t ∈ seqZ (next_ticket c) q)) as [Hin|Hin].
      + split; [intros _; by left|]. intros _. exists (TicketRow u false).
        split; [done|]. by apply pending_row.
      + split; [intros ?; by right | by intros [?|?]]. }
  rewrite Hall. apply take_app_length'. by rewrite length_reverse, length_seqZ.
Qed.

Section round_trip.
Variable MAX_TICKETS : Z.
Implicit Types (c : LotteryCore).

(** X14: in a reachable ledger whose cursor is in range, paying for a
    reservation right after making it activates exactly the tickets just
    reserved: the confirmation of the returned invoice id returns the
    reserved numbers in descending order, with the owner and the price,
    turns these rows active and leaves every other ticket row as it was. *)
Theorem reserve_then_confirm c u q tx :
  reachable MAX_TICKETS c → cursor_in_range c →
  1 ≤ q ≤ 100 → q ≤ available MAX_TICKETS c →
  ∃ c1 r c2,
    reserve_tickets MAX_TICKETS u q c = (c1, Ok r)
    ∧ activate_payment (r_invoice_id r) tx c1
      = (c2, Ok (Activated (reverse (reserved r)) u (total_price r)))
    ∧ reserved r = seqZ (next_ticket c) q
    ∧ (∀ t, tickets (db c2) !! t
            = if bool_decide (next_ticket c ≤ t < next_ticket c + q)
              then Some (TicketRow u true) else tickets (db c) !! t)
    ∧ payments (db c2)
      = payments (db c)
          ++ [PaymentRow u (r_invoice_id r) (total_price r) tx true].
Proof.
  intros Hreach Hc Hq Hav.
  pose proof (reachable_books _ c Hreach Hc) as Hb.
  assert (Hrun : reserve_tickets MAX_TICKETS u q c
                 = (reserved_state c u q,
                    Ok (Reservation (seqZ (next_ticket c) q)
                          (round6 (inject_Z q * TICKET_PRICE))
                          (u +:+ "-" +:+ pretty (next_ticket c) +:+ "-"
                             +:+ pretty (next_ticket c + q - 1))))).
  { pose proof (bk_cursor c Hb). apply reserve_accepted; [done | done | |];
      unfold cursor_in_range, CURSOR_MAX, SQLITE_MAX, SQLITE_MIN in *; lia. }
  assert (Hdb : sqlite_db (db (reserved_state c u q))).
  { apply sound_sqlite_db. replace (reserved_state c u q)
      with (reserve_tickets MAX_TICKETS u q c).1 by by rewrite Hrun.
    by apply sound_reserve, (reachable_sound MAX_TICKETS). }
  set (invoice := u +:+ "-" +:+ pretty (next_ticket c) +:+ "-"
                    +:+ pretty (next_ticket c + q - 1)) in *.
  set (new := PaymentRow u invoice (round6 (inject_Z q * TICKET_PRICE)) "" false).
  assert (Hfound : last_open invoice 0 (payments (db (reserved_state c u q)))
                   = Some (length (payments (db c)), new)).
  { cbn [reserved_state db payments]. apply (last_open_snoc invoice 0).
    unfold is_open, new. cbn [invoice_id confirmed].
    by rewrite bool_decide_eq_true_2. }
  assert (Hqty : py_round (amount new / TICKET_PRICE) = q).
  { apply expected_qty_exact. cbn [new amount]. rewrite round6_price.
    apply Qmult_comm. }
  assert (Hts : pending_desc (db (reserved_state c u q)) (p_telegram_id new)
                  (py_round (amount new / TICKET_PRICE))
                = reverse (seqZ (next_ticket c) q)).
  { rewrite Hqty. apply pending_after_reserve; [done | lia]. }
  eexists _, _, _. split; [exact Hrun|].
  cbn [r_invoice_id reserved total_price].
  rewrite (activate_found _ _ _ _ _ Hfound), Hts;
    [| rewrite Hqty; unfold SQLITE_MAX, SQLITE_MIN; lia | done].
  split; [done|]. split; [done|]. split.
  - intros t. unfold confirmed_state. rewrite Hts. cbn [db tickets].
    rewrite activate_tickets_lookup. cbn [reserved_state db tickets].
    rewrite add_tickets_lookup.
    rewrite (bool_decide_ext (t ∈ reverse (seqZ (next_ticket c) q))
               (next_ticket c ≤ t < next_ticket c + q))
      by (by rewrite elem_of_reverse, elem_of_seqZ).
    rewrite (bool_decide_ext (t ∈ seqZ (next_ticket c) q)
               (next_ticket c ≤ t < next_ticket c + q))
      by apply elem_of_seqZ.
    by destruct (bool_decide _).
  - unfold confirmed_state. cbn [db payments reserved_state].
    rewrite insert_app_r_alt, Nat.sub_diag by lia. done.
Qed.

End round_trip.

(** ** [DB.get_user_tickets] *)

Lemma user_tickets_elem (d : DB) (u : string) (t : Z) :
  t ∈ get_user_tickets d u ↔ get_ticket_owner d t = Some u.
Proof.
  unfold get_user_tickets, get_ticket_owner.
  rewrite (@ordered_elem (is_ticket_of u) (is_ticket_of_dec u) Z.le _ (tickets d) t).
  unfold is_ticket_of. cbn. split.
  - intros (r & -> & <-). done.
  - destruct (tickets d !! t) as [r|]; [|done]. intros [= <-]. by exists r.
Qed.

(** X15: on any database [get_user_tickets] lists exactly the ticket
    numbers whose row names the user, paid or not, each once and in
    ascending order; a user without tickets gets the empty list. *)
Theorem get_user_tickets_lists_owned (d : DB) (u : string) :
  StronglySorted Z.le (get_user_tickets d u)
  ∧ NoDup (get_user_tickets d u)
  ∧ (∀ t, t ∈ get_user_tickets d u ↔ get_ticket_owner d t = Some u)
  ∧ ((∀ t, get_ticket_owner d t ≠ Some u) → get_user_tickets d u = []).
Proof.
  split; [|split; [|split]].
  - apply (@ordered_sorted (is_ticket_of u) (is_ticket_of_dec u) Z.le); apply _.
  - apply (@ordered_NoDup (is_ticket_of u) (is_ticket_of_dec u) Z.le).
  - apply user_tickets_elem.
  - intros Hnone. destruct (get_user_tickets d u) as [|t l] eqn:Hl; [done|].
    destruct (Hnone t). apply user_tickets_elem. rewrite Hl. left.
Qed.

Section user_tickets.
Variable MAX_TICKETS : Z.

(** X16: in a reachable ledger whose cursor is in range a reservation
    that passes the guards appends the reserved numbers to the owner's
    ticket list and leaves the list of every other user as it was. *)
Theorem reserve_extends_user_tickets (c : LotteryCore) (u : string) (q : Z) :
  reachable MAX_TICKETS c → cursor_in_range c →
  1 ≤ q ≤ 100 → q ≤ available MAX_TICKETS c →
  let c1 := (reserve_tickets MAX_TICKETS u q c).1 in
  get_user_tickets (db c1) u
  = get_user_tickets (db c) u ++ seqZ (next_ticket c) q
  ∧ (∀ u', u' ≠ u → get_user_tickets (db c1) u' = get_user_tickets (db c) u').
Proof.
  intros Hreach Hc Hq Hav. cbn zeta.
  pose proof (reachable_books _ c Hreach Hc) as Hb.
  rewrite reserve_accepted;
    [| done | done
     | pose proof (bk_cursor c Hb); unfold SQLITE_MIN; lia
     | unfold cursor_in_range, CURSOR_MAX, SQLITE_MAX in *; lia].
  cbn [fst].
  assert (Hlook : ∀ t u', get_ticket_owner (db (reserved_state c u q)) t = Some u'
            ↔ (next_ticket c ≤ t < next_ticket c + q ∧ u' = u)
              ∨ (¬ next_ticket c ≤ t < next_ticket c + q
                 ∧ get_ticket_owner (db c) t = Some u')).
  { intros t u'. unfold get_ticket_owner. cbn [reserved_state db tickets].
    rewrite add_tickets_lookup.
    rewrite (bool_decide_ext _ _ (elem_of_seqZ (next_ticket c) q t)).
    destruct (bool_decide_reflect (next_ticket c ≤ t < next_ticket c + q)); cbn.
    - split; [intros [= <-]; by left | intros [[_ ->]|[? _]]; done].
    - split; [intros ?; by right | intros [[? _]|[_ ?]]; done]. }
  assert (Hold : ∀ t u', get_ticket_owner (db c) t = Some u' → t < next_ticket c).
  { intros t u'. unfold get_ticket_owner. intros Ht.
    assert (Hs : is_Some (tickets (db c) !! t)).
    { destruct (tickets (db c) !! t); [eauto | done]. }
    apply (bk_dense c Hb) in Hs. lia. }
  pose proof (get_user_tickets_sorted := λ d v,
    @ordered_sorted (is_ticket_of v) (is_ticket_of_dec v) Z.le _ _ _ (tickets d)).
  pose proof (get_user_tickets_NoDup := λ d v,
    @ordered_NoDup (is_ticket_of v) (is_ticket_of_dec v) Z.le _ (tickets d)).
  split.
  - apply (sorted_ext Z.le); [apply _ | apply get_user_tickets_sorted | | | |].
    + apply StronglySorted_app_2; [| apply get_user_tickets_sorted |].
      * intros x y Hx%user_tickets_elem%Hold Hy%elem_of_seqZ. lia.
      * rewrite <- (Z2Nat.id q) by lia. apply seqZ_sorted.
    + apply get_user_tickets_NoDup.
    + apply NoDup_app. split; [apply get_user_tickets_NoDup|]. split; [|apply NoDup_seqZ].
      intros x Hx%user_tickets_elem%Hold Hy%elem_of_seqZ. lia.
    + intros t. rewrite elem_of_app, !user_tickets_elem, Hlook, elem_of_seqZ.
      split.
      * intros [[? _]|[_ ?]]; [by right | by left].
      * intros [Ht|Ht]; [|by left]. right. split; [|done].
        apply Hold in Ht. lia.
  - intros u' Hne.
    apply (sorted_ext Z.le);
      [apply _ | apply get_user_tickets_sorted | apply get_user_tickets_sorted
       | apply get_user_tickets_NoDup | apply get_user_tickets_NoDup |].
    intros t. rewrite !user_tickets_elem, Hlook. split.
    + intros [[_ ?]|[_ ?]]; done.
    + intros Ht. right. split; [|done]. apply Hold in Ht. lia.
Qed.

End user_tickets.

(** ** [DB.add_tickets] and [DB.activate_tickets] *)

(** Where a loop that binds one number after the other ends. *)
Lemma bound_prefix_split (ts : list Z) :
  forallb fits_sqlite ts = true ∧ bound_prefix ts = ts
  ∨ forallb fits_sqlite ts = false
    ∧ ∃ t rest, ts = bound_prefix ts ++ t :: rest
                ∧ ¬ SQLITE_MIN ≤ t ≤ SQLITE_MAX.
Proof.
  induction ts as [|t ts IH]; [by left|]. cbn [forallb bound_prefix].
  destruct (fits_sqlite t) eqn:Hfit; cbn [andb].
  - destruct IH as [[-> ->]|(-> & t' & rest & Hts & Ht')]; [by left|].
    right. split; [done|]. exists t', rest. split; [|done].
    cbn [app]. by rewrite <- Hts.
  - right. split; [done|]. exists t, ts. split; [done|].
    rewrite <- fits_sqlite_spec. by rewrite Hfit.
Qed.

(** X17: [add_tickets] replaces, and ends at the first number that is no
    SQLite INTEGER.  When every number fits it returns, having written all
    of them; otherwise it raises [OverflowError], having written the
    numbers before the first that does not fit.  Every number written is an
    inactive row of the given user afterwards, also when it was an active
    ticket of somebody else before, and no other row and no other table is
    touched. *)
Theorem add_tickets_replaces (d : DB) (u : string) (ts : list Z) :
  let d' := (add_tickets u ts d).1 in
  let written := bound_prefix ts in
  ((∀ t, t ∈ ts → SQLITE_MIN ≤ t ≤ SQLITE_MAX)
   ∧ (add_tickets u ts d).2 = Ok () ∧ written = ts
   ∨ (add_tickets u ts d).2 = Raise OverflowError
     ∧ ∃ t rest, ts = written ++ t :: rest ∧ ¬ SQLITE_MIN ≤ t ≤ SQLITE_MAX)
  ∧ (∀ t, t ∈ written → SQLITE_MIN ≤ t ≤ SQLITE_MAX)
  ∧ (∀ t, t ∈ written →
       get_ticket_owner d' t = Some u ∧ t ∉ get_all_active_tickets d')
  ∧ (∀ t, t ∉ written → tickets d' !! t = tickets d !! t)
  ∧ users d' = users d ∧ payments d' = payments d ∧ draws d' = draws d.
Proof.
  cbn zeta. rewrite add_tickets_run. cbn [fst snd].
  assert (Htk : tickets (set_tickets
                  (λ m, foldl (λ m t, <[t := TicketRow u false]> m) m
                          (bound_prefix ts)) d)
                = foldl (λ m t, <[t := TicketRow u false]> m) (tickets d)
                    (bound_prefix ts))
    by reflexivity.
  split; [|split; [|split; [|split; [|done]]]].
  - destruct (bound_prefix_split ts) as [[Hall ->]|[-> Hsplit]].
    + left. rewrite Hall. split; [by apply forallb_fits | done].
    + by right.
  - intros t Ht. by apply bound_prefix_elem in Ht as [_ Ht].
  - intros t Ht. split.
    + unfold get_ticket_owner.
      by rewrite Htk, add_tickets_lookup, bool_decide_eq_true_2.
    + rewrite pool_elem, Htk. intros [u' Hu'].
      by rewrite add_tickets_lookup, bool_decide_eq_true_2 in Hu'.
  - intros t Ht. by rewrite Htk, add_tickets_lookup, bool_decide_eq_false_2.
Qed.

(** X18: [activate_tickets] only sets flags, and ends at the first number
    that is no SQLite INTEGER: it returns when every number fits and raises
    [OverflowError] otherwise, having gone through the numbers before.  It
    creates and deletes no row and changes no owner; a number it went
    through is active afterwards if it has a row and is skipped silently
    if it has none; no other row is touched; and running it a second time
    changes nothing more. *)
Theorem activate_tickets_only_flips (d : DB) (ts : list Z) :
  let d' := (activate_tickets ts d).1 in
  let visited := bound_prefix ts in
  ((∀ t, t ∈ ts → SQLITE_MIN ≤ t ≤ SQLITE_MAX)
   ∧ (activate_tickets ts d).2 = Ok () ∧ visited = ts
   ∨ (activate_tickets ts d).2 = Raise OverflowError
     ∧ ∃ t rest, ts = visited ++ t :: rest ∧ ¬ SQLITE_MIN ≤ t ≤ SQLITE_MAX)
  ∧ (∀ t, t ∈ visited → SQLITE_MIN ≤ t ≤ SQLITE_MAX)
  ∧ (∀ t, get_ticket_owner d' t = get_ticket_owner d t)
  ∧ (∀ t, t ∈ visited → is_Some (tickets d !! t) → t ∈ get_all_active_tickets d')
  ∧ (∀ t, t ∉ visited → tickets d' !! t = tickets d !! t)
  ∧ ((∀ t, t ∈ visited → tickets d !! t = None) → d' = d)
  ∧ (activate_tickets ts d').1 = d'.
Proof.
  cbn zeta. rewrite !activate_tickets_run. cbn [fst snd].
  unfold set_tickets. cbn [tickets users payments draws].
  split; [|split; [|split; [|split; [|split; [|split]]]]].
  - destruct (bound_prefix_split ts) as [[Hall ->]|[-> Hsplit]].
    + left. rewrite Hall. split; [by apply forallb_fits | done].
    + by right.
  - intros t Ht. by apply bound_prefix_elem in Ht as [_ Ht].
  - intros t. unfold get_ticket_owner. cbn [tickets].
    rewrite activate_tickets_lookup.
    destruct (bool_decide _); [|done]. by destruct (tickets d !! t).
  - intros t Ht [r Hr]. apply pool_elem. exists (t_telegram_id r). cbn [tickets].
    by rewrite activate_tickets_lookup, bool_decide_eq_true_2, Hr.
  - intros t Ht. by rewrite activate_tickets_lookup, bool_decide_eq_false_2.
  - intros Hnone. destruct d as [us tk ps ds]. cbn in *.
    f_equal. apply map_eq. intros t. rewrite activate_tickets_lookup.
    destruct (bool_decide_reflect (t ∈ bound_prefix ts)) as [Hin|Hin]; [|done].
    by rewrite (Hnone t Hin).
  - f_equal. apply map_eq. intros t. rewrite !activate_tickets_lookup.
    destruct (bool_decide _); [|done]. by destruct (tickets d !! t).
Qed.

(** The loops on a list whose second number is [2^63]: the first number
    is written, the third is not reached. *)
Example add_tickets_stops :
  add_tickets "u" [1; SQLITE_MAX + 1; 2] empty_db
  = (MkDB ∅ {[1 := TicketRow "u" false]} [] [], Raise OverflowError).
Proof. reflexivity. Qed.

Example activate_tickets_stops :
  activate_tickets [1; SQLITE_MAX + 1; 2]
    (MkDB ∅ (<[1 := TicketRow "u" false]> {[2 := TicketRow "u" false]}) [] [])
  = (MkDB ∅ (<[1 := TicketRow "u" true]> {[2 := TicketRow "u" false]}) [] [],
     Raise OverflowError).
Proof. reflexivity. Qed.

(** ** The total of a draw's payouts *)

Lemma Qplus_comm_L (x y : Q) : (x + y)%Q = (y + x)%Q.
Proof.
  destruct x as [a b], y as [c d]. unfold Qplus. cbn. f_equal; [ring|].
  apply Pos.mul_comm.
Qed.

Lemma Qplus_assoc_L (x y z : Q) : (x + (y + z))%Q = (x + y + z)%Q.
Proof.
  destruct x as [a b], y as [c d], z as [e f]. unfold Qplus. cbn. f_equal.
  - rewrite !Pos2Z.inj_mul. ring.
  - apply Pos.mul_assoc.
Qed.

Lemma Qplus_0_l_L (x : Q) : (0 + x)%Q = x.
Proof.
  destruct x as [a b]. unfold Qplus. cbn. f_equal. ring.
Qed.

Lemma payout_total_insert (m : gmap (option string) Q) (o : option string) (v : Q) :
  payout_total (<[o := v]> m) = (v + payout_total (delete o m))%Q.
Proof.
  unfold payout_total. rewrite <- insert_delete_eq.
  rewrite map_fold_insert_L; [done | | apply lookup_delete_eq].
  intros j1 j2 z1 z2 y _ _ _.
  by rewrite !Qplus_assoc_L, (Qplus_comm_L z1 z2).
Qed.

Lemma payout_total_lookup (m : gmap (option string) Q) (o : option string) :
  payout_total m = (default 0 (m !! o) + payout_total (delete o m))%Q.
Proof.
  destruct (m !! o) as [v|] eqn:Hv; cbn [default from_option id].
  - rewrite <- payout_total_insert. by rewrite insert_id.
  - by rewrite delete_id, Qplus_0_l_L.
Qed.

Lemma payout_loop_total (c : LotteryCore) (ws : list Z) (i : nat)
    (acc pay : gmap (option string) Q) :
  payout_loop i ws acc c = (c, Ok pay) →
  Qeq (payout_total pay) (payout_total acc + prize_sum i (length ws)).
Proof.
  revert i acc. induction ws as [|t ws IH]; intros i acc.
  - intros [= <-]. cbn. ring.
  - cbn [payout_loop length prize_sum]. unfold mbind, M_bind, gets, index.
    destruct (PRIZES !! i) as [prize|] eqn:Hprize; [|done].
    unfold mret at 1, M_ret at 1. intros Hrun. rewrite (IH _ _ Hrun).
    set (owner := get_ticket_owner (db c) t).
    rewrite payout_total_insert, (payout_total_lookup acc owner).
    cbn [default from_option id]. ring.
Qed.

Section payout.
Variable MAX_TICKETS : Z.

Lemma draw_runs_payout_loop (c c' : LotteryCore) (rng : nat → nat) (r : draw_result) :
  draw_winners MAX_TICKETS rng c = (c', Ok r) →
  length (winners r) = 3%nat
  ∧ winners r ⊆ get_all_active_tickets (db c)
  ∧ payout_loop 0 (winners r) ∅ c = (c, Ok (payouts r))
  ∧ bot_fee r = BOT_FEE.
Proof.
  intros Hrun. destruct (draw_success_inv _ _ _ _ _ Hrun) as [Hsold Hpool].
  destruct (sample_loop_spec rng 3 0 (get_all_active_tickets (db c)))
    as (Hlen & _ & Hsub); [done | apply ordered_NoDup |].
  destruct (payout_loop_ok c (sample_loop rng 0 3 (get_all_active_tickets (db c))) 0 ∅)
    as (pay & Hloop & _); [lia|].
  revert Hrun. unfold draw_winners, mbind, M_bind, gets, random_sample.
  rewrite bool_decide_eq_false_2 by lia.
  rewrite bool_decide_eq_false_2 by lia.
  unfold mret at 1, M_ret at 1. rewrite Hloop.
  intros [= <- <-]. by cbn [winners payouts bot_fee].
Qed.

(** X19: every successful draw pays out the three prizes in full: the
    payouts add up to 4500 whoever wins, every key of the payouts
    dictionary is the owner of a winning active ticket (never [None]), and
    payouts plus the bot fee make 5000. *)
Theorem draw_pays_out_all (c c' : LotteryCore) (rng : nat → nat) (r : draw_result) :
  draw_winners MAX_TICKETS rng c = (c', Ok r) →
  Qeq (payout_total (payouts r)) (inject_Z 4500)
  ∧ Qeq (payout_total (payouts r) + bot_fee r) (inject_Z 5000)
  ∧ (∀ o, is_Some (payouts r !! o) →
       ∃ u t, o = Some u ∧ t ∈ winners r
              ∧ tickets (db c) !! t = Some (TicketRow u true)).
Proof.
  intros Hrun.
  destruct (draw_runs_payout_loop c c' rng r Hrun) as (Hlen & Hsub & Hloop & Hfee).
  pose proof (payout_loop_total c _ 0 ∅ _ Hloop) as Htotal.
  rewrite Hlen in Htotal.
  assert (H4500 : Qeq (payout_total (payouts r)) (inject_Z 4500)).
  { rewrite Htotal. reflexivity. }
  split; [done|]. split.
  - rewrite H4500, Hfee. reflexivity.
  - intros o Ho.
    destruct (payout_loop_ok c (winners r) 0 ∅) as (pay & Hloop' & _ & Hdom); [lia|].
    rewrite Hloop in Hloop'. injection Hloop' as <-.
    apply Hdom in Ho as [Ho|(t & Ht & Hown)].
    { rewrite lookup_empty in Ho. by destruct Ho. }
    pose proof (Hsub t Ht) as Hrow. apply pool_elem in Hrow as [u Hu].
    exists u, t. split; [|done]. rewrite <- Hown. unfold get_ticket_owner.
    by rewrite Hu.
Qed.

End payout.

(** ** The webhook *)

Example lower_status : lower "Confirmed" = "confirmed" ∧ lower "CONFIRMED" = "confirmed".
Proof. split; reflexivity. Qed.

Section webhook_facts.
Variable CRYPTO_WEBHOOK_SECRET : string.
Implicit Types (req : webhook_request) (c : LotteryCore).

Local Ltac wf_absurd :=
  intros ? ? (? & ? & ? & ? & ? & ? & ? & ? & ? & ? & ?); congruence.

Lemma webhook_cases req c :
  (∃ invoice tx,
     well_formed CRYPTO_WEBHOOK_SECRET req invoice tx
     ∧ crypto_webhook CRYPTO_WEBHOOK_SECRET req c
       = relay (activate_payment invoice tx c))
  ∨ ((∀ invoice tx, ¬ well_formed CRYPTO_WEBHOOK_SECRET req invoice tx)
     ∧ ∃ resp, crypto_webhook CRYPTO_WEBHOOK_SECRET req c = (c, Ok resp)
               ∧ ∀ ts, resp ≠ Accepted ts).
Proof.
  unfold crypto_webhook, well_formed.
  destruct (bool_decide_reflect (default "" (header_secret req) ≠ CRYPTO_WEBHOOK_SECRET))
    as [Hsecret|Hsecret].
  { right. split; [wf_absurd | by exists Forbidden]. }
  apply dec_stable in Hsecret.
  destruct (body req) as [data|].
  2:{ right. split; [wf_absurd | by exists (BadRequest "no_json")]. }
  destruct (empty_json data) eqn:Hempty.
  { right. split; [|by exists (BadRequest "no_json")].
    intros invoice tx (_ & data' & amt & [= <-] & Hinv & _).
    unfold empty_json in Hempty. by rewrite Hinv in Hempty. }
  destruct (j_invoice_id data) as [invoice|] eqn:Hinv; cbn [falsy_str orb].
  2:{ right. split; [wf_absurd | by exists (BadRequest "missing_fields")]. }
  destruct (bool_decide_reflect (invoice = "")) as [->|Hne]; cbn [orb].
  { right. split; [wf_absurd | by exists (BadRequest "missing_fields")]. }
  destruct (j_tx_hash data) as [tx|] eqn:Htx; cbn [falsy_str orb].
  2:{ right. split; [wf_absurd | by exists (BadRequest "missing_fields")]. }
  destruct (bool_decide_reflect (tx = "")) as [->|Hne']; cbn [orb].
  { right. split; [wf_absurd | by exists (BadRequest "missing_fields")]. }
  destruct (j_amount data) as [amt|] eqn:Hamt; cbn [falsy_num].
  2:{ right. split; [wf_absurd | by exists (BadRequest "missing_fields")]. }
  destruct (Qeq_bool amt 0) eqn:Hzero.
  { right. split; [|by exists (BadRequest "missing_fields")].
    intros invoice' tx' (_ & data' & amt' & [= <-] & _ & _ & _ & _ & Hamt' & Hnz & _).
    apply Qeq_bool_iff in Hzero. congruence. }
  destruct (bool_decide_reflect (lower (default "" (j_status data)) ≠ "confirmed"))
    as [Hstatus|Hstatus].
  { right. split; [|by exists (BadRequest "not_confirmed")].
    intros invoice' tx' (_ & data' & amt' & [= <-] & _ & _ & _ & _ & _ & _ & Hst).
    done. }
  apply dec_stable in Hstatus.
  left. exists invoice, tx. split.
  - split; [done|]. exists data, amt. repeat split; try done.
    intros Hz. apply Qeq_bool_iff in Hz. congruence.
  - cbn [default from_option id]. unfold relay, mbind, M_bind.
    destruct (activate_payment invoice tx c) as [c' [[reason|ts u a]|e]]; done.
Qed.

(** A confirmation that is rejected has found no payment and has written
    nothing. *)
Lemma activate_rejected_inv (invoice tx : string) c c' (reason : string) :
  activate_payment invoice tx c = (c', Ok (NotActivated reason)) →
  c' = c ∧ last_open invoice 0 (payments (db c)) = None.
Proof.
  destruct (last_open invoice 0 (payments (db c))) as [[i p]|] eqn:Hfound.
  - intros Hrun. by destruct (activate_found_inv _ _ _ _ _ _ _ Hfound Hrun)
      as (_ & ? & _).
  - rewrite (activate_missing _ _ _ Hfound). by intros [= <- _].
Qed.

(** In a ledger reached from the empty one a confirmation never raises. *)
Lemma reachable_activate_total (MAX_TICKETS : Z) (invoice tx : string) c :
  reachable MAX_TICKETS c → ∃ act, (activate_payment invoice tx c).2 = Ok act.
Proof.
  intros Hs%reachable_sound.
  destruct (last_open invoice 0 (payments (db c))) as [[i p]|] eqn:Hfound.
  - destruct (sound_full_activation c invoice tx i p Hs Hfound)
      as (_ & _ & _ & _ & ->). eauto.
  - rewrite (activate_missing _ _ _ Hfound). eauto.
Qed.

(** X20: the webhook changes the ledger through [activate_payment] only.
    A request that fails a check (the secret, a JSON object, non-empty
    [invoice_id] and [tx_hash], a non-zero [amount], a status that reads
    "confirmed" in any letter case) is answered 403 or 400 and leaves the
    ledger untouched.  A request that passes them is answered as
    [activate_payment] on its invoice decides: 200 with the tickets it
    activated, 400 with its reason, or the exception it raises.  So every
    answer other than 200 comes with an untouched ledger, the answer is 200
    exactly when [activate_payment] confirms the invoice, and in a ledger
    reached from the empty one the webhook always answers. *)
Theorem webhook_only_confirms req c :
  ((∀ invoice tx, ¬ well_formed CRYPTO_WEBHOOK_SECRET req invoice tx) →
     ∃ resp, crypto_webhook CRYPTO_WEBHOOK_SECRET req c = (c, Ok resp)
             ∧ ∀ ts, resp ≠ Accepted ts)
  ∧ (∀ invoice tx, well_formed CRYPTO_WEBHOOK_SECRET req invoice tx →
       crypto_webhook CRYPTO_WEBHOOK_SECRET req c
       = relay (activate_payment invoice tx c))
  ∧ (∀ c' resp, crypto_webhook CRYPTO_WEBHOOK_SECRET req c = (c', Ok resp) →
       (∀ ts, resp ≠ Accepted ts) → c' = c)
  ∧ (∀ c' ts,
       crypto_webhook CRYPTO_WEBHOOK_SECRET req c = (c', Ok (Accepted ts))
       ↔ ∃ invoice tx u a,
           well_formed CRYPTO_WEBHOOK_SECRET req invoice tx
           ∧ activate_payment invoice tx c = (c', Ok (Activated ts u a)))
  ∧ (∀ MAX_TICKETS, reachable MAX_TICKETS c →
       ∃ resp, (crypto_webhook CRYPTO_WEBHOOK_SECRET req c).2 = Ok resp).
Proof.
  destruct (webhook_cases req c)
    as [(invoice & tx & Hwf & Hrun)|(Hbad & resp & Hrun & Hrej)].
  - assert (Hsame : ∀ invoice' tx',
              well_formed CRYPTO_WEBHOOK_SECRET req invoice' tx' →
              invoice' = invoice ∧ tx' = tx).
    { intros invoice' tx' Hwf'.
      destruct Hwf as (_ & data & amt & Hbody & Hinv & _ & Htx & _).
      destruct Hwf' as (_ & data' & amt' & Hbody' & Hinv' & _ & Htx' & _).
      assert (data' = data) as -> by congruence. split; congruence. }
    destruct (activate_payment invoice tx c) as [c1 out] eqn:Hout.
    unfold relay in Hrun. cbn [fst snd] in Hrun.
    split; [|split; [|split; [|split]]].
    + intros Hnone. by destruct (Hnone invoice tx).
    + intros invoice' tx' [-> ->]%Hsame. by rewrite Hout.
    + intros c' resp'. rewrite Hrun. intros [= <- Hresp] Hrej.
      destruct out as [[reason|ts u a]|e]; [| |done].
      * by apply activate_rejected_inv in Hout as [-> _].
      * injection Hresp as <-. by destruct (Hrej ts).
    + intros c' ts. rewrite Hrun. split.
      * destruct out as [[reason|ts' u a]|e]; intros [= <- <-].
        by exists invoice, tx, u, a.
      * intros (invoice' & tx' & u & a & [-> ->]%Hsame & Hact').
        rewrite Hout in Hact'. by injection Hact' as <- ->.
    + intros MAX_TICKETS Hreach.
      destruct (reachable_activate_total MAX_TICKETS invoice tx c Hreach)
        as [act Hact].
      rewrite Hout in Hact. cbn [snd] in Hact. subst out. rewrite Hrun.
      destruct act; cbn [snd]; eauto.
  - split; [|split; [|split; [|split]]].
    + intros _. by exists resp.
    + intros invoice tx Hwf. by destruct (Hbad invoice tx).
    + intros c' resp'. rewrite Hrun. by intros [= <- _] _.
    + intros c' ts. rewrite Hrun. split.
      * intros [= _ Hresp]. by destruct (Hrej ts).
      * intros (invoice & tx & u & a & Hwf & _). by destruct (Hbad invoice tx).
    + intros _ _. rewrite Hrun. eauto.
Qed.

(** X21: the amount reported by the payment provider is only tested for
    being present and non-zero: it is never compared with the amount of
    the payment row, so two notifications that differ in their non-zero
    amount only are answered alike and leave the same ledger. *)
Theorem webhook_ignores_amount (hdr invoice tx status : option string) (a1 a2 : Q)
    (other : bool) c :
  ¬ Qeq a1 0 → ¬ Qeq a2 0 →
  crypto_webhook CRYPTO_WEBHOOK_SECRET
    (WebhookRequest hdr (Some (WebhookJson invoice tx status (Some a1) other))) c
  = crypto_webhook CRYPTO_WEBHOOK_SECRET
      (WebhookRequest hdr (Some (WebhookJson invoice tx status (Some a2) other))) c.
Proof.
  intros Ha1 Ha2. unfold crypto_webhook, empty_json.
  cbn [header_secret body j_invoice_id j_tx_hash j_status j_amount j_other falsy_num].
  assert (Hz1 : Qeq_bool a1 0 = false).
  { destruct (Qeq_bool a1 0) eqn:Hz; [|done]. by apply Qeq_bool_iff in Hz. }
  assert (Hz2 : Qeq_bool a2 0 = false).
  { destruct (Qeq_bool a2 0) eqn:Hz; [|done]. by apply Qeq_bool_iff in Hz. }
  rewrite Hz1, Hz2. by destruct invoice, tx, status.
Qed.

Lemma well_formed_inj req (invoice tx invoice' tx' : string) :
  well_formed CRYPTO_WEBHOOK_SECRET req invoice tx →
  well_formed CRYPTO_WEBHOOK_SECRET req invoice' tx' →
  invoice' = invoice ∧ tx' = tx.
Proof.
  intros (_ & data & amt & Hbody & Hinv & _ & Htx & _)
         (_ & data' & amt' & Hbody' & Hinv' & _ & Htx' & _).
  assert (data' = data) as -> by congruence. split; congruence.
Qed.

(** X22: in a ledger reached from the empty one, a notification that was
    accepted is refused when it is delivered again: the second delivery is
    answered 400 with the not-found / already-confirmed reason and leaves
    the ledger as the first one left it. *)
Theorem webhook_replay_rejected (MAX_TICKETS : Z) req c c1 (ts : list Z) :
  reachable MAX_TICKETS c →
  crypto_webhook CRYPTO_WEBHOOK_SECRET req c = (c1, Ok (Accepted ts)) →
  crypto_webhook CRYPTO_WEBHOOK_SECRET req c1
  = (c1, Ok (BadRequest "invoice_not_found_or_already_confirmed")).
Proof.
  intros Hreach Hfirst.
  pose proof (reachable_open_count MAX_TICKETS c) as Hone.
  destruct (webhook_cases req c)
    as [(invoice & tx & Hwf & Hrun)|(_ & resp & Hrun & Hrej)].
  2:{ rewrite Hrun in Hfirst. injection Hfirst as _ ->. by destruct (Hrej ts). }
  specialize (Hone invoice Hreach).
  rewrite Hrun in Hfirst. unfold relay in Hfirst.
  destruct (last_open invoice 0 (payments (db c))) as [[i p]|] eqn:Hfound.
  2:{ by rewrite (activate_missing _ _ _ Hfound) in Hfirst. }
  destruct (activate_payment invoice tx c) as [c0 [act|e]] eqn:Hact;
    cbn [fst snd] in Hfirst; [|by destruct e].
  destruct (activate_found_inv _ _ _ _ _ _ _ Hfound Hact) as (-> & _ & _).
  injection Hfirst as <- _.
  destruct (webhook_cases req (confirmed_state c i p tx))
    as [(invoice' & tx' & Hwf' & Hrun')|(Hbad & _)].
  2:{ by destruct (Hbad invoice tx). }
  destruct (well_formed_inj req _ _ _ _ Hwf Hwf') as [-> ->].
  rewrite Hrun', activate_missing; [done|].
  apply last_open_None. rewrite (activate_closes_one _ _ _ _ _ Hfound). lia.
Qed.

End webhook_facts.

(** ** Past the range of a SQLite INTEGER *)

Lemma bound_prefix_seqZ (next : Z) (k : nat) (t : Z) :
  SQLITE_MIN ≤ next →
  t ∈ bound_prefix (seqZ next (Z.of_nat k))
  ↔ next ≤ t < next + Z.of_nat k ∧ t ≤ SQLITE_MAX.
Proof.
  revert next. induction k as [|k IH]; intros next Hlo.
  { cbn. rewrite elem_of_nil. lia. }
  rewrite seqZ_cons by lia. cbn [bound_prefix].
  replace (Z.pred (Z.of_nat (S k))) with (Z.of_nat k) by lia.
  replace (Z.succ next) with (next + 1) by lia.
  destruct (fits_sqlite next) eqn:Hfit.
  - apply fits_sqlite_spec in Hfit. rewrite elem_of_cons, IH by lia. lia.
  - rewrite elem_of_nil. split; [done|]. intros [Ht Hmax].
    assert (Hfits : fits_sqlite next = true) by (apply fits_sqlite_spec; lia).
    congruence.
Qed.

Section overflow.
Variable MAX_TICKETS : Z.

(** X23: a reservation that passes both guards but reaches past the
    greatest SQLite INTEGER is not carried out as a whole and not undone
    either: [add_tickets] raises [OverflowError] after the user has been
    registered and the numbers up to [2^63 - 1] have been written as the
    user's inactive rows; the cursor has not moved and no payment row is
    recorded. *)
Theorem reserve_tickets_overflow (c : LotteryCore) (u : string) (q : Z) :
  1 ≤ q ≤ 100 → q ≤ available MAX_TICKETS c →
  SQLITE_MIN ≤ next_ticket c → SQLITE_MAX < next_ticket c + q - 1 →
  ∃ c',
    reserve_tickets MAX_TICKETS u q c = (c', Raise OverflowError)
    ∧ next_ticket c' = next_ticket c
    ∧ payments (db c') = payments (db c)
    ∧ draws (db c') = draws (db c)
    ∧ users (db c') = (if bool_decide (u ∈ users (db c)) then users (db c)
                       else {[u]} ∪ users (db c))
    ∧ (∀ t, tickets (db c') !! t
            = if bool_decide (next_ticket c ≤ t ≤ SQLITE_MAX)
              then Some (TicketRow u false) else tickets (db c) !! t).
Proof.
  intros Hq Hav Hlo Hhi. exists (refused_state c u q).
  split; [apply reserve_refused; [done | done | by right]|].
  cbn [refused_state db next_ticket payments draws users tickets].
  repeat split. intros t. rewrite add_tickets_lookup.
  rewrite (bool_decide_ext (t ∈ bound_prefix (seqZ (next_ticket c) q))
             (next_ticket c ≤ t ≤ SQLITE_MAX)); [done|].
  rewrite <- (Z2Nat.id q) at 1 by lia.
  rewrite bound_prefix_seqZ by done. lia.
Qed.

End overflow.

(** X24: a confirmation that finds a payment whose quantity
    [round(amount / TICKET_PRICE)] is no SQLite INTEGER raises
    [OverflowError] binding the [LIMIT], after the payment row has been
    marked confirmed with the transaction hash: no ticket is activated,
    and no further confirmation finds that row. *)
Theorem activate_payment_overflow (c : LotteryCore) (invoice tx : string)
    (i : nat) (p : payment_row) :
  last_open invoice 0 (payments (db c)) = Some (i, p) →
  expected_qty p < SQLITE_MIN ∨ SQLITE_MAX < expected_qty p →
  ∃ c',
    activate_payment invoice tx c = (c', Raise OverflowError)
    ∧ tickets (db c') = tickets (db c)
    ∧ next_ticket c' = next_ticket c
    ∧ payments (db c') = <[i := confirm_row tx p]> (payments (db c))
    ∧ payments (db c') !! i
      = Some (PaymentRow (p_telegram_id p) (invoice_id p) (amount p) tx true)
    ∧ open_count invoice (payments (db c'))
      = pred (open_count invoice (payments (db c))).
Proof.
  intros Hfound Hqty. exists (paid_state c i p tx).
  split; [by apply activate_overflow|].
  cbn [paid_state db set_payments tickets next_ticket payments].
  split; [done|]. split; [done|]. split; [done|]. split.
  - destruct (last_open_Some invoice tx _ _ _ _ Hfound) as (k & Hk & Hrow & _).
    simpl in Hk. subst k. apply list_lookup_insert_eq. by eapply lookup_lt_Some.
  - apply (activate_closes_one c invoice tx i p Hfound).
Qed.

(** *** Why the cursor has to be in range *)

Section long_history.

Lemma all_pending_sold (c : LotteryCore) :
  all_pending c → count_sold_tickets (db c) = 0.
Proof.
  intros Hall. unfold count_sold_tickets.
  assert (Hnone : filter is_active (tickets (db c)) = ∅).
  { apply map_empty. intros t. apply map_lookup_filter_None. right.
    intros r Hr Hact. unfold is_active in Hact. cbn in Hact.
    rewrite (Hall t r Hr) in Hact. done. }
  by rewrite Hnone, map_size_empty.
Qed.

(** [n] reservations of 100 tickets each, none of them paid, move the
    cursor to [1 + 100 n], as long as the numbers fit. *)
Lemma hundreds_reserved (n : nat) :
  let c := run Main.MAX_TICKETS (replicate n (Reserve "u" 100)) empty_ledger in
  100 * Z.of_nat n ≤ SQLITE_MAX →
  next_ticket c = 1 + 100 * Z.of_nat n ∧ all_pending c.
Proof.
  cbn zeta. induction n as [|n IH]; intros Hfit.
  { split; [reflexivity|]. intros t r. unfold run. cbn [replicate foldl].
    change (tickets (db empty_ledger)) with (∅ : gmap Z ticket_row).
    by rewrite lookup_empty. }
  destruct IH as [Hnext Hall]; [lia|].
  rewrite replicate_S_end. unfold run in *. rewrite foldl_snoc. cbn [step].
  set (c := foldl (step Main.MAX_TICKETS) empty_ledger
              (replicate n (Reserve "u" 100))) in *.
  rewrite reserve_accepted.
  - cbn [fst reserved_state next_ticket]. split; [lia|].
    intros t r. cbn [reserved_state db tickets]. rewrite add_tickets_lookup.
    destruct (bool_decide _); [by intros [= <-] | apply Hall].
  - lia.
  - unfold available. rewrite (all_pending_sold c Hall).
    unfold Main.MAX_TICKETS. lia.
  - rewrite Hnext. unfold SQLITE_MIN. lia.
  - rewrite Hnext. lia.
Qed.

End long_history.

(** X25: the range condition on the cursor is needed.  After
    92233720368547758 unpaid reservations of 100 tickets the cursor is
    [2^63 - 7]; one more reservation of 100 passes the guards and is
    refused by [add_tickets] after the last seven numbers are written.
    The ledger reached has ticket rows at and above its cursor, no payment
    for them, and restarting the core on its database gives another
    cursor. *)
Theorem cursor_range_is_needed :
  ∃ c,
    reachable Main.MAX_TICKETS c
    ∧ next_ticket c = SQLITE_MAX - 6
    ∧ ¬ cursor_in_range c
    ∧ (∀ t, next_ticket c ≤ t ≤ SQLITE_MAX →
            tickets (db c) !! t = Some (TicketRow "u" false))
    ∧ next_ticket (new_core (db c)) = SQLITE_MAX + 1.
Proof.
  assert (Hn : ∃ n : nat, Z.of_nat n = 92233720368547758).
  { exists (Z.to_nat 92233720368547758). apply Z2Nat.id. done. }
  destruct Hn as [n Hn].
  pose proof (hundreds_reserved n) as Hrun. cbn zeta in Hrun.
  set (c := run Main.MAX_TICKETS (replicate n (Reserve "u" 100)) empty_ledger) in *.
  destruct Hrun as [Hnext Hall]; [rewrite Hn; by vm_compute|].
  assert (Hcur : next_ticket c = SQLITE_MAX - 6).
  { rewrite Hnext, Hn. reflexivity. }
  assert (Hstep : reserve_tickets Main.MAX_TICKETS "u" 100 c
                  = (refused_state c "u" 100, Raise OverflowError)).
  { apply reserve_refused; [lia | |].
    - unfold available. rewrite (all_pending_sold c Hall).
      unfold Main.MAX_TICKETS. lia.
    - right. rewrite Hcur. lia. }
  assert (Hrows : ∀ t, tickets (db (refused_state c "u" 100)) !! t
                       = if bool_decide (next_ticket c ≤ t ≤ SQLITE_MAX)
                         then Some (TicketRow "u" false) else tickets (db c) !! t).
  { intros t. cbn [refused_state db tickets]. rewrite add_tickets_lookup.
    rewrite (bool_decide_ext (t ∈ bound_prefix (seqZ (next_ticket c) 100))
               (next_ticket c ≤ t ≤ SQLITE_MAX)); [done|].
    change 100 with (Z.of_nat 100) at 1.
    rewrite bound_prefix_seqZ by (rewrite Hcur; unfold SQLITE_MIN, SQLITE_MAX; lia).
    rewrite Hcur. lia. }
  exists (refused_state c "u" 100). split; [|split; [|split; [|split]]].
  - exists (replicate n (Reserve "u" 100) ++ [Reserve "u" 100]).
    unfold run. rewrite foldl_snoc. cbn [step].
    change (foldl (step Main.MAX_TICKETS) empty_ledger
              (replicate n (Reserve "u" 100))) with c.
    by rewrite Hstep.
  - exact Hcur.
  - unfold cursor_in_range, CURSOR_MAX. cbn [refused_state next_ticket].
    rewrite Hcur. lia.
  - intros t Ht. rewrite Hrows. cbn [refused_state next_ticket] in Ht.
    by rewrite bool_decide_eq_true_2.
  - pose proof (max_ticket_number_spec (db (refused_state c "u" 100))) as Hmax.
    unfold new_core. cbn [next_ticket].
    assert (Htop : tickets (db (refused_state c "u" 100)) !! SQLITE_MAX
                   = Some (TicketRow "u" false)).
    { rewrite Hrows, bool_decide_eq_true_2; [done|]. rewrite Hcur. lia. }
    destruct (max_ticket_number _) as [mx|].
    2:{ rewrite Hmax in Htop. by rewrite lookup_empty in Htop. }
    destruct Hmax as [Hmx Hub]. cbn [default from_option id].
    assert (Hle : SQLITE_MAX ≤ mx) by (apply Hub; by eexists).
    assert (Hge : mx ≤ SQLITE_MAX); [|lia].
    rewrite Hrows in Hmx. destruct (bool_decide_reflect (next_ticket c ≤ mx ≤ SQLITE_MAX))
      as [Hin|Hout]; [lia|].
    assert (Hsound : sound c).
    { apply (reachable_sound Main.MAX_TICKETS). by eexists. }
    apply (sd_keys c Hsound) in Hmx. lia.
Qed.

(** ** The theorems on sample ledgers *)

Lemma reachable_ticket_numbers_witness :
  1 ≤ next_ticket two_buyers_ledger
  ∧ (∀ t, is_Some (tickets (db two_buyers_ledger) !! t)
          ↔ 1 ≤ t < next_ticket two_buyers_ledger)
  ∧ Z.of_nat (size (tickets (db two_buyers_ledger)))
    = next_ticket two_buyers_ledger - 1.
Proof.
  apply (reachable_ticket_numbers Main.MAX_TICKETS two_buyers_ledger).
  - exists two_buyers_ops. reflexivity.
  - by vm_compute.
Defined.

Lemma restart_keeps_cursor_witness :
  new_core (db two_buyers_ledger) = two_buyers_ledger.
Proof.
  apply (restart_keeps_cursor Main.MAX_TICKETS two_buyers_ledger).
  - exists two_buyers_ops. reflexivity.
  - by vm_compute.
Defined.

Lemma reachable_owners_registered_witness :
  (∀ t u, get_ticket_owner (db two_buyers_ledger) t = Some u
          → u ∈ users (db two_buyers_ledger))
  ∧ (∀ p, p ∈ payments (db two_buyers_ledger)
          → p_telegram_id p ∈ users (db two_buyers_ledger)).
Proof.
  apply (reachable_owners_registered Main.MAX_TICKETS two_buyers_ledger).
  exists two_buyers_ops. reflexivity.
Defined.

Lemma reachable_invoice_ids_distinct_witness :
  NoDup (invoice_id <$> payments (db two_buyers_ledger)).
Proof.
  apply (reachable_invoice_ids_distinct Main.MAX_TICKETS two_buyers_ledger).
  exists two_buyers_ops. reflexivity.
Defined.

Lemma reachable_confirm_is_full_witness :
  ∃ c' ts,
    activate_payment "u2-4-5" "0xdef" two_buyers_ledger
    = (c', Ok (Activated ts "u2" 1%Q))
    ∧ 1 ≤ Z.of_nat (length ts) ≤ 100
    ∧ Qeq 1 (TICKET_PRICE * inject_Z (Z.of_nat (length ts)))
    ∧ (∀ t, t ∈ ts → tickets (db c') !! t = Some (TicketRow "u2" true)).
Proof.
  apply (reachable_confirm_is_full Main.MAX_TICKETS two_buyers_ledger
           "u2-4-5" "0xdef" 1 (PaymentRow "u2" "u2-4-5" 1 "" false)).
  - exists two_buyers_ops. reflexivity.
  - reflexivity.
Defined.

Lemma reachable_books_balance_witness :
  count_sold_tickets (db two_buyers_ledger) = paid (payments (db two_buyers_ledger))
  ∧ Qeq (confirmed_total (payments (db two_buyers_ledger)))
        (TICKET_PRICE * inject_Z (count_sold_tickets (db two_buyers_ledger)))
  ∧ (∀ u, Z.of_nat (size (filter (is_pending_of u) (tickets (db two_buyers_ledger))))
          = owed u (payments (db two_buyers_ledger))).
Proof.
  apply (reachable_books_balance Main.MAX_TICKETS two_buyers_ledger).
  - exists two_buyers_ops. reflexivity.
  - by vm_compute.
Defined.

Lemma sold_never_decreases_witness :
  count_sold_tickets (db two_buyers_ledger)
  ≤ count_sold_tickets
      (db (run Main.MAX_TICKETS
             [Reserve "u3" 1; Confirm "u2-4-5" "0xdef"; Draw (λ i, i)]
             two_buyers_ledger)).
Proof.
  apply (sold_never_decreases Main.MAX_TICKETS two_buyers_ledger).
  - exists two_buyers_ops. reflexivity.
  - by vm_compute.
Defined.

Lemma activate_payment_counts_witness :
  let c' := (activate_payment "7-1-2" "0xabc" twin_invoice_ledger).1 in
  count_sold_tickets (db c')
  = count_sold_tickets (db twin_invoice_ledger) + Z.of_nat (length [2; 1])
  ∧ Z.of_nat (size (filter (is_pending_of "7") (tickets (db c'))))
    = Z.of_nat (size (filter (is_pending_of "7") (tickets (db twin_invoice_ledger))))
      - Z.of_nat (length [2; 1]).
Proof.
  intros c'.
  apply (activate_payment_counts twin_invoice_ledger c' "7-1-2" "0xabc"
           [2; 1] "7" 1%Q).
  reflexivity.
Defined.

Lemma tickets_are_permanent_witness :
  ∃ r', tickets (db (run Main.MAX_TICKETS
                       [Reserve "u3" 1; Confirm "u2-4-5" "0xdef"; Draw (λ i, i)]
                       two_buyers_ledger)) !! 2
        = Some r'
        ∧ t_telegram_id r' = "u1"
        ∧ (true = true → active r' = true).
Proof.
  apply (tickets_are_permanent Main.MAX_TICKETS two_buyers_ledger
           [Reserve "u3" 1; Confirm "u2-4-5" "0xdef"; Draw (λ i, i)]
           2 (TicketRow "u1" true)).
  - left. split; [exists two_buyers_ops; reflexivity | by vm_compute].
  - reflexivity.
Defined.

Lemma payments_are_settled_once_witness :
  let p := PaymentRow "u1" "u1-1-3" (3 # 2) "0xabc" true in
  ∃ p', payments (db (run Main.MAX_TICKETS
                        [Confirm "u1-1-3" "0xother"; Reserve "u1" 1]
                        two_buyers_ledger)) !! 0%nat
        = Some p'
        ∧ p_telegram_id p' = "u1"
        ∧ invoice_id p' = "u1-1-3"
        ∧ amount p' = 3 # 2
        ∧ (true = true → p' = p)
        ∧ (confirmed p' = false → p' = p).
Proof.
  apply (payments_are_settled_once Main.MAX_TICKETS two_buyers_ledger
           [Confirm "u1-1-3" "0xother"; Reserve "u1" 1] 0
           (PaymentRow "u1" "u1-1-3" (3 # 2) "0xabc" true)).
  reflexivity.
Defined.

Lemma reserve_then_confirm_witness :
  ∃ c1 r c2,
    reserve_tickets Main.MAX_TICKETS "u3" 2 two_buyers_ledger = (c1, Ok r)
    ∧ activate_payment (r_invoice_id r) "0x3" c1
      = (c2, Ok (Activated (reverse (reserved r)) "u3" (total_price r)))
    ∧ reserved r = seqZ (next_ticket two_buyers_ledger) 2
    ∧ (∀ t, tickets (db c2) !! t
            = if bool_decide (next_ticket two_buyers_ledger ≤ t
                              < next_ticket two_buyers_ledger + 2)
              then Some (TicketRow "u3" true)
              else tickets (db two_buyers_ledger) !! t)
    ∧ payments (db c2)
      = payments (db two_buyers_ledger)
          ++ [PaymentRow "u3" (r_invoice_id r) (total_price r) "0x3" true].
Proof.
  apply (reserve_then_confirm Main.MAX_TICKETS two_buyers_ledger "u3" 2 "0x3").
  - exists two_buyers_ops. reflexivity.
  - by vm_compute.
  - lia.
  - by vm_compute.
Defined.

Lemma reserve_extends_user_tickets_witness :
  let c1 := (reserve_tickets Main.MAX_TICKETS "u1" 2 two_buyers_ledger).1 in
  get_user_tickets (db c1) "u1"
  = get_user_tickets (db two_buyers_ledger) "u1"
    ++ seqZ (next_ticket two_buyers_ledger) 2
  ∧ (∀ u', u' ≠ "u1"
           → get_user_tickets (db c1) u' = get_user_tickets (db two_buyers_ledger) u').
Proof.
  apply (reserve_extends_user_tickets Main.MAX_TICKETS two_buyers_ledger "u1" 2).
  - exists two_buyers_ops. reflexivity.
  - by vm_compute.
  - lia.
  - by vm_compute.
Defined.

Lemma draw_pays_out_all_witness :
  Qeq (payout_total payouts_1001_twice) (inject_Z 4500)
  ∧ Qeq (payout_total payouts_1001_twice + BOT_FEE) (inject_Z 5000)
  ∧ (∀ o, is_Some (payouts_1001_twice !! o) →
       ∃ u t, o = Some u ∧ t ∈ [1; 2; 3]
              ∧ tickets (db (paid_ledger 3)) !! t = Some (TicketRow u true)).
Proof.
  apply (draw_pays_out_all 3 (paid_ledger 3)
           (drawn_state (paid_ledger 3) [1; 2; 3]) (λ i, i)
           (DrawResult [1; 2; 3] payouts_1001_twice BOT_FEE)).
  reflexivity.
Defined.

Lemma webhook_ignores_amount_witness :
  crypto_webhook "s3cr3t"
    (WebhookRequest (Some "s3cr3t")
       (Some (WebhookJson (Some "u2-4-5") (Some "0xdef") (Some "Confirmed")
                (Some 1%Q) false)))
    two_buyers_ledger
  = crypto_webhook "s3cr3t"
      (WebhookRequest (Some "s3cr3t")
         (Some (WebhookJson (Some "u2-4-5") (Some "0xdef") (Some "Confirmed")
                  (Some (1 # 1000)) false)))
      two_buyers_ledger.
Proof.
  apply (webhook_ignores_amount "s3cr3t" (Some "s3cr3t") (Some "u2-4-5")
           (Some "0xdef") (Some "Confirmed") 1%Q (1 # 1000) false two_buyers_ledger).
  - discriminate.
  - discriminate.
Defined.

Lemma webhook_replay_rejected_witness :
  crypto_webhook "s3cr3t" paid_notification
    (confirmed_state two_buyers_ledger 1 (PaymentRow "u2" "u2-4-5" 1 "" false) "0xdef")
  = (confirmed_state two_buyers_ledger 1 (PaymentRow "u2" "u2-4-5" 1 "" false) "0xdef",
     Ok (BadRequest "invoice_not_found_or_already_confirmed")).
Proof.
  apply (webhook_replay_rejected "s3cr3t" Main.MAX_TICKETS paid_notification
           two_buyers_ledger _ [5; 4]).
  - exists two_buyers_ops. reflexivity.
  - reflexivity.
Defined.

Lemma reserve_tickets_overflow_witness :
  ∃ c',
    reserve_tickets Main.MAX_TICKETS "u1" 3 last_numbers_ledger
    = (c', Raise OverflowError)
    ∧ next_ticket c' = SQLITE_MAX - 1
    ∧ payments (db c') = []
    ∧ users (db c') = {["u1"]}
    ∧ tickets (db c') !! (SQLITE_MAX - 1) = Some (TicketRow "u1" false)
    ∧ tickets (db c') !! SQLITE_MAX = Some (TicketRow "u1" false).
Proof.
  destruct (reserve_tickets_overflow Main.MAX_TICKETS last_numbers_ledger "u1" 3)
    as (c' & Hrun & Hnext & Hpay & _ & Husers & Hrows).
  - lia.
  - by vm_compute.
  - by vm_compute.
  - by vm_compute.
  - exists c'. split; [exact Hrun|]. split; [exact Hnext|]. split; [exact Hpay|].
    split; [exact Husers|]. split; rewrite Hrows; reflexivity.
Defined.

Lemma activate_payment_overflow_witness :
  ∃ c',
    activate_payment "9-1-1" "0xabc" huge_payment_ledger = (c', Raise OverflowError)
    ∧ tickets (db c') = ∅
    ∧ payments (db c')
      = [PaymentRow "9" "9-1-1" (inject_Z 4611686018427387904) "0xabc" true]
    ∧ open_count "9-1-1" (payments (db c')) = 0%nat.
Proof.
  destruct (activate_payment_overflow huge_payment_ledger "9-1-1" "0xabc" 0
              (PaymentRow "9" "9-1-1" (inject_Z 4611686018427387904) "" false))
    as (c' & Hrun & Htk & _ & Hpay & _ & Hcnt).
  - reflexivity.
  - right. by vm_compute.
  - exists c'. split; [exact Hrun|]. split; [exact Htk|]. split; [exact Hpay|].
    exact Hcnt.
Defined.
